(** * Terrain Lighting Eliminator: a shallow embedding of
    [terrain_lighting_eliminator.py] and the properties of its patch pipeline.

    The development follows the source top-down:
    - [fix_course_file]: the record patcher over a byte buffer;
    - [Store]: the same function over an object store, to see the copy made
      by [bytearray(data)];
    - [scan_file], [scan_file_safe], [scan_folder], [main]: the file pipeline
      over a world made of a disk and a trace of input/output events;
    - [does_path_look_like_level]: the file-name filter, over pathlib's
      [suffix] and [suffixes]. *)

From Stdlib Require Import Strings.Byte Strings.String Strings.Ascii.
From Stdlib Require Import DecimalString.
From stdpp Require Import gmap strings list fin_maps sorting.

Local Open Scope nat_scope.

(** ** Exceptions and results *)

(** The exceptions the modelled code can raise; all of them are subclasses of
    Python's [Exception]. [CodecError] stands for whatever the two codecs
    ([lz77], [nsmbpy2.u8]) raise on malformed input, and [OSError] for the
    subclass of [OSError] that the system raises on an entry that is neither
    a file nor a directory. *)
Inductive exn : Type :=
  | struct_error
  | IndexError
  | TypeError
  | KeyError
  | FileNotFoundError
  | IsADirectoryError
  | NotADirectoryError
  | OSError
  | RecursionError
  | CodecError.

Inductive result (A : Type) : Type :=
  | Ok (a : A)
  | Raise (e : exn).
Arguments Ok {A} a.
Arguments Raise {A} e.

#[global] Instance result_ret : MRet result := @Ok.
#[global] Instance result_bind : MBind result := fun A B f r =>
  match r with
  | Ok a => f a
  | Raise e => Raise e
  end.

#[global] Instance exn_eq_dec : EqDecision exn.
Proof. solve_decision. Defined.

(** ** Byte buffers and [struct] *)

#[global] Instance byte_eq_decision : EqDecision byte := Byte.byte_eq_dec.

Abbreviation bytes := (list byte).

(** Big-endian value of a byte string. Python integers are unbounded and the
    values read here are unsigned, so they are natural numbers. *)
Definition be_uint (bs : bytes) : nat :=
  foldl (fun acc b => acc * 256 + Byte.to_nat b) 0 bs.

(** [data[off : off + n]] when the buffer holds [n] bytes at [off]; [struct]
    refuses the access otherwise. *)
Definition slice (data : bytes) (off n : nat) : option bytes :=
  if decide (off + n ≤ length data) then Some (take n (drop off data)) else None.

(** [struct.unpack_from('>II', data, off)] *)
Definition unpack_from_II (data : bytes) (off : nat) : result (nat * nat) :=
  match slice data off 8 with
  | Some bs => Ok (be_uint (take 4 bs), be_uint (drop 4 bs))
  | None => Raise struct_error
  end.

(** [struct.unpack_from('>H', data, off)] *)
Definition unpack_from_H (data : bytes) (off : nat) : result nat :=
  match slice data off 2 with
  | Some bs => Ok (be_uint bs)
  | None => Raise struct_error
  end.

(** [struct.pack_into('>H', data, off, v)]: [v] must fit 16 bits and the
    buffer must hold 2 bytes at [off]. *)
Definition pack_into_H (data : bytes) (off v : nat) : result bytes :=
  match Byte.of_nat (v / 256), Byte.of_nat (v mod 256) with
  | Some hi, Some lo =>
      if decide (off + 2 ≤ length data)
      then Ok (<[off + 1 := lo]> (<[off := hi]> data))
      else Raise struct_error
  | _, _ => Raise struct_error
  end.

(** [for x in xs: body], threading the loop's variables and stopping at the
    first exception. *)
Fixpoint for_each {A S : Type} (xs : list A) (body : A -> S -> result S)
    (s : S) : result S :=
  match xs with
  | [] => Ok s
  | x :: rest => s' ← body x s; for_each rest body s'
  end.

(** [range(n)] *)
Definition range (n : nat) : list nat := seq 0 n.

(** ** The record patcher *)

(** One turn of the loop of [fix_course_file]; the loop's variables are the
    bytearray and [num_fixes]. *)
Definition fix_zone (zones_off i : nat) (st : bytes * nat) : result (bytes * nat) :=
  let '(data, num_fixes) := st in
  let off := zones_off + i * 24 + 10 in
  terrain_lighting ← unpack_from_H data off;
  if decide (terrain_lighting ≠ 0) then
    let num_fixes := num_fixes + 1 in
    data ← pack_into_H data off 0;
    Ok (data, num_fixes)
  else Ok (data, num_fixes).

(** [fix_course_file(data)]. The copy [bytearray(data)] is invisible on
    values; see [Store.fix_course_file] for it. *)
Definition fix_course_file (data : bytes) : result (bytes * nat) :=
  '(zones_off, zones_size) ← unpack_from_II data 0x48;
  for_each (range (zones_size / 24)) (fix_zone zones_off) (data, 0).

(** ** What the header and the records of a slot are *)

(** The byte at position [p], as a number; 0 outside the buffer. *)
Definition byte_at (data : bytes) (p : nat) : nat :=
  from_option Byte.to_nat 0 (data !! p).

Definition be16_at (data : bytes) (p : nat) : nat :=
  byte_at data p * 256 + byte_at data (p + 1).

Definition be32_at (data : bytes) (p : nat) : nat :=
  ((byte_at data p * 256 + byte_at data (p + 1)) * 256
   + byte_at data (p + 2)) * 256 + byte_at data (p + 3).

Definition header_off (data : bytes) : nat := be32_at data 0x48.
Definition header_len (data : bytes) : nat := be32_at data 0x4C.
Definition record_count (data : bytes) : nat := header_len data / 24.

(** Position of the flag of record [i]. *)
Definition flag_pos (data : bytes) (i : nat) : nat := header_off data + i * 24 + 10.

(** The records of [data] whose flag is not zero, in ascending order. *)
Definition dirty_records (data : bytes) : list nat :=
  filter (fun i => be16_at data (flag_pos data i) ≠ 0) (seq 0 (record_count data)).

(** The 2-byte field at [p] set to zero. *)
Definition zero16 (d : bytes) (p : nat) : bytes :=
  <[p + 1 := x00]> (<[p := x00]> d).

(** The flags of the records [ixs] of [data] set to zero in [d], in the order
    of [ixs]. *)
Definition zero_flags (data : bytes) (ixs : list nat) (d : bytes) : bytes :=
  foldl (fun d i => zero16 d (flag_pos data i)) d ixs.

(** Every flag of the slot lies inside the buffer, header included. *)
Definition records_in_range (data : bytes) : Prop :=
  0x50 ≤ length data ∧
  ∀ i, i < record_count data → flag_pos data i + 2 ≤ length data.

#[global] Instance records_in_range_dec data : Decision (records_in_range data).
Proof.
  refine (cast_if (decide (0x50 ≤ length data ∧
            Forall (fun i => flag_pos data i + 2 ≤ length data)
                   (seq 0 (record_count data)))));
    unfold records_in_range; rewrite Forall_seq in *.
  - destruct a as [H1 H2]. split; [done|]. intros i Hi. apply H2. lia.
  - intros [H1 H2]. apply n. split; [done|]. intros i Hi. apply H2. lia.
Defined.

(** ** The object store: [bytearray(data)] copies

    On values the first line of [fix_course_file] does nothing. Here buffers
    are objects in a store and a name holds a reference, so that a write
    through one name is seen through every other name of the same object. *)
Module Store.

Abbreviation loc := positive.
Abbreviation store := (gmap positive (list byte)).

(** State passing over the store; the store survives an exception. *)
Definition St (A : Type) : Type := store → result A * store.

#[global] Instance St_ret : MRet St := fun A a h => (Ok a, h).
#[global] Instance St_bind : MBind St := fun A B f m h =>
  match m h with
  | (Ok a, h') => f a h'
  | (Raise e, h') => (Raise e, h')
  end.

(** Read-only access to the buffer behind a reference. *)
Definition with_buffer {A} (l : loc) (f : bytes → result A) : St A := fun h =>
  match h !! l with
  | Some bs => (f bs, h)
  | None => (Raise TypeError, h)
  end.

(** [bytearray(data)]: a new object with the contents of [data]. *)
Definition bytearray (data : loc) : St loc := fun h =>
  match h !! data with
  | Some bs => let l := fresh (dom h) in (Ok l, <[l := bs]> h)
  | None => (Raise TypeError, h)
  end.

Definition unpack_from_II (data : loc) (off : nat) : St (nat * nat) :=
  with_buffer data (fun bs => unpack_from_II bs off).

Definition unpack_from_H (data : loc) (off : nat) : St nat :=
  with_buffer data (fun bs => unpack_from_H bs off).

(** [struct.pack_into] writes into the object itself. *)
Definition pack_into_H (data : loc) (off v : nat) : St unit := fun h =>
  match h !! data with
  | Some bs =>
      match pack_into_H bs off v with
      | Ok bs' => (Ok tt, <[data := bs']> h)
      | Raise e => (Raise e, h)
      end
  | None => (Raise TypeError, h)
  end.

Fixpoint for_each {A S : Type} (xs : list A) (body : A → S → St S) (s : S) : St S :=
  match xs with
  | [] => mret s
  | x :: rest => s' ← body x s; for_each rest body s'
  end.

Definition fix_zone (data : loc) (zones_off i num_fixes : nat) : St nat :=
  let off := zones_off + i * 24 + 10 in
  terrain_lighting ← unpack_from_H data off;
  if decide (terrain_lighting ≠ 0) then
    let num_fixes := num_fixes + 1 in
    _ ← pack_into_H data off 0;
    mret num_fixes
  else mret num_fixes.

Definition fix_course_file (data : loc) : St (loc * nat) :=
  data ← bytearray data;
  '(zones_off, zones_size) ← unpack_from_II data 0x48;
  num_fixes ← for_each (range (zones_size / 24)) (fix_zone data zones_off) 0;
  mret (data, num_fixes).

End Store.

(** ** File names: pathlib's [suffix] and [suffixes]

    [PurePath.suffix] and [PurePath.suffixes] are written after CPython's
    pathlib (Python 3.11): [rfind], a strict test on the position of the last
    dot, [endswith], [lstrip] and [split].
    A path is the list of its components; [name] is the last one. Names are
    byte strings; [lower] maps the ASCII capitals only, which agrees with
    Python's [str.lower] wherever the result is compared with an ASCII
    string made of [.], [a], [r], [c], [l], [z]. *)

Abbreviation Path := (list string).

Definition name (fp : Path) : string := List.last fp EmptyString.

Definition is_dot (c : ascii) : bool := Ascii.eqb c "."%char.

(** [s.rfind('.')]; [None] for Python's -1. *)
Fixpoint rfind_dot (s : string) : option nat :=
  match s with
  | EmptyString => None
  | String c s' =>
      match rfind_dot s' with
      | Some i => Some (S i)
      | None => if is_dot c then Some 0 else None
      end
  end.

(** [s[i:]] *)
Fixpoint str_drop (i : nat) (s : string) : string :=
  match i, s with
  | S i', String _ s' => str_drop i' s'
  | _, _ => s
  end.

(** [s.split('.')] *)
Fixpoint split_dot (s : string) : list string :=
  match s with
  | EmptyString => [EmptyString]
  | String c s' =>
      if is_dot c then EmptyString :: split_dot s'
      else match split_dot s' with
           | h :: t => String c h :: t
           | [] => [String c EmptyString]
           end
  end.

(** [s.lstrip('.')] *)
Fixpoint lstrip_dot (s : string) : string :=
  match s with
  | String c s' => if is_dot c then lstrip_dot s' else s
  | EmptyString => s
  end.

(** [s.endswith('.')] *)
Fixpoint endswith_dot (s : string) : bool :=
  match s with
  | EmptyString => false
  | String c EmptyString => is_dot c
  | String _ s' => endswith_dot s'
  end.

Definition lower_ascii (c : ascii) : ascii :=
  let n := nat_of_ascii c in
  if (65 <=? n) && (n <=? 90) then ascii_of_nat (n + 32) else c.

(** [s.lower()] *)
Fixpoint lower (s : string) : string :=
  match s with
  | EmptyString => EmptyString
  | String c s' => String (lower_ascii c) (lower s')
  end.

(** [PurePath.suffix] *)
Definition suffix (fp : Path) : string :=
  let name := name fp in
  match rfind_dot name with
  | Some i => if decide (0 < i < String.length name - 1) then str_drop i name
              else EmptyString
  | None => EmptyString
  end.

(** [PurePath.suffixes] *)
Definition suffixes (fp : Path) : list string :=
  let name := name fp in
  if endswith_dot name then []
  else let name := lstrip_dot name in
       map (String "."%char) (tail (split_dot name)).

(** [l[-k]], for [1 <= k <= len(l)]; the callers check the length first. *)
Definition from_end (l : list string) (k : nat) : string :=
  default EmptyString (l !! (length l - k)).

(** [does_path_look_like_level(fp)] *)
Definition does_path_look_like_level (fp : Path) : bool :=
  if String.eqb (lower (suffix fp)) ".arc" then true
  else if (2 <=? length (suffixes fp))
          && String.eqb (lower (from_end (suffixes fp) 2)) ".arc"
          && String.eqb (lower (from_end (suffixes fp) 1)) ".lz" then true
  else false.

(** ** The world: a disk and a trace

    The disk maps a path to a file's contents, to the mark of a directory,
    or to the mark of an entry that is neither and cannot be opened (a
    dangling symlink, a socket): [is_file()] and [is_dir()] are both false
    on it, and opening or listing it raises. An entry whose opening blocks (a
    FIFO without a writer) is not modelled.
    The trace records, in order, what the program opens, reads, writes and
    prints. *)

Inductive entry : Type :=
  | File (content : bytes)
  | Dir
  | Other.

#[global] Instance entry_eq_dec : EqDecision entry.
Proof. solve_decision. Defined.

Inductive event : Type :=
  | EvRead4 (fp : Path)                   (* fp.open('rb'), then f.read(4) *)
  | EvReadBytes (fp : Path)               (* fp.read_bytes() *)
  | EvWriteBytes (fp : Path) (data : bytes) (* fp.write_bytes(data) *)
  | EvPrint (line : string)               (* print(line) *)
  | EvPrintExc (e : exn).                 (* traceback.print_exc() *)

Record world : Type := World {
  disk : gmap Path entry;
  trace : list event;
}.

(** State passing over the world; what was done before an exception stays
    done. *)
Definition IO (A : Type) : Type := world → result A * world.

#[global] Instance IO_ret : MRet IO := fun A a w => (Ok a, w).
#[global] Instance IO_bind : MBind IO := fun A B f m w =>
  match m w with
  | (Ok a, w') => f a w'
  | (Raise e, w') => (Raise e, w')
  end.

(** A pure step that may raise. *)
Definition lift {A} (r : result A) : IO A := fun w => (r, w).

Definition log (ev : event) : IO unit := fun w =>
  (Ok tt, World (disk w) (trace w ++ [ev])).

(** [with fp.open('rb') as f: f.read(4)]. The event is recorded when the open
    is attempted, whether it succeeds or raises: every call leaves it. *)
Definition open_read4 (fp : Path) : IO bytes := fun w =>
  let w' := World (disk w) (trace w ++ [EvRead4 fp]) in
  match disk w !! fp with
  | Some (File content) => (Ok (take 4 content), w')
  | Some Dir => (Raise IsADirectoryError, w')
  | Some Other => (Raise OSError, w')
  | None => (Raise FileNotFoundError, w')
  end.

(** [fp.read_bytes()] *)
Definition read_bytes (fp : Path) : IO bytes := fun w =>
  match disk w !! fp with
  | Some (File content) => (Ok content, World (disk w) (trace w ++ [EvReadBytes fp]))
  | Some Dir => (Raise IsADirectoryError, w)
  | Some Other => (Raise OSError, w)
  | None => (Raise FileNotFoundError, w)
  end.

(** [fp.write_bytes(data)]; the program only writes files it has read. *)
Definition write_bytes (fp : Path) (data : bytes) : IO unit := fun w =>
  match disk w !! fp with
  | Some Dir => (Raise IsADirectoryError, w)
  | Some Other => (Raise OSError, w)
  | _ => (Ok tt, World (<[fp := File data]> (disk w)) (trace w ++ [EvWriteBytes fp data]))
  end.

Definition print (line : string) : IO unit := log (EvPrint line).
Definition print_exc (e : exn) : IO unit := log (EvPrintExc e).

Definition is_file (fp : Path) : IO bool := fun w =>
  (Ok (match disk w !! fp with Some (File _) => true | _ => false end), w).

Definition is_dir (fp : Path) : IO bool := fun w =>
  (Ok (match disk w !! fp with Some Dir => true | _ => false end), w).

(** [p] is [fp / name] for some [name]. *)
Definition is_child (fp p : Path) : bool :=
  bool_decide (length p = S (length fp) ∧ take (length fp) p = fp).

Definition children (fp : Path) (d : gmap Path entry) : list Path :=
  List.filter (is_child fp) (elements (dom d)).

(** [fp.iterdir()], in no particular order. *)
Definition iterdir (fp : Path) : IO (list Path) := fun w =>
  match disk w !! fp with
  | Some Dir => (Ok (children fp (disk w)), w)
  | Some (File _) => (Raise NotADirectoryError, w)
  | Some Other => (Raise OSError, w)
  | None => (Raise FileNotFoundError, w)
  end.

(** The order of paths: component by component, each as a string. *)
Fixpoint path_leb (p q : Path) : bool :=
  match p, q with
  | [], _ => true
  | _ :: _, [] => false
  | a :: p', b :: q' =>
      match String.compare a b with
      | Lt => true
      | Gt => false
      | Eq => path_leb p' q'
      end
  end.

(** [sorted(paths)] *)
Definition sorted (paths : list Path) : list Path :=
  merge_sort (fun p q => Is_true (path_leb p q)) paths.

Fixpoint for_io {A : Type} (xs : list A) (body : A → IO unit) : IO unit :=
  match xs with
  | [] => mret tt
  | x :: rest => _ ← body x; for_io rest body
  end.

(** [try: body / except Exception: handler] *)
Definition try_except {A} (body : IO A) (handler : exn → IO A) : IO A := fun w =>
  match body w with
  | (Ok a, w') => (Ok a, w')
  | (Raise e, w') => handler e w'
  end.

(** ** The two codecs

    [lz77] and [nsmbpy2.u8] are not part of the program; they are taken as an
    interface. A decoded archive is a dict from names to files and folders,
    in the archive's order. Decoding can fail; encoding returns bytes. *)

#[local] Set Warnings "-register-all".
Inductive u8_node : Type :=
  | U8File (data : bytes)
  | U8Folder (entries : list (string * u8_node)).

Abbreviation u8_dict := (list (string * u8_node)).

Class Codecs : Type := {
  Decompress11LZS : bytes → result bytes;
  Compress11LZS : bytes → bytes;
  u8_load : bytes → result u8_dict;
  u8_save : u8_dict → bytes;
}.

(** [list(d.keys())] *)
Definition keys (d : u8_dict) : list string := d.*1.

(** [d[k]] *)
Fixpoint getitem (d : u8_dict) (k : string) : result u8_node :=
  match d with
  | [] => Raise KeyError
  | (k', v) :: rest => if decide (k' = k) then Ok v else getitem rest k
  end.

(** [d[k] = v]: in place for a key of the dict, at the end for a new one. *)
Fixpoint setitem (d : u8_dict) (k : string) (v : u8_node) : u8_dict :=
  match d with
  | [] => [(k, v)]
  | (k', v') :: rest =>
      if decide (k' = k) then (k, v) :: rest else (k', v') :: setitem rest k v
  end.

(** [bytearray(x)] for an entry of the archive: a copy of a file's bytes;
    for a folder, the bytes made of its keys, which are strings. *)
Definition bytearray_of (x : u8_node) : result bytes :=
  match x with
  | U8File data => Ok data
  | U8Folder [] => Ok []
  | U8Folder (_ :: _) => Raise TypeError
  end.

(** ** The file pipeline *)

(** The four branches on the first bytes of the file. *)
Inductive sniffed : Type :=
  | Uncompressed   (* is_compressed = False *)
  | LZ11           (* is_compressed = True *)
  | ProbablyLH     (* return *)
  | NotALevel.     (* return *)

(** The magic of an uncompressed archive: [b'U\xAA8-']. *)
Definition u8_magic : bytes := [x55; xaa; x38; x2d].

Definition sniff (first_4 : bytes) : result sniffed :=
  if decide (first_4 = u8_magic) then Ok Uncompressed
  else
    match first_4 with
    | [] => Raise IndexError
    | b0 :: _ =>
        if decide (Byte.to_N b0 = 0x11%N) then Ok LZ11
        else if decide (N.shiftr (Byte.to_N b0) 4 = 4%N) then Ok ProbablyLH
        else Ok NotALevel
    end.

(** [str(i)] *)
Definition str_of_nat (n : nat) : string := NilZero.string_of_uint (Nat.to_uint n).

(** [str(fp)] *)
Definition str_of_path (fp : Path) : string := String.concat "/" fp.

(** One turn of the loop over the areas; the loop's variables are the dict
    [course], [total_fixes] and [total_areas_fixed]. *)
Definition fix_area (i : nat) (st : u8_dict * nat * nat) : result (u8_dict * nat * nat) :=
  let '(course, total_fixes, total_areas_fixed) := st in
  let course_fn := ("course" +:+ str_of_nat i +:+ ".bin")%string in  (* f'course{i}.bin' *)
  if decide (course_fn ∈ keys course) then
    x ← getitem course course_fn;
    data ← bytearray_of x;
    '(new_course_data, num_fixes) ← fix_course_file data;
    if decide (0 < num_fixes) then
      Ok (setitem course course_fn (U8File new_course_data),
          total_fixes + num_fixes, total_areas_fixed + 1)
    else Ok (course, total_fixes, total_areas_fixed)
  else Ok (course, total_fixes, total_areas_fixed).

(** The loop [for i in range(1, 5)] of [scan_file] on [u8['course']]; a file
    named [course] is not a dict and [in] raises on it. *)
Definition fix_areas (course : u8_node) : result (u8_dict * nat * nat) :=
  match course with
  | U8File _ => Raise TypeError
  | U8Folder course => for_each (seq 1 4) fix_area (course, 0, 0)
  end.

(** The line printed for a file that was fixed. *)
Definition summary_line (total_fixes total_areas_fixed : nat) (fp : Path) : string :=
  ("Fixed " +:+ str_of_nat total_fixes +:+ " zone"
   +:+ (if decide (total_fixes ≠ 1) then "s" else "")
   +:+ " in " +:+ str_of_nat total_areas_fixed +:+ " area"
   +:+ (if decide (total_areas_fixed ≠ 1) then "s" else "")
   +:+ " in " +:+ str_of_path fp)%string.

(** [scan_file(fp)] down to the end of the loop over the areas: [None] where
    the function returns early, and otherwise [is_compressed], [u8] as the
    loop has left it, [total_fixes] and [total_areas_fixed]. *)
Definition scan_file_areas `{Codecs} (fp : Path) : IO (option (bool * u8_dict * nat * nat)) :=
  first_4 ← open_read4 fp;
  s ← lift (sniff first_4);
  match s with
  | ProbablyLH => mret None
  | NotALevel => mret None
  | _ =>
      let is_compressed := match s with LZ11 => true | _ => false end in
      data ← read_bytes fp;
      data ← lift (if is_compressed then Decompress11LZS data else Ok data);
      u8 ← lift (u8_load data);
      if decide (keys u8 ≠ ["course"%string]) then mret None
      else
        course ← lift (getitem u8 "course");
        '(course, total_fixes, total_areas_fixed) ← lift (fix_areas course);
        (* [course] is the dict inside [u8]: the loop has changed [u8] *)
        let u8 := setitem u8 "course" (U8Folder course) in
        mret (Some (is_compressed, u8, total_fixes, total_areas_fixed))
  end.

(** [scan_file(fp)]: the rest of the function, from [if total_fixes > 0]. *)
Definition scan_file `{Codecs} (fp : Path) : IO unit :=
  r ← scan_file_areas fp;
  match r with
  | None => mret tt
  | Some (is_compressed, u8, total_fixes, total_areas_fixed) =>
      if decide (0 < total_fixes) then
        _ ← print (summary_line total_fixes total_areas_fixed fp);
        let data := u8_save u8 in
        let data := if is_compressed : bool then Compress11LZS data else data in
        write_bytes fp data
      else mret tt
  end.

Definition dq : string := String "034"%char EmptyString.

(** [f'ERROR while checking "{fp}":'] *)
Definition error_line (fp : Path) : string :=
  ("ERROR while checking " +:+ dq +:+ str_of_path fp +:+ dq +:+ ":")%string.

(** [scan_file_safe(fp)] *)
Definition scan_file_safe `{Codecs} (fp : Path) : IO unit :=
  try_except (scan_file fp) (fun e =>
    _ ← print (error_line fp);
    print_exc e).

(** [scan_folder(fp, recursive=...)]. [depth] is the number of nested calls
    the interpreter still allows; Python raises [RecursionError] beyond. *)
Fixpoint scan_folder `{Codecs} (depth : nat) (fp : Path) (recursive : bool) : IO unit :=
  match depth with
  | 0 => lift (Raise RecursionError)
  | S depth =>
      cs ← iterdir fp;
      _ ← for_io (sorted cs) (fun child =>
             d ← is_dir child;
             if d : bool then mret tt
             else if does_path_look_like_level child then scan_file_safe child
             else mret tt);
      if recursive then
        cs ← iterdir fp;
        for_io (sorted cs) (fun child =>
          f ← is_file child;
          if f : bool then mret tt
          else scan_folder depth child true)
      else mret tt
  end.

Definition banner : string :=
"Terrain Lighting Eliminator, copyright (C) 2022 RoadrunnerWMC
This program comes with ABSOLUTELY NO WARRANTY; for details, see the
included `LICENSE` file.
This is free software, and you are welcome to redistribute it
under certain conditions; see the included `LICENSE` file for details.
You should have received a copy of the GNU General Public License (the
`LICENSE` file) along with this program.  If not, see
<https://www.gnu.org/licenses/>.
".

(** [main], after [argparse] has produced [args.path] and [args.recursive]. *)
Definition main `{Codecs} (depth : nat) (path : Path) (recursive : bool) : IO unit :=
  _ ← print banner;
  f ← is_file path;
  if f : bool then scan_file path
  else
    d ← is_dir path;
    if d : bool then scan_folder depth path recursive
    else print ("Error: " +:+ dq +:+ str_of_path path +:+ dq +:+ " does not exist.")%string.

(** ** What a file holds, for the statements about the pipeline *)

(** The container in the contents of a file, with [is_compressed]; [None]
    where the first bytes make [scan_file] return. *)
Definition container_of `{Codecs} (content : bytes) : result (option (bool * u8_dict)) :=
  s ← sniff (take 4 content);
  match s with
  | ProbablyLH | NotALevel => Ok None
  | Uncompressed => u8 ← u8_load content; Ok (Some (false, u8))
  | LZ11 => data ← Decompress11LZS content; u8 ← u8_load data; Ok (Some (true, u8))
  end.

(** What the loop over the areas makes of a container. *)
Definition areas_of_container (is_compressed : bool) (u8 : u8_dict)
    : result (option (bool * u8_dict * nat * nat)) :=
  if decide (keys u8 ≠ ["course"%string]) then Ok None
  else
    course ← getitem u8 "course";
    '(course, total_fixes, total_areas_fixed) ← fix_areas course;
    Ok (Some (is_compressed, setitem u8 "course" (U8Folder course),
              total_fixes, total_areas_fixed)).

Definition areas_of_content `{Codecs} (content : bytes)
    : result (option (bool * u8_dict * nat * nat)) :=
  r ← container_of content;
  match r with
  | None => Ok None
  | Some (is_compressed, u8) => areas_of_container is_compressed u8
  end.

(** The bytes written for a container that was fixed. *)
Definition encode `{Codecs} (is_compressed : bool) (u8 : u8_dict) : bytes :=
  if is_compressed then Compress11LZS (u8_save u8) else u8_save u8.

(** The events of a run from [w] to [w']. *)
Definition new_events (w w' : world) : list event :=
  drop (length (trace w)) (trace w').

Definition is_write (ev : event) : bool :=
  match ev with EvWriteBytes _ _ => true | _ => false end.

(** Nothing was written between [w] and [w']. *)
Definition no_write (w w' : world) : Prop :=
  disk w' = disk w ∧ List.filter is_write (new_events w w') = [].

(** The only write between [w] and [w'] put [data] in [fp]. *)
Definition wrote (fp : Path) (data : bytes) (w w' : world) : Prop :=
  disk w' = <[fp := File data]> (disk w)
  ∧ List.filter is_write (new_events w w') = [EvWriteBytes fp data].

(** [scan_file] on [fp] reaches the end of the loop over the areas with a
    positive [total_fixes]. *)
Definition fixes_found `{Codecs} (fp : Path) (w : world) : Prop :=
  ∃ c u8 tf taf w1,
    scan_file_areas fp w = (Ok (Some (c, u8, tf, taf)), w1) ∧ 0 < tf.

(** The name of the slot of area [i]. *)
Definition slot_name (i : nat) : string := ("course" +:+ str_of_nat i +:+ ".bin")%string.

(** The bytes of the slot of area [i], when the slot is present and a file. *)
Definition slot_bytes (course : u8_dict) (i : nat) : option bytes :=
  match getitem course (slot_name i) with
  | Ok (U8File data) => Some data
  | _ => None
  end.

(** The number of records of area [i] whose flag is not zero; 0 for an
    absent slot. *)
Definition slot_fixes (course : u8_dict) (i : nat) : nat :=
  from_option (fun data => length (dirty_records data)) 0 (slot_bytes course i).

(** Every slot of the dict that is present is a file whose records lie in
    its buffer. *)
Definition slots_in_range (course : u8_dict) : Prop :=
  ∀ i, i ∈ seq 1 4 → slot_name i ∈ keys course →
       ∃ data, getitem course (slot_name i) = Ok (U8File data) ∧ records_in_range data.

#[global] Instance from_option_dec {A} (P : A → Prop) `{∀ x, Decision (P x)}
    (Q : Prop) `{Decision Q} (o : option A) : Decision (from_option P Q o).
Proof. destruct o; apply _. Defined.

#[global] Instance slots_in_range_dec course : Decision (slots_in_range course).
Proof.
  refine (cast_if (decide (Forall (fun i =>
            slot_name i ∈ keys course →
            from_option records_in_range False (slot_bytes course i)) (seq 1 4))));
    unfold slots_in_range, slot_bytes; rewrite Forall_forall in *.
  - intros i Hi Hk. specialize (f i Hi Hk). unfold slot_bytes in f.
    destruct (getitem course (slot_name i)) as [[data|]|];
      cbn [from_option] in f; [|done|done].
    by exists data.
  - intros Hs. apply n. intros i Hi Hk.
    unfold slot_bytes. destruct (Hs i Hi Hk) as (data & -> & Hr). done.
Defined.

(** The slot of area [i] after the patch. *)
Definition slot_patched (course : u8_dict) (i : nat) : bytes :=
  from_option (fun data => zero_flags data (dirty_records data) data) []
              (slot_bytes course i).

(** The dict [c] with the slot of area [i] replaced when the area of [course]
    has a record to fix. *)
Definition patch_slot (course c : u8_dict) (i : nat) : u8_dict :=
  if decide (0 < slot_fixes course i)
  then setitem c (slot_name i) (U8File (slot_patched course i))
  else c.

(** What the patcher makes of the slot of area [i], when it is present. *)
Definition slot_result (course : u8_dict) (i : nat) : result (bytes * nat) :=
  x ← getitem course (slot_name i); data ← bytearray_of x; fix_course_file data.

(** The first patch leaves the offset in the header of every slot of the
    course as it was. *)
Definition offsets_kept (course : u8_dict) : Prop :=
  ∀ i data, i ∈ seq 1 4 → slot_bytes course i = Some data →
    header_off (slot_patched course i) = header_off data.

(** The course after the loop over the areas. *)
Definition patched_course (course : u8_dict) : u8_dict :=
  foldl (patch_slot course) course (seq 1 4).

(** The paths that [scan_file] was called on, in order: each call starts by
    opening the path, and the attempt is recorded whatever the path holds. *)
Definition scanned (t : list event) : list Path :=
  omap (fun ev => match ev with EvRead4 fp => Some fp | _ => None end) t.

Definition is_file_in (d : gmap Path entry) (fp : Path) : bool :=
  match d !! fp with Some (File _) => true | _ => false end.

Definition is_dir_in (d : gmap Path entry) (fp : Path) : bool :=
  match d !! fp with Some Dir => true | _ => false end.

(** What the disk holds where, the contents of the files apart. *)
Definition shape (d : gmap Path entry) : gmap Path entry :=
  (fun e => match e with File _ => File [] | Dir => Dir | Other => Other end) <$> d.

(** The paths that a walk which runs to its end calls [scan_file] on: the
    children of [fp] that are not directories and look like levels, in
    order, and then, for a recursive walk, those of each child that is a
    directory, in order. *)
Fixpoint level_files (depth : nat) (d : gmap Path entry) (fp : Path)
    (recursive : bool) : list Path :=
  match depth with
  | 0 => []
  | S depth =>
      List.filter (fun c => negb (is_dir_in d c) && does_path_look_like_level c)
                  (sorted (children fp d))
      ++ (if recursive
          then flat_map (fun c => if is_dir_in d c
                                  then level_files depth d c true
                                  else [])
                        (sorted (children fp d))
          else [])
  end.

(** The paths that were written, in order. *)
Definition writes_of (t : list event) : list Path :=
  omap (fun ev => match ev with EvWriteBytes fp _ => Some fp | _ => None end) t.

(** Below [fp] the disk holds files and directories only, and the
    directories are nested less than [depth] deep. *)
Definition plain_tree (depth : nat) (d : gmap Path entry) (fp : Path) : Prop :=
  ∀ rest, (d !! (fp ++ rest) = Some Dir → length rest < depth)
          ∧ d !! (fp ++ rest) ≠ Some Other.

(** What every part of a walk does, on a disk with the shape of [d0]: it
    keeps the shape, calls [scan_file] on a prefix of [plan], on all of it
    when it returns, and it returns when [ok] holds; it changes the disk only
    where it writes, and it writes only to files that it has scanned. *)
Definition walk_run (d0 : gmap Path entry) (plan : list Path) (ok : Prop)
    (m : IO unit) : Prop :=
  ∀ w, shape (disk w) = shape d0 →
    ∃ r w' t,
      m w = (r, w')
      ∧ shape (disk w') = shape d0
      ∧ trace w' = trace w ++ t
      ∧ scanned t `prefix_of` plan
      ∧ (r = Ok tt → scanned t = plan)
      ∧ (ok → r = Ok tt)
      ∧ (∀ p, p ∉ writes_of t → disk w' !! p = disk w !! p)
      ∧ (∀ p, p ∈ writes_of t → p ∈ scanned t ∧ is_file_in d0 p = true).

(** [p] is an entry below [fp] that is not a directory, reached from [fp]
    through directories only; a direct child of [fp] when the walk is not
    recursive. *)
Definition walk_reaches (d : gmap Path entry) (fp : Path) (recursive : bool)
    (p : Path) : Prop :=
  ∃ rest,
    p = fp ++ rest ∧ rest ≠ []
    ∧ (recursive = false → length rest = 1)
    ∧ is_Some (d !! p) ∧ d !! p ≠ Some Dir
    ∧ ∀ k, 0 < k < length rest → d !! (fp ++ take k rest) = Some Dir.

(** ** Concrete slots *)

(** A buffer of [n] zero bytes with the header [(off, len)], both below 256. *)
Definition blank_slot (n : nat) (off len : byte) : bytes :=
  <[0x4F := len]> (<[0x4B := off]> (replicate n x00)).

(** Two records right after the header; the flag of record 0 is [00 01]. *)
Definition slot_two : bytes := <[0x50 + 11 := x01]> (blank_slot (0x50 + 48) x50 x30).

(** Two records in an array of 50 bytes, which is not a multiple of 24; the
    flag of record 1 is [01 00]. *)
Definition slot_ragged : bytes := <[0x50 + 24 + 10 := x01]> (blank_slot (0x50 + 50) x50 x32).

(** A header alone, declaring an array of 25 bytes, so one record, after the
    end of the buffer. *)
Definition slot_outside : bytes := blank_slot 0x50 x50 x19.

(** One record whose flag is the low half of the header's offset field
    (0x40 + 10 = 0x4A), and a nonzero field at position 10. *)
Definition slot_overlap : bytes := <[11 := x01]> (blank_slot 0x50 x40 x18).

(** Two records, the flag of the first being the low half of the header's
    length field (0x44 + 10 = 0x4E), which holds 0x30. *)
Definition slot_len_overlap : bytes := blank_slot (0x44 + 48) x44 x30.

(** A course with areas 1 and 3: area 1 has one record to fix, area 3 has
    none; areas 2 and 4 are absent. *)
Definition course_1_3 : u8_dict :=
  [("course1.bin"%string, U8File slot_two);
   ("course3.bin"%string, U8File (blank_slot (0x50 + 48) x50 x30))].

(** ** A concrete world *)

(** Codecs for the examples: compression puts the marker 0x11 in front, and
    an archive is the magic followed by the bytes of [course/course1.bin]. *)
Definition toy_codecs : Codecs := {|
  Decompress11LZS := fun data => Ok (drop 1 data);
  Compress11LZS := fun data => x11 :: data;
  u8_load := fun data =>
    Ok [("course"%string, U8Folder [("course1.bin"%string, U8File (drop 4 data))])];
  u8_save := fun u8 =>
    u8_magic ++ match getitem u8 "course" with
                | Ok (U8Folder course) =>
                    match getitem course "course1.bin" with
                    | Ok (U8File data) => data
                    | _ => []
                    end
                | _ => []
                end;
|}.

(** The directory of the scenario: [a.arc], [b.ARC.LZ], [c.txt] and the
    subdirectory [sub] with [d.arc], whatever the files hold. *)
Definition scenario_disk (ca cb cc cd : bytes) : gmap Path entry :=
  list_to_map
    [(["dir"], Dir);
     (["dir"; "a.arc"], File ca);
     (["dir"; "b.ARC.LZ"], File cb);
     (["dir"; "c.txt"], File cc);
     (["dir"; "sub"], Dir);
     (["dir"; "sub"; "d.arc"], File cd)]%string.

(** A directory with an empty file, on which [scan_file] raises, before a
    level with one record to fix. *)
Definition broken_disk : gmap Path entry :=
  list_to_map
    [(["dir"], Dir);
     (["dir"; "a.arc"], File []);
     (["dir"; "b.arc"], File (u8_magic ++ slot_two))]%string.

(** Two records declared, the first one dirty and inside the buffer, the
    second one outside: the patch raises after it has zeroed a flag. *)
Definition slot_half : bytes :=
  <[0x50 + 11 := x01]> (blank_slot (0x50 + 24) x50 x30).

(** A course without any of the four slots. *)
Definition course_no_slot : u8_dict :=
  [("readme.txt"%string, U8File [x41]); ("course5.bin"%string, U8File slot_two)].

(** Codecs whose decoders refuse what they do not recognise: decompression
    needs a byte after the marker, decoding needs the magic. *)
Definition strict_codecs : Codecs := {|
  Decompress11LZS := fun data =>
    if decide (length data < 2) then Raise CodecError else Ok (drop 1 data);
  Compress11LZS := fun data => x11 :: data;
  u8_load := fun data =>
    if decide (take 4 data = u8_magic)
    then Ok [("course"%string, U8Folder [("course1.bin"%string, U8File (drop 4 data))])]
    else Raise CodecError;
  u8_save := @u8_save toy_codecs;
|}.

(** A file that has the compression marker and nothing else. *)
Definition marker_disk : gmap Path entry :=
  list_to_map [(["dir"], Dir); (["dir"; "m.arc.lz"], File [x11])]%string.

(** The directory of [broken_disk] with two entries that are neither files
    nor directories: [ghost.arc], which looks like a level, and [loose]. *)
Definition odd_disk : gmap Path entry :=
  list_to_map
    [(["dir"], Dir);
     (["dir"; "a.arc"], File []);
     (["dir"; "b.arc"], File (u8_magic ++ slot_two));
     (["dir"; "ghost.arc"], Other);
     (["dir"; "loose"], Other)]%string.

(** A directory whose name looks like a level, with a level inside. *)
Definition named_disk : gmap Path entry :=
  list_to_map
    [(["dir"], Dir);
     (["dir"; "pack.arc"], Dir);
     (["dir"; "pack.arc"; "x.arc"], File [x41])]%string.

(** * Properties *)

(** ** [struct] on a buffer *)

Lemma slice_Some data off n :
  off + n ≤ length data → slice data off n = Some (take n (drop off data)).
Proof. intros H. unfold slice. by rewrite decide_True. Qed.

Lemma slice_None data off n :
  length data < off + n → slice data off n = None.
Proof. intros H. unfold slice. rewrite decide_False; [done | lia]. Qed.

Lemma byte_at_lookup data p b : data !! p = Some b → byte_at data p = Byte.to_nat b.
Proof. intros H. unfold byte_at. by rewrite H. Qed.

Lemma unpack_from_H_in data off :
  off + 2 ≤ length data → unpack_from_H data off = Ok (be16_at data off).
Proof.
  intros H. unfold unpack_from_H. rewrite slice_Some by done.
  destruct (lookup_lt_is_Some_2 data off) as [b0 H0]; [lia|].
  destruct (lookup_lt_is_Some_2 data (off + 1)) as [b1 H1]; [lia|].
  unfold be16_at. rewrite (byte_at_lookup _ _ _ H0), (byte_at_lookup _ _ _ H1).
  rewrite (drop_S _ _ _ H0). replace (S off) with (off + 1) by lia.
  rewrite (drop_S _ _ _ H1). reflexivity.
Qed.

Lemma unpack_from_H_out data off :
  length data < off + 2 → unpack_from_H data off = Raise struct_error.
Proof. intros H. unfold unpack_from_H. by rewrite slice_None. Qed.

Lemma unpack_from_II_in data off :
  off + 8 ≤ length data →
  unpack_from_II data off = Ok (be32_at data off, be32_at data (off + 4)).
Proof.
  intros H. unfold unpack_from_II. rewrite slice_Some by done.
  assert (Hk : ∀ k, k < 8 → ∃ b, data !! (off + k) = Some b
                                 ∧ byte_at data (off + k) = Byte.to_nat b).
  { intros k Hk. destruct (lookup_lt_is_Some_2 data (off + k)) as [b Hb]; [lia|].
    exists b. split; [done | by apply byte_at_lookup]. }
  destruct (Hk 0) as (b0 & H0 & E0); [lia|].
  destruct (Hk 1) as (b1 & H1 & E1); [lia|].
  destruct (Hk 2) as (b2 & H2 & E2); [lia|].
  destruct (Hk 3) as (b3 & H3 & E3); [lia|].
  destruct (Hk 4) as (b4 & H4 & E4); [lia|].
  destruct (Hk 5) as (b5 & H5 & E5); [lia|].
  destruct (Hk 6) as (b6 & H6 & E6); [lia|].
  destruct (Hk 7) as (b7 & H7 & E7); [lia|].
  unfold be32_at.
  replace (off + 4 + 1) with (off + 5) by lia.
  replace (off + 4 + 2) with (off + 6) by lia.
  replace (off + 4 + 3) with (off + 7) by lia.
  rewrite Nat.add_0_r in H0, E0.
  rewrite E0, E1, E2, E3, E4, E5, E6, E7.
  rewrite (drop_S _ _ _ H0). replace (S off) with (off + 1) by lia.
  rewrite (drop_S _ _ _ H1). replace (S (off + 1)) with (off + 2) by lia.
  rewrite (drop_S _ _ _ H2). replace (S (off + 2)) with (off + 3) by lia.
  rewrite (drop_S _ _ _ H3). replace (S (off + 3)) with (off + 4) by lia.
  rewrite (drop_S _ _ _ H4). replace (S (off + 4)) with (off + 5) by lia.
  rewrite (drop_S _ _ _ H5). replace (S (off + 5)) with (off + 6) by lia.
  rewrite (drop_S _ _ _ H6). replace (S (off + 6)) with (off + 7) by lia.
  rewrite (drop_S _ _ _ H7). reflexivity.
Qed.

Lemma unpack_from_II_out data off :
  length data < off + 8 → unpack_from_II data off = Raise struct_error.
Proof. intros H. unfold unpack_from_II. by rewrite slice_None. Qed.

Lemma pack_into_H_zero_in data off :
  off + 2 ≤ length data → pack_into_H data off 0 = Ok (zero16 data off).
Proof. intros H. unfold pack_into_H. simpl. by rewrite decide_True. Qed.

Lemma length_zero16 d p : length (zero16 d p) = length d.
Proof. unfold zero16. by rewrite !length_insert. Qed.

Lemma lookup_zero16_ne d p q : q ≠ p → q ≠ p + 1 → zero16 d p !! q = d !! q.
Proof.
  intros H1 H2. unfold zero16.
  rewrite list_lookup_insert_ne by lia. by rewrite list_lookup_insert_ne by lia.
Qed.

Lemma lookup_zero16_eq d p q :
  p + 2 ≤ length d → q = p ∨ q = p + 1 → zero16 d p !! q = Some x00.
Proof.
  intros H [-> | ->]; unfold zero16.
  - rewrite list_lookup_insert_ne by lia. apply list_lookup_insert_eq. lia.
  - apply list_lookup_insert_eq. rewrite length_insert. lia.
Qed.

Lemma byte_at_zero16_ne d p q : q ≠ p → q ≠ p + 1 → byte_at (zero16 d p) q = byte_at d q.
Proof. intros H1 H2. unfold byte_at. by rewrite lookup_zero16_ne. Qed.

Lemma be16_at_zero16_ne d p q :
  q + 1 < p ∨ p + 1 < q → be16_at (zero16 d p) q = be16_at d q.
Proof. intros H. unfold be16_at. rewrite !byte_at_zero16_ne by lia. done. Qed.

Lemma be16_at_zero16_eq d p : p + 2 ≤ length d → be16_at (zero16 d p) p = 0.
Proof.
  intros H. unfold be16_at, byte_at.
  rewrite !(lookup_zero16_eq d p) by (done || lia || auto). done.
Qed.

(** ** The loop of [fix_course_file] *)

Lemma flag_pos_eq data i : header_off data + i * 24 + 10 = flag_pos data i.
Proof. reflexivity. Qed.

Lemma length_zero_flags data ixs d : length (zero_flags data ixs d) = length d.
Proof.
  revert d. induction ixs as [|i ixs IH]; intros d; [done|].
  unfold zero_flags in *. simpl. by rewrite IH, length_zero16.
Qed.

Lemma for_each_cons {A S} (x : A) xs (body : A → S → result S) s :
  for_each (x :: xs) body s = body x s ≫= for_each xs body.
Proof. reflexivity. Qed.

Lemma fix_zone_in data i d k :
  flag_pos data i + 2 ≤ length d →
  fix_zone (header_off data) i (d, k) =
  Ok (if decide (be16_at d (flag_pos data i) ≠ 0)
      then (zero16 d (flag_pos data i), k + 1) else (d, k)).
Proof.
  intros H. unfold fix_zone. rewrite flag_pos_eq.
  rewrite unpack_from_H_in by done. simpl.
  destruct (decide (be16_at d (flag_pos data i) ≠ 0)); [|done].
  by rewrite pack_into_H_zero_in.
Qed.

Lemma fix_zone_out data i d k :
  length d < flag_pos data i + 2 →
  fix_zone (header_off data) i (d, k) = Raise struct_error.
Proof.
  intros H. unfold fix_zone. rewrite flag_pos_eq.
  by rewrite unpack_from_H_out.
Qed.

(** With every flag of the remaining records inside the buffer, the loop
    runs to its end: it zeroes the dirty records and counts them. The flags
    are 24 bytes apart, so a flag that is still to be read is as it was in
    the input. *)
Lemma fix_zones_in_range data n : ∀ start d k,
  length d = length data →
  (∀ i, start ≤ i < start + n → flag_pos data i + 2 ≤ length data) →
  (∀ i, start ≤ i →
     be16_at d (flag_pos data i) = be16_at data (flag_pos data i)) →
  for_each (seq start n) (fix_zone (header_off data)) (d, k) =
  Ok (zero_flags data
        (filter (fun i => be16_at data (flag_pos data i) ≠ 0) (seq start n)) d,
      k + length (filter (fun i => be16_at data (flag_pos data i) ≠ 0)
                    (seq start n))).
Proof.
  induction n as [|n IH]; intros start d k Hlen Hin Hsame.
  - simpl. by rewrite Nat.add_0_r.
  - simpl seq. rewrite for_each_cons.
    assert (Hs : flag_pos data start + 2 ≤ length data) by (apply Hin; lia).
    rewrite fix_zone_in by lia. rewrite Hsame by lia. rewrite filter_cons.
    destruct (decide (be16_at data (flag_pos data start) ≠ 0)) as [Hd|Hd].
    + cbn [mbind result_bind]. rewrite IH.
      * simpl. f_equal. f_equal. lia.
      * by rewrite length_zero16.
      * intros i Hi. apply Hin. lia.
      * intros i Hi. rewrite be16_at_zero16_ne; [apply Hsame; lia|].
        unfold flag_pos. lia.
    + cbn [mbind result_bind]. rewrite IH; [done | done | | ].
      * intros i Hi. apply Hin. lia.
      * intros i Hi. apply Hsame. lia.
Qed.

(** A flag outside the buffer stops the loop with [struct.error], whatever
    the records before it hold. *)
Lemma fix_zones_out_of_range data n : ∀ start d k,
  length d = length data →
  (∃ i, start ≤ i < start + n ∧ length data < flag_pos data i + 2) →
  for_each (seq start n) (fix_zone (header_off data)) (d, k) = Raise struct_error.
Proof.
  induction n as [|n IH]; intros start d k Hlen (i & Hi & Hout); [lia|].
  simpl seq. rewrite for_each_cons.
  destruct (decide (flag_pos data start + 2 ≤ length data)) as [Hs|Hs].
  - assert (S start ≤ i).
    { destruct (decide (i = start)) as [->|]; lia. }
    rewrite fix_zone_in by lia.
    destruct (decide (be16_at d (flag_pos data start) ≠ 0)); cbn [mbind result_bind].
    + apply IH; [by rewrite length_zero16 | exists i; split; [lia | done]].
    + apply IH; [done | exists i; split; [lia | done]].
  - rewrite fix_zone_out by lia. done.
Qed.

Lemma fix_course_file_in_range data :
  records_in_range data →
  fix_course_file data =
  Ok (zero_flags data (dirty_records data) data, length (dirty_records data)).
Proof.
  intros [Hhdr Hin]. unfold fix_course_file.
  rewrite unpack_from_II_in by (simpl; lia). cbn [mbind result_bind].
  change (be32_at data 72) with (header_off data).
  change (be32_at data (72 + 4)) with (header_len data).
  change (header_len data / 24) with (record_count data).
  unfold range. rewrite (fix_zones_in_range data _ 0 data 0); [done | done | | done].
  intros i Hi. apply Hin. lia.
Qed.

Lemma fix_course_file_out_of_range data :
  ¬ records_in_range data → fix_course_file data = Raise struct_error.
Proof.
  intros Hnot. unfold fix_course_file.
  destruct (decide (0x50 ≤ length data)) as [Hhdr|Hhdr].
  - rewrite unpack_from_II_in by (simpl; lia). cbn [mbind result_bind].
    change (be32_at data 72) with (header_off data).
    change (be32_at data (72 + 4)) with (header_len data).
    change (header_len data / 24) with (record_count data).
    apply fix_zones_out_of_range; [done|].
    destruct (decide (Forall (fun i => flag_pos data i + 2 ≤ length data)
                             (seq 0 (record_count data)))) as [Hall|Hex].
    + exfalso. apply Hnot. split; [done|]. intros i Hi.
      rewrite Forall_forall in Hall. apply Hall. apply elem_of_seq. lia.
    + apply not_Forall_Exists in Hex; [|intros i; apply _].
      apply Exists_exists in Hex as (i & Hi & Hout).
      apply elem_of_seq in Hi. simpl in Hout. exists i. split; lia.
  - rewrite unpack_from_II_out by (simpl; lia). done.
Qed.

(** ** What [zero_flags] leaves and what it clears *)

Lemma zero_flags_cons data i ixs d :
  zero_flags data (i :: ixs) d = zero_flags data ixs (zero16 d (flag_pos data i)).
Proof. reflexivity. Qed.

Lemma lookup_zero_flags_ne data ixs : ∀ d p,
  (∀ i, i ∈ ixs → p ≠ flag_pos data i ∧ p ≠ flag_pos data i + 1) →
  zero_flags data ixs d !! p = d !! p.
Proof.
  induction ixs as [|j ixs IH]; intros d p Hp; [done|].
  rewrite zero_flags_cons, IH.
  - destruct (Hp j) as [H1 H2]; [left|]. by apply lookup_zero16_ne.
  - intros i Hi. apply Hp. by right.
Qed.

(** The flags of two different records do not overlap. *)
Lemma flag_pos_apart data i j :
  i ≠ j → flag_pos data i + 1 < flag_pos data j ∨ flag_pos data j + 1 < flag_pos data i.
Proof. intros H. unfold flag_pos. lia. Qed.

Lemma be16_at_zero_flags_notin data ixs d i :
  i ∉ ixs → be16_at (zero_flags data ixs d) (flag_pos data i) = be16_at d (flag_pos data i).
Proof.
  intros Hi. unfold be16_at, byte_at.
  rewrite !lookup_zero_flags_ne; [done | |];
    intros j Hj; assert (i ≠ j) by (intros ->; done);
    destruct (flag_pos_apart data i j); lia.
Qed.

Lemma be16_at_zero_flags_in data ixs : ∀ d i,
  i ∈ ixs → flag_pos data i + 2 ≤ length d →
  be16_at (zero_flags data ixs d) (flag_pos data i) = 0.
Proof.
  induction ixs as [|j ixs IH]; intros d i Hi Hr; [by apply elem_of_nil in Hi|].
  rewrite zero_flags_cons.
  destruct (decide (i ∈ ixs)) as [Hin|Hnotin].
  - apply IH; [done | by rewrite length_zero16].
  - apply elem_of_cons in Hi as [-> | Hi]; [|done].
    rewrite be16_at_zero_flags_notin by done. by apply be16_at_zero16_eq.
Qed.

Lemma elem_of_dirty_records data i :
  i ∈ dirty_records data ↔ i < record_count data ∧ be16_at data (flag_pos data i) ≠ 0.
Proof.
  unfold dirty_records. rewrite list_elem_of_filter, elem_of_seq.
  split; intros [H1 H2]; (split; [done || lia | done || lia]).
Qed.

Lemma lookup_zero_flags_in data ixs : ∀ d i p,
  i ∈ ixs → flag_pos data i + 2 ≤ length d →
  p = flag_pos data i ∨ p = flag_pos data i + 1 →
  zero_flags data ixs d !! p = Some x00.
Proof.
  induction ixs as [|j ixs IH]; intros d i p Hi Hr Hp; [by apply elem_of_nil in Hi|].
  rewrite zero_flags_cons.
  destruct (decide (i ∈ ixs)) as [Hin|Hnotin].
  - apply (IH _ i); [done | by rewrite length_zero16 | done].
  - apply elem_of_cons in Hi as [->|Hi]; [|done].
    rewrite lookup_zero_flags_ne.
    + by apply lookup_zero16_eq.
    + intros k Hk. assert (j ≠ k) by (intros ->; done).
      destruct (flag_pos_apart data j k); [done|lia|lia].
Qed.

(** A patch that succeeds was given a slot whose records are in range. *)
Lemma fix_course_file_Ok_in_range data out n :
  fix_course_file data = Ok (out, n) → records_in_range data.
Proof.
  intros H. destruct (decide (records_in_range data)) as [|Hn]; [done|].
  by rewrite fix_course_file_out_of_range in H.
Qed.

Lemma fix_course_file_Ok_inv data out n :
  fix_course_file data = Ok (out, n) →
  records_in_range data
  ∧ out = zero_flags data (dirty_records data) data
  ∧ n = length (dirty_records data).
Proof.
  intros H. pose proof (fix_course_file_Ok_in_range _ _ _ H) as Hr.
  rewrite fix_course_file_in_range in H by done. by simplify_eq.
Qed.

(** After a patch every flag is zero, the length is kept, and a byte outside
    the flags of the dirty records is as it was. *)
Lemma fix_course_file_Ok_effect data out n :
  fix_course_file data = Ok (out, n) →
  length out = length data
  ∧ (∀ i, i < record_count data → be16_at out (flag_pos data i) = 0)
  ∧ (∀ p, (∀ i, i < record_count data → be16_at data (flag_pos data i) ≠ 0 →
              p ≠ flag_pos data i ∧ p ≠ flag_pos data i + 1) →
          out !! p = data !! p).
Proof.
  intros H. apply fix_course_file_Ok_inv in H as ([Hhdr Hin] & -> & ->).
  split; [apply length_zero_flags|]. split.
  - intros i Hi. destruct (decide (i ∈ dirty_records data)) as [Hd|Hd].
    + apply be16_at_zero_flags_in; [done | by apply Hin].
    + rewrite be16_at_zero_flags_notin by done.
      rewrite elem_of_dirty_records in Hd.
      destruct (decide (be16_at data (flag_pos data i) = 0)); [done | naive_solver].
  - intros p Hp. apply lookup_zero_flags_ne. intros i Hi.
    apply elem_of_dirty_records in Hi as [Hi1 Hi2]. by apply Hp.
Qed.

(** ** The patcher over the store *)

(** One turn of the loop on the object [l] does to its buffer what the turn
    on values does, and touches no other object. *)
Lemma Store_fix_zone_spec (h : gmap positive bytes) l zones_off i d k :
  Store.fix_zone l zones_off i k (<[l := d]> h) =
  match fix_zone zones_off i (d, k) with
  | Ok (d', k') => (Ok k', <[l := d']> h)
  | Raise e => (Raise e, <[l := d]> h)
  end.
Proof.
  unfold Store.fix_zone, fix_zone.
  unfold Store.unpack_from_H, Store.with_buffer, mbind at 1, Store.St_bind.
  rewrite lookup_insert_eq.
  destruct (unpack_from_H d (zones_off + i * 24 + 10)) as [t|e]; cbn [mbind result_bind]; [|done].
  destruct (decide (t ≠ 0)); [|done].
  unfold Store.pack_into_H, mbind at 1, Store.St_bind. rewrite lookup_insert_eq.
  destruct (pack_into_H d (zones_off + i * 24 + 10) 0) as [d'|e]; cbn [mbind result_bind]; [|done].
  by rewrite insert_insert_eq.
Qed.

Lemma Store_for_each_spec (h : gmap positive bytes) l zones_off xs : ∀ d k,
  ∃ d0, Store.for_each xs (Store.fix_zone l zones_off) k (<[l := d]> h) =
        (match for_each xs (fix_zone zones_off) (d, k) with
         | Ok (_, k') => Ok k'
         | Raise e => Raise e
         end, <[l := d0]> h)
        ∧ ∀ d' k', for_each xs (fix_zone zones_off) (d, k) = Ok (d', k') → d0 = d'.
Proof.
  induction xs as [|x xs IH]; intros d k.
  - exists d. split; [done|]. simpl. by intros d' k' [= -> ->].
  - cbn [Store.for_each]. rewrite for_each_cons.
    unfold mbind at 1, Store.St_bind. rewrite Store_fix_zone_spec.
    destruct (fix_zone zones_off x (d, k)) as [[d1 k1]|e]; cbn [mbind result_bind].
    + apply IH.
    + exists d. split; [done|]. done.
Qed.

Lemma Store_fix_course_file_spec (h : gmap positive bytes) l data :
  h !! l = Some data →
  ∃ d0, Store.fix_course_file l h =
        (match fix_course_file data with
         | Ok (_, n) => Ok (fresh (dom h), n)
         | Raise e => Raise e
         end, <[fresh (dom h) := d0]> h)
        ∧ ∀ out n, fix_course_file data = Ok (out, n) → d0 = out.
Proof.
  intros Hl. unfold Store.fix_course_file, fix_course_file.
  unfold mbind at 1, Store.St_bind. unfold Store.bytearray at 1. rewrite Hl.
  set (l' := fresh (dom h)).
  unfold mbind at 1, Store.St_bind.
  unfold Store.unpack_from_II, Store.with_buffer. rewrite lookup_insert_eq.
  destruct (unpack_from_II data 72) as [[zo zs]|e]; cbn [mbind result_bind].
  - destruct (Store_for_each_spec h l' zo (range (zs / 24)) data 0) as (d0 & Hrun & Hd0).
    exists d0. unfold mbind at 1, Store.St_bind. rewrite Hrun.
    destruct (for_each (range (zs / 24)) (fix_zone zo) (data, 0)) as [[d' k']|e].
    + split; [done|]. intros out n [= -> ->]. by apply (Hd0 out n).
    + split; [done|]. done.
  - exists data. split; [done|]. done.
Qed.

(** ** The patcher on a slot whose records lie inside the buffer *)

(** The scenario of two records: record 0 has the flag [00 01], record 1 has
    [00 00]; one fix, and both flags are zero afterwards. *)
Example fix_course_file_two_records :
  ∃ out, fix_course_file slot_two = Ok (out, 1)
         ∧ be16_at out (flag_pos slot_two 0) = 0
         ∧ be16_at out (flag_pos slot_two 1) = 0.
Proof. eexists. split; [vm_compute; reflexivity|]. split; reflexivity. Qed.

(** An array of length 0: no record, no fix, the same bytes. *)
Example fix_course_file_no_record :
  fix_course_file (blank_slot 0x50 x50 x00) = Ok (blank_slot 0x50 x50 x00, 0).
Proof. vm_compute. reflexivity. Qed.

(** C1, as stated, fails: a buffer of 0x50 bytes whose header declares an
    array of 25 bytes at offset 0x50 has the length the claim asks for, and
    its array length is not a multiple of 24; the patcher raises
    [struct.error] on the flag of record 0 instead of processing one record
    and returning a fix count. *)
Lemma fix_course_file_header_alone_raises :
  0x50 ≤ length slot_outside
  ∧ header_len slot_outside = 25
  ∧ record_count slot_outside = 1
  ∧ fix_course_file slot_outside = Raise struct_error.
Proof.
  split; [vm_compute; lia|]. split; [reflexivity|]. split; vm_compute; reflexivity.
Qed.

Lemma filter_seq_ascending (P : nat → Prop) `{∀ i, Decision (P i)} n : ∀ start,
  StronglySorted lt (filter P (seq start n)).
Proof.
  induction n as [|n IH]; intros start; [constructor|].
  cbn [seq]. rewrite filter_cons. destruct (decide (P start)); [|apply IH].
  constructor; [apply IH|]. apply Forall_forall. intros i Hi.
  apply list_elem_of_filter in Hi as [_ Hi]. apply elem_of_seq in Hi. lia.
Qed.

(** C1 (amended): for every slot of at least 0x50 bytes in which the flag of
    every record lies inside the buffer, the patcher reads the big-endian
    offset at 0x48 and length at 0x4C, goes through the [length / 24] records
    in ascending order, whether or not the length is a multiple of 24, zeroes
    the 2-byte field at [offset + i*24 + 10] exactly for the records whose
    flag is not zero, and returns the number of those records. *)
Theorem fix_course_file_zeroes_dirty_records data :
  records_in_range data →
  unpack_from_II data 0x48 = Ok (be32_at data 0x48, be32_at data 0x4C)
  ∧ fix_course_file data =
    Ok (zero_flags data (dirty_records data) data, length (dirty_records data))
  ∧ (∀ i, i ∈ dirty_records data ↔
          i < be32_at data 0x4C / 24
          ∧ be16_at data (be32_at data 0x48 + i * 24 + 10) ≠ 0)
  ∧ StronglySorted lt (dirty_records data).
Proof.
  intros Hr. split; [|split; [|split]].
  - destruct Hr as [Hhdr _]. by rewrite unpack_from_II_in by (simpl; lia).
  - by apply fix_course_file_in_range.
  - apply elem_of_dirty_records.
  - apply filter_seq_ascending.
Qed.

Lemma fix_course_file_zeroes_dirty_records_witness :
  records_in_range slot_ragged
  ∧ header_len slot_ragged mod 24 ≠ 0
  ∧ dirty_records slot_ragged = [1]
  ∧ fix_course_file slot_ragged =
    Ok (zero_flags slot_ragged (dirty_records slot_ragged) slot_ragged,
        length (dirty_records slot_ragged)).
Proof.
  assert (H : records_in_range slot_ragged).
  { apply (bool_decide_unpack _). vm_compute. exact I. }
  split; [exact H|]. split; [vm_compute; lia|]. split; [reflexivity|].
  exact (proj1 (proj2 (fix_course_file_zeroes_dirty_records slot_ragged H))).
Defined.

(** C2: when the patch succeeds, the output has the length of the input,
    the flag of every record of the array that the header of the input
    declares is 0x0000 in it, and it differs from the input at most in the
    two bytes of the flags that were not zero. Over the store, the output is
    a new object: the caller's buffer, and every other object, holds what it
    held. *)
Theorem fix_course_file_frame (h : gmap positive bytes) l data out n :
  h !! l = Some data →
  fix_course_file data = Ok (out, n) →
  length out = length data
  ∧ (∀ i, i < record_count data → be16_at out (flag_pos data i) = 0)
  ∧ (∀ p, (∀ i, i < record_count data → be16_at data (flag_pos data i) ≠ 0 →
              p ≠ flag_pos data i ∧ p ≠ flag_pos data i + 1) →
          out !! p = data !! p)
  ∧ ∃ l' h',
      Store.fix_course_file l h = (Ok (l', n), h')
      ∧ h !! l' = None
      ∧ h' !! l' = Some out
      ∧ h' !! l = Some data
      ∧ ∀ l0, l0 ≠ l' → h' !! l0 = h !! l0.
Proof.
  intros Hl Hfix.
  destruct (fix_course_file_Ok_effect _ _ _ Hfix) as (Hlen & Hzero & Hframe).
  do 3 (split; [done|]).
  destruct (Store_fix_course_file_spec h l data Hl) as (d0 & Hrun & Hd0).
  rewrite Hfix in Hrun. rewrite (Hd0 out n Hfix) in Hrun.
  assert (Hfresh : h !! fresh (dom h) = None).
  { apply not_elem_of_dom. apply is_fresh. }
  exists (fresh (dom h)), (<[fresh (dom h) := out]> h).
  split; [done|]. split; [done|]. split; [apply lookup_insert_eq|].
  split.
  - rewrite lookup_insert_ne; [done|]. intros E. rewrite E in Hfresh. congruence.
  - intros l0 Hl0. by rewrite lookup_insert_ne.
Qed.

Lemma fix_course_file_frame_witness :
  let h : gmap positive bytes := {[ 1%positive := slot_two ]} in
  let out := zero16 slot_two (0x50 + 10) in
  h !! 1%positive = Some slot_two
  ∧ fix_course_file slot_two = Ok (out, 1)
  ∧ length out = length slot_two
  ∧ (∀ i, i < record_count slot_two → be16_at out (flag_pos slot_two i) = 0)
  ∧ (∀ p, (∀ i, i < record_count slot_two →
              be16_at slot_two (flag_pos slot_two i) ≠ 0 →
              p ≠ flag_pos slot_two i ∧ p ≠ flag_pos slot_two i + 1) →
          out !! p = slot_two !! p)
  ∧ ∃ l' h',
      Store.fix_course_file 1%positive h = (Ok (l', 1), h')
      ∧ h !! l' = None
      ∧ h' !! l' = Some out
      ∧ h' !! 1%positive = Some slot_two
      ∧ ∀ l0, l0 ≠ l' → h' !! l0 = h !! l0.
Proof.
  intros h out.
  assert (H1 : h !! 1%positive = Some slot_two) by reflexivity.
  assert (H2 : fix_course_file slot_two = Ok (out, 1)) by (vm_compute; reflexivity).
  split; [exact H1|]. split; [exact H2|].
  exact (fix_course_file_frame h 1%positive slot_two out 1 H1 H2).
Defined.

(** ** Patching twice *)

Lemma filter_none {A} (P : A → Prop) `{∀ x, Decision (P x)} (l : list A) :
  (∀ x, x ∈ l → ¬ P x) → filter P l = [].
Proof.
  induction l as [|x l IH]; intros Hl; [done|].
  rewrite filter_cons_False by (apply Hl; left).
  apply IH. intros y Hy. apply Hl. by right.
Qed.

Lemma dirty_records_nil data :
  (∀ i, i < record_count data → be16_at data (flag_pos data i) = 0) →
  dirty_records data = [].
Proof.
  intros Hz. unfold dirty_records. apply filter_none.
  intros i Hi%elem_of_seq Hne. apply Hne, Hz. lia.
Qed.

(** A slot whose flags are all zero is returned as it is, with no fix. *)
Lemma fix_course_file_clean data :
  records_in_range data →
  (∀ i, i < record_count data → be16_at data (flag_pos data i) = 0) →
  fix_course_file data = Ok (data, 0).
Proof.
  intros Hr Hz. rewrite fix_course_file_in_range by done.
  by rewrite dirty_records_nil.
Qed.

(** The patch only zeroes bytes: no byte of the output is above the byte of
    the input at its place. *)
Lemma fix_course_file_byte_le data out n p :
  fix_course_file data = Ok (out, n) → byte_at out p ≤ byte_at data p.
Proof.
  intros Hfix.
  destruct (fix_course_file_Ok_effect _ _ _ Hfix) as (_ & _ & Hframe).
  apply fix_course_file_Ok_inv in Hfix as ([Hhdr Hin] & -> & _).
  destruct (decide (Exists (fun i => p = flag_pos data i ∨ p = flag_pos data i + 1)
                           (dirty_records data))) as [Hex|Hno].
  - apply Exists_exists in Hex as (i & Hi & Hpi).
    pose proof Hi as Hi'. apply elem_of_dirty_records in Hi' as [Hlt _].
    unfold byte_at at 1.
    rewrite (lookup_zero_flags_in _ _ _ i); [cbn; lia | done | by apply Hin | done].
  - unfold byte_at. rewrite Hframe; [done|]. intros i Hi Hne.
    rewrite <- Forall_Exists_neg, Forall_forall in Hno.
    specialize (Hno i). rewrite elem_of_dirty_records in Hno.
    specialize (Hno (conj Hi Hne)). lia.
Qed.

(** So the length that the output's header declares is at most the length
    that the input's header declares. *)
Lemma fix_course_file_header_len_le data out n :
  fix_course_file data = Ok (out, n) → header_len out ≤ header_len data.
Proof.
  intros Hfix. unfold header_len, be32_at.
  pose proof (fix_course_file_byte_le data out n 0x4C Hfix).
  pose proof (fix_course_file_byte_le data out n (0x4C + 1) Hfix).
  pose proof (fix_course_file_byte_le data out n (0x4C + 2) Hfix).
  pose proof (fix_course_file_byte_le data out n (0x4C + 3) Hfix).
  lia.
Qed.

(** Patching the output again changes nothing, provided the first patch has
    left the offset of the header as it was: the records of the output are
    then among those of the input, whose flags are zero now. *)
Lemma fix_course_file_again data out n :
  fix_course_file data = Ok (out, n) →
  header_off out = header_off data →
  fix_course_file out = Ok (out, 0).
Proof.
  intros Hfix Hoff.
  pose proof (fix_course_file_header_len_le _ _ _ Hfix) as Hlen.
  destruct (fix_course_file_Ok_effect _ _ _ Hfix) as (Hl & Hzero & _).
  apply fix_course_file_Ok_in_range in Hfix as [Hhdr Hin].
  assert (Hc : record_count out ≤ record_count data).
  { unfold record_count. by apply Nat.Div0.div_le_mono. }
  assert (Hp : ∀ i, flag_pos out i = flag_pos data i).
  { intros i. unfold flag_pos. by rewrite Hoff. }
  apply fix_course_file_clean.
  - split; [lia|]. intros i Hi. rewrite Hp, Hl. apply Hin. lia.
  - intros i Hi. rewrite Hp. apply Hzero. lia.
Qed.

(** The offset of the header is left as it was when no dirty flag lies over
    its four bytes. *)
Lemma fix_course_file_offset_kept data out n :
  fix_course_file data = Ok (out, n) →
  (∀ i, i < record_count data → be16_at data (flag_pos data i) ≠ 0 →
        flag_pos data i + 1 < 0x48 ∨ 0x4B < flag_pos data i) →
  header_off out = header_off data.
Proof.
  intros Hfix Hfar.
  destruct (fix_course_file_Ok_effect _ _ _ Hfix) as (_ & _ & Hframe).
  assert (Hb : ∀ p, 0x48 ≤ p ≤ 0x4B → byte_at out p = byte_at data p).
  { intros p Hp. unfold byte_at. rewrite Hframe; [done|].
    intros i Hi Hd. specialize (Hfar i Hi Hd). lia. }
  unfold header_off, be32_at.
  rewrite !Hb by (simpl; lia). done.
Qed.

(** The header is left as it was when no dirty flag lies over it. *)
Lemma fix_course_file_header_kept data out n :
  fix_course_file data = Ok (out, n) →
  (∀ i, i < record_count data → be16_at data (flag_pos data i) ≠ 0 →
        flag_pos data i + 1 < 0x48 ∨ 0x4F < flag_pos data i) →
  header_off out = header_off data ∧ header_len out = header_len data.
Proof.
  intros Hfix Hfar.
  destruct (fix_course_file_Ok_effect _ _ _ Hfix) as (_ & _ & Hframe).
  assert (Hb : ∀ p, 0x48 ≤ p ≤ 0x4F → byte_at out p = byte_at data p).
  { intros p Hp. unfold byte_at. rewrite Hframe; [done|].
    intros i Hi Hd. specialize (Hfar i Hi Hd). lia. }
  unfold header_off, header_len, be32_at.
  rewrite !Hb by (simpl; lia). done.
Qed.

(** The records are those of the input's header. In [slot_overlap] the patch
    changes the header itself, and the array that the output's header
    declares has a flag that is not zero. *)
Example patched_header_may_move :
  ∃ out, fix_course_file slot_overlap = Ok (out, 1)
         ∧ be16_at out (flag_pos slot_overlap 0) = 0
         ∧ header_off out ≠ header_off slot_overlap
         ∧ be16_at out (flag_pos out 0) = 1.
Proof.
  eexists. split; [vm_compute; reflexivity|].
  split; [reflexivity|]. split; [vm_compute; lia | reflexivity].
Qed.

(** C4, as stated, fails: in [slot_overlap] the flag of the only record is
    the low half of the header's offset. The first patch zeroes it, so the
    patched bytes declare their record at offset 0, whose flag at position 10
    is not zero: the second patch fixes one more record and returns other
    bytes. *)
Lemma fix_course_file_twice_differs :
  ∃ out out2,
    fix_course_file slot_overlap = Ok (out, 1)
    ∧ fix_course_file out = Ok (out2, 1)
    ∧ out2 ≠ out.
Proof.
  eexists _, _. split; [vm_compute; reflexivity|].
  split; [vm_compute; reflexivity|]. discriminate.
Qed.

(** ** The file pipeline, step by step *)

Section Pipeline.
Context `{Codecs}.

(** [scan_file], down to the loop over the areas, reads the first four
    bytes, then the whole file, and decides on the contents alone. *)
Lemma scan_file_areas_spec fp w :
  scan_file_areas fp w =
  match disk w !! fp with
  | None => (Raise FileNotFoundError, World (disk w) (trace w ++ [EvRead4 fp]))
  | Some Dir => (Raise IsADirectoryError, World (disk w) (trace w ++ [EvRead4 fp]))
  | Some Other => (Raise OSError, World (disk w) (trace w ++ [EvRead4 fp]))
  | Some (File content) =>
      match sniff (take 4 content) with
      | Raise e => (Raise e, World (disk w) (trace w ++ [EvRead4 fp]))
      | Ok ProbablyLH | Ok NotALevel =>
          (Ok None, World (disk w) (trace w ++ [EvRead4 fp]))
      | Ok _ =>
          (areas_of_content content,
           World (disk w) (trace w ++ [EvRead4 fp; EvReadBytes fp]))
      end
  end.
Proof.
  unfold scan_file_areas, areas_of_content, container_of, areas_of_container.
  unfold mbind at 1, IO_bind. unfold open_read4 at 1. cbv zeta.
  destruct (disk w !! fp) as [[content| |]|] eqn:Hfp; [|done|done|done].
  unfold mbind at 1, IO_bind. unfold lift at 1.
  destruct (sniff (take 4 content)) as [s|e]; [|done].
  destruct s; cbn [mbind result_bind]; [| |done|done].
  - unfold mbind at 1, IO_bind. unfold read_bytes at 1. cbn [disk trace]. rewrite Hfp.
    rewrite <- app_assoc. cbn [app].
    unfold mbind at 1, IO_bind, lift at 1.
    unfold mbind at 1, IO_bind, lift at 1.
    destruct (u8_load content) as [u8|e]; cbn [mbind result_bind]; [|done].
    destruct (decide (keys u8 ≠ ["course"%string])); [done|].
    unfold mbind at 1, IO_bind, lift at 1.
    destruct (getitem u8 "course") as [course|e]; cbn [mbind result_bind]; [|done].
    unfold mbind at 1, IO_bind, lift at 1.
    destruct (fix_areas course) as [[[c tf] taf]|e]; cbn [mbind result_bind]; done.
  - unfold mbind at 1, IO_bind. unfold read_bytes at 1. cbn [disk trace]. rewrite Hfp.
    rewrite <- app_assoc. cbn [app].
    unfold mbind at 1, IO_bind, lift at 1.
    destruct (Decompress11LZS content) as [data|e]; cbn [mbind result_bind]; [|done].
    unfold mbind at 1, IO_bind, lift at 1.
    destruct (u8_load data) as [u8|e]; cbn [mbind result_bind]; [|done].
    destruct (decide (keys u8 ≠ ["course"%string])); [done|].
    unfold mbind at 1, IO_bind, lift at 1.
    destruct (getitem u8 "course") as [course|e]; cbn [mbind result_bind]; [|done].
    unfold mbind at 1, IO_bind, lift at 1.
    destruct (fix_areas course) as [[[c tf] taf]|e]; cbn [mbind result_bind]; done.
Qed.

(** The whole of [scan_file]: the only world it can leave other than the
    one it found, up to the trace, has the encoded container in [fp]. *)
Lemma scan_file_spec fp w :
  scan_file fp w =
  match disk w !! fp with
  | None => (Raise FileNotFoundError, World (disk w) (trace w ++ [EvRead4 fp]))
  | Some Dir => (Raise IsADirectoryError, World (disk w) (trace w ++ [EvRead4 fp]))
  | Some Other => (Raise OSError, World (disk w) (trace w ++ [EvRead4 fp]))
  | Some (File content) =>
      match sniff (take 4 content) with
      | Raise e => (Raise e, World (disk w) (trace w ++ [EvRead4 fp]))
      | Ok ProbablyLH | Ok NotALevel =>
          (Ok tt, World (disk w) (trace w ++ [EvRead4 fp]))
      | Ok _ =>
          match areas_of_content content with
          | Raise e =>
              (Raise e, World (disk w) (trace w ++ [EvRead4 fp; EvReadBytes fp]))
          | Ok (Some (c, u8, tf, taf)) =>
              if decide (0 < tf)
              then (Ok tt,
                    World (<[fp := File (encode c u8)]> (disk w))
                          (trace w ++ [EvRead4 fp; EvReadBytes fp;
                                       EvPrint (summary_line tf taf fp);
                                       EvWriteBytes fp (encode c u8)]))
              else (Ok tt, World (disk w) (trace w ++ [EvRead4 fp; EvReadBytes fp]))
          | Ok None =>
              (Ok tt, World (disk w) (trace w ++ [EvRead4 fp; EvReadBytes fp]))
          end
      end
  end.
Proof.
  unfold scan_file. unfold mbind at 1, IO_bind. rewrite scan_file_areas_spec.
  destruct (disk w !! fp) as [[content| |]|] eqn:Hfp;
    [|reflexivity|reflexivity|reflexivity].
  destruct (sniff (take 4 content)) as [[]|e]; try reflexivity.
  - destruct (areas_of_content content) as [[[[[c u8] tf] taf]|]|e]; [|reflexivity|reflexivity].
    destruct (decide (0 < tf)); [|reflexivity].
    unfold mbind, IO_bind, print, log, write_bytes, encode. cbn [disk trace].
    rewrite Hfp. rewrite <- !app_assoc. done.
  - destruct (areas_of_content content) as [[[[[c u8] tf] taf]|]|e]; [|reflexivity|reflexivity].
    destruct (decide (0 < tf)); [|reflexivity].
    unfold mbind, IO_bind, print, log, write_bytes, encode. cbn [disk trace].
    rewrite Hfp. rewrite <- !app_assoc. done.
Qed.

Lemma new_events_app w d t : new_events w (World d (trace w ++ t)) = t.
Proof. unfold new_events. cbn [trace]. by rewrite drop_app_length. Qed.

Lemma no_write_same_disk w t :
  List.filter is_write t = [] → no_write w (World (disk w) (trace w ++ t)).
Proof. intros Ht. split; [done|]. by rewrite new_events_app. Qed.

Lemma no_write_refl w : no_write w w.
Proof.
  split; [done|]. unfold new_events. by rewrite drop_all.
Qed.

End Pipeline.

(** ** Dicts *)

Lemma keys_setitem d k v : k ∈ keys d → keys (setitem d k v) = keys d.
Proof.
  induction d as [|[k' v'] d IH]; intros Hk; [by apply elem_of_nil in Hk|].
  cbn [setitem]. destruct (decide (k' = k)) as [->|Hne]; [done|].
  unfold keys in *. cbn. f_equal. apply IH.
  cbn in Hk. apply elem_of_cons in Hk as [->|Hk]; done.
Qed.

Lemma getitem_setitem_eq d k v : getitem (setitem d k v) k = Ok v.
Proof.
  induction d as [|[k' v'] d IH]; cbn [setitem getitem].
  - by rewrite decide_True.
  - destruct (decide (k' = k)) as [->|Hne]; cbn [getitem].
    + by rewrite decide_True.
    + by rewrite decide_False.
Qed.

Lemma getitem_setitem_ne d k v k' : k ≠ k' → getitem (setitem d k v) k' = getitem d k'.
Proof.
  intros Hne. induction d as [|[k0 v0] d IH]; cbn [setitem getitem].
  - by rewrite decide_False.
  - destruct (decide (k0 = k)) as [->|Hne0]; cbn [getitem].
    + by rewrite !decide_False.
    + destruct (decide (k0 = k')); [done | apply IH].
Qed.

Lemma getitem_not_in_keys d k : k ∉ keys d → getitem d k = Raise KeyError.
Proof.
  induction d as [|[k' v'] d IH]; intros Hk; [done|].
  cbn [getitem]. unfold keys in *. cbn in Hk.
  apply not_elem_of_cons in Hk as [Hne Hk].
  rewrite decide_False by done. by apply IH.
Qed.

Lemma getitem_Ok_in_keys d k v : getitem d k = Ok v → k ∈ keys d.
Proof.
  intros Hg. destruct (decide (k ∈ keys d)) as [|Hn]; [done|].
  by rewrite getitem_not_in_keys in Hg.
Qed.

(** ** The loop over the areas *)

Lemma slot_names_NoDup : NoDup (slot_name <$> seq 1 4).
Proof. apply (bool_decide_unpack _). vm_compute. exact I. Qed.

Lemma slot_fixes_pos_in_keys course i : 0 < slot_fixes course i → slot_name i ∈ keys course.
Proof.
  unfold slot_fixes, slot_bytes. intros Hp.
  destruct (getitem course (slot_name i)) as [x|] eqn:Hg; [|simpl in Hp; lia].
  by apply getitem_Ok_in_keys in Hg.
Qed.

(** One turn of the loop, on the current dict [c]. *)
Lemma fix_area_spec i c tf taf :
  fix_area i (c, tf, taf) =
  if decide (slot_name i ∈ keys c) then
    match slot_result c i with
    | Ok (out, n) =>
        if decide (0 < n)
        then Ok (setitem c (slot_name i) (U8File out), tf + n, taf + 1)
        else Ok (c, tf, taf)
    | Raise e => Raise e
    end
  else Ok (c, tf, taf).
Proof.
  unfold fix_area, slot_result. fold (slot_name i).
  destruct (decide (slot_name i ∈ keys c)) as [Hk|Hk]; [|done].
  destruct (getitem c (slot_name i)) as [x|e]; cbn [mbind result_bind]; [|done].
  destruct (bytearray_of x) as [data|e]; cbn [mbind result_bind]; [|done].
  destruct (fix_course_file data) as [[out n]|e]; cbn [mbind result_bind]; done.
Qed.

(** A slot in range is patched as [slot_patched] says, with [slot_fixes]
    fixes. *)
Lemma slot_result_in_range course i data :
  getitem course (slot_name i) = Ok (U8File data) → records_in_range data →
  slot_bytes course i = Some data
  ∧ slot_result course i = Ok (slot_patched course i, slot_fixes course i).
Proof.
  intros Hg Hr. unfold slot_result, slot_patched, slot_fixes, slot_bytes.
  rewrite Hg. cbn [mbind result_bind bytearray_of from_option].
  split; [done|]. by apply fix_course_file_in_range.
Qed.

Lemma slot_result_agree course c i :
  getitem c (slot_name i) = getitem course (slot_name i) →
  slot_result c i = slot_result course i.
Proof. intros Hg. unfold slot_result. by rewrite Hg. Qed.

(** Equal results of the loop: the same dict and, by arithmetic, the same
    totals. *)
Ltac totals_eq :=
  unfold id; f_equal; rewrite !pair_equal_spec; repeat split; (done || lia).

Lemma fix_areas_loop course ixs :
  NoDup (slot_name <$> ixs) →
  (∀ i, i ∈ ixs → slot_name i ∈ keys course →
        ∃ data, getitem course (slot_name i) = Ok (U8File data)
                ∧ records_in_range data) →
  ∀ c tf taf,
    keys c = keys course →
    (∀ i, i ∈ ixs → getitem c (slot_name i) = getitem course (slot_name i)) →
    for_each ixs fix_area (c, tf, taf) =
    Ok (foldl (patch_slot course) c ixs,
        tf + sum_list (slot_fixes course <$> ixs),
        taf + length (filter (fun i => 0 < slot_fixes course i) ixs)).
Proof.
  induction ixs as [|i ixs IH]; intros Hnd Hin c tf taf Hkeys Hget.
  - cbn. by rewrite !Nat.add_0_r.
  - rewrite fmap_cons in Hnd. apply NoDup_cons in Hnd as [Hi Hnd].
    assert (Hrest : ∀ j, j ∈ ixs → slot_name i ≠ slot_name j).
    { intros j Hj E. apply Hi. rewrite E. by apply list_elem_of_fmap_2. }
    rewrite for_each_cons, fix_area_spec, Hkeys.
    rewrite (slot_result_agree course c i) by (apply Hget; left).
    cbn [foldl fmap list_fmap sum_list]. rewrite filter_cons.
    unfold patch_slot at 2.
    destruct (decide (slot_name i ∈ keys course)) as [Hk|Hk].
    + destruct (Hin i) as (data & Hg & Hr); [left | done |].
      destruct (slot_result_in_range course i data Hg Hr) as [_ ->].
      destruct (decide (0 < slot_fixes course i)); cbn [mbind result_bind].
      * rewrite IH; [|done| |by rewrite keys_setitem by (by rewrite Hkeys)|].
        -- cbn [length]. totals_eq.
        -- intros j Hj. apply Hin. by right.
        -- intros j Hj. rewrite getitem_setitem_ne by (by apply Hrest).
           apply Hget. by right.
      * rewrite IH; [|done| |done|].
        -- totals_eq.
        -- intros j Hj. apply Hin. by right.
        -- intros j Hj. apply Hget. by right.
    + assert (Hz : slot_fixes course i = 0).
      { destruct (decide (0 < slot_fixes course i)) as [Hp|Hp]; [|lia].
        by apply slot_fixes_pos_in_keys in Hp. }
      rewrite Hz. rewrite decide_False by lia. rewrite decide_False by lia.
      cbn [mbind result_bind]. rewrite IH; [|done| |done|].
      * totals_eq.
      * intros j Hj. apply Hin. by right.
      * intros j Hj. apply Hget. by right.
Qed.

(** A present slot on which the patcher raises stops the loop: no totals. *)
Lemma fix_areas_loop_raises course ixs :
  NoDup (slot_name <$> ixs) →
  (∃ i e, i ∈ ixs ∧ slot_name i ∈ keys course ∧ slot_result course i = Raise e) →
  ∀ c tf taf,
    keys c = keys course →
    (∀ i, i ∈ ixs → getitem c (slot_name i) = getitem course (slot_name i)) →
    ∃ e, for_each ixs fix_area (c, tf, taf) = Raise e.
Proof.
  induction ixs as [|i ixs IH]; intros Hnd (b & e & Hb & Hbk & Hbr) c tf taf Hkeys Hget.
  - by apply elem_of_nil in Hb.
  - rewrite fmap_cons in Hnd. apply NoDup_cons in Hnd as [Hi Hnd].
    assert (Hrest : ∀ j, j ∈ ixs → slot_name i ≠ slot_name j).
    { intros j Hj E. apply Hi. rewrite E. by apply list_elem_of_fmap_2. }
    rewrite for_each_cons, fix_area_spec, Hkeys.
    rewrite (slot_result_agree course c i) by (apply Hget; left).
    destruct (decide (b = i)) as [->|Hne].
    { rewrite decide_True by done. rewrite Hbr. by exists e. }
    assert (Hb' : b ∈ ixs) by (apply elem_of_cons in Hb as [?|?]; done).
    destruct (decide (slot_name i ∈ keys course)) as [Hk|Hk].
    + destruct (slot_result course i) as [[out n]|e']; [|by exists e'].
      destruct (decide (0 < n)); cbn [mbind result_bind].
      * apply IH; [done | by exists b, e | by rewrite keys_setitem by (by rewrite Hkeys) |].
        intros j Hj. rewrite getitem_setitem_ne by (by apply Hrest).
        apply Hget. by right.
      * apply IH; [done | by exists b, e | done |].
        intros j Hj. apply Hget. by right.
    + cbn [mbind result_bind].
      apply IH; [done | by exists b, e | done |].
      intros j Hj. apply Hget. by right.
Qed.

Lemma keys_patch_slots course ixs : ∀ c,
  keys c = keys course → keys (foldl (patch_slot course) c ixs) = keys course.
Proof.
  induction ixs as [|i ixs IH]; intros c Hk; [done|].
  cbn [foldl]. apply IH. unfold patch_slot.
  destruct (decide (0 < slot_fixes course i)) as [Hp|]; [|done].
  rewrite keys_setitem; [done|]. rewrite Hk. by apply slot_fixes_pos_in_keys.
Qed.

Lemma getitem_patch_slots_other course ixs k : ∀ c,
  (∀ i, i ∈ ixs → k ≠ slot_name i) →
  getitem (foldl (patch_slot course) c ixs) k = getitem c k.
Proof.
  induction ixs as [|i ixs IH]; intros c Hk; [done|].
  cbn [foldl]. rewrite IH by (intros j Hj; apply Hk; by right).
  unfold patch_slot. destruct (decide (0 < slot_fixes course i)); [|done].
  apply getitem_setitem_ne. intros E. by apply (Hk i); [left|].
Qed.

Lemma getitem_patch_slots_slot course ixs i : ∀ c,
  NoDup (slot_name <$> ixs) → i ∈ ixs →
  getitem (foldl (patch_slot course) c ixs) (slot_name i) =
  if decide (0 < slot_fixes course i)
  then Ok (U8File (slot_patched course i))
  else getitem c (slot_name i).
Proof.
  induction ixs as [|j ixs IH]; intros c Hnd Hi; [by apply elem_of_nil in Hi|].
  rewrite fmap_cons in Hnd. apply NoDup_cons in Hnd as [Hj Hnd].
  cbn [foldl]. destruct (decide (i ∈ ixs)) as [Hin|Hnotin].
  - rewrite IH by done. destruct (decide (0 < slot_fixes course i)); [done|].
    unfold patch_slot. destruct (decide (0 < slot_fixes course j)); [|done].
    apply getitem_setitem_ne. intros E. apply Hj. rewrite E.
    by apply list_elem_of_fmap_2.
  - apply elem_of_cons in Hi as [->|Hi]; [|done].
    rewrite getitem_patch_slots_other.
    + unfold patch_slot. destruct (decide (0 < slot_fixes course j)); [|done].
      apply getitem_setitem_eq.
    + intros k Hk E. apply Hj. rewrite E. by apply list_elem_of_fmap_2.
Qed.


Lemma fix_areas_in_range course :
  slots_in_range course →
  fix_areas (U8Folder course) =
  Ok (patched_course course,
      sum_list (slot_fixes course <$> seq 1 4),
      length (filter (fun i => 0 < slot_fixes course i) (seq 1 4))).
Proof.
  intros Hin. unfold fix_areas.
  by rewrite (fix_areas_loop course (seq 1 4) slot_names_NoDup Hin course 0 0).
Qed.

Lemma slots_in_range_bytes course i data :
  slots_in_range course → i ∈ seq 1 4 → slot_bytes course i = Some data →
  records_in_range data.
Proof.
  intros Hin Hi Hb. unfold slot_bytes in Hb.
  destruct (getitem course (slot_name i)) as [[d|]|] eqn:Hg; [|done|done].
  simplify_eq. destruct (Hin i Hi) as (d & Hd & Hr).
  { by apply getitem_Ok_in_keys in Hg. }
  rewrite Hg in Hd. by simplify_eq.
Qed.

(** A present slot that is not a file with its records in range makes the
    patcher raise: a folder is no buffer, or an empty one. *)
Lemma slot_result_bad course i :
  slot_name i ∈ keys course →
  ¬ (∃ data, getitem course (slot_name i) = Ok (U8File data) ∧ records_in_range data) →
  ∃ e, slot_result course i = Raise e.
Proof.
  intros Hk Hbad. unfold slot_result.
  destruct (getitem course (slot_name i)) as [[data|[|x entries]]|e];
    cbn [mbind result_bind bytearray_of].
  - exists struct_error. apply fix_course_file_out_of_range.
    intros Hr. apply Hbad. by exists data.
  - by exists struct_error.
  - by exists TypeError.
  - by exists e.
Qed.

Lemma slot_ok_or_bad course i :
  {slot_name i ∈ keys course →
   ∃ data, getitem course (slot_name i) = Ok (U8File data) ∧ records_in_range data}
  + {slot_name i ∈ keys course ∧
     ¬ ∃ data, getitem course (slot_name i) = Ok (U8File data) ∧ records_in_range data}.
Proof.
  destruct (decide (slot_name i ∈ keys course)) as [Hk|Hk]; [|by left].
  destruct (getitem course (slot_name i)) as [[data|entries]|e].
  - destruct (decide (records_in_range data)) as [Hr|Hr].
    + left. intros _. by exists data.
    + right. split; [done|]. intros (d & [= <-] & Hd). done.
  - right. split; [done|]. by intros (d & [=] & _).
  - right. split; [done|]. by intros (d & [=] & _).
Qed.

(** The loop over the areas ends with totals only on a course whose present
    slots are files with their records in range. *)
Lemma fix_areas_Ok_in_range course r :
  fix_areas (U8Folder course) = Ok r → slots_in_range course.
Proof.
  intros Hrun.
  destruct (Forall_Exists_dec _ _ (slot_ok_or_bad course) (seq 1 4)) as [Hall|Hex].
  - intros i Hi. rewrite Forall_forall in Hall. by apply Hall.
  - apply Exists_exists in Hex as (i & Hi & Hk & Hbad).
    destruct (slot_result_bad course i Hk Hbad) as (e0 & He0).
    destruct (fix_areas_loop_raises course (seq 1 4) slot_names_NoDup) with
      (c := course) (tf := 0) (taf := 0) as (e & He);
      [by exists i, e0 | done | done |].
    unfold fix_areas in Hrun. by rewrite He in Hrun.
Qed.

(** C6: for every course, when the loop over the areas ends with totals,
    every present slot is a file with its records in range, [total_fixes] is
    the sum, over the slots [course1.bin] to [course4.bin], of the number of
    records whose flag was not zero (0 for an absent slot), and
    [total_areas_fixed] is the number of slots that have such a record. The
    keys of the dict are kept; the bytes of a slot are replaced by the
    patched ones exactly when its own count is positive; every other entry
    is as it was. Each slot's outcome depends on that slot alone. And the
    loop does end with totals on every course whose present slots are in
    range. *)
Theorem fix_areas_totals course :
  (∀ course' tf taf,
     fix_areas (U8Folder course) = Ok (course', tf, taf) →
     slots_in_range course
     ∧ tf = sum_list (slot_fixes course <$> seq 1 4)
     ∧ taf = length (filter (fun i => 0 < slot_fixes course i) (seq 1 4))
     ∧ keys course' = keys course
     ∧ (∀ i data, i ∈ seq 1 4 → slot_bytes course i = Some data →
          fix_course_file data = Ok (slot_patched course i, slot_fixes course i)
          ∧ slot_fixes course i = length (dirty_records data))
     ∧ (∀ i, i ∈ seq 1 4 →
          getitem course' (slot_name i) =
          if decide (0 < slot_fixes course i)
          then Ok (U8File (slot_patched course i))
          else getitem course (slot_name i))
     ∧ (∀ k, (∀ i, i ∈ seq 1 4 → k ≠ slot_name i) →
          getitem course' k = getitem course k))
  ∧ (slots_in_range course →
     ∃ course',
       fix_areas (U8Folder course) =
       Ok (course',
           sum_list (slot_fixes course <$> seq 1 4),
           length (filter (fun i => 0 < slot_fixes course i) (seq 1 4)))).
Proof.
  split.
  - intros course' tf taf Hrun.
    pose proof (fix_areas_Ok_in_range course _ Hrun) as Hin.
    rewrite (fix_areas_in_range course Hin) in Hrun.
    assert (course' = patched_course course
            ∧ tf = sum_list (slot_fixes course <$> seq 1 4)
            ∧ taf = length (filter (fun i => 0 < slot_fixes course i) (seq 1 4)))
      as (-> & -> & ->) by (by injection Hrun).
    unfold patched_course.
    split; [done|]. split; [done|]. split; [done|].
    split; [by apply keys_patch_slots|]. split; [|split].
    + intros i data Hi Hb.
      pose proof (slots_in_range_bytes course i data Hin Hi Hb) as Hr.
      unfold slot_patched, slot_fixes. rewrite Hb. cbn [from_option].
      split; [by apply fix_course_file_in_range | done].
    + intros i Hi. by apply getitem_patch_slots_slot; [apply slot_names_NoDup|].
    + intros k Hk. by apply getitem_patch_slots_other.
  - intros Hin. eexists. by apply fix_areas_in_range.
Qed.

Lemma fix_areas_totals_witness :
  slots_in_range course_1_3
  ∧ ∃ course',
      fix_areas (U8Folder course_1_3) = Ok (course', 1, 1)
      ∧ sum_list (slot_fixes course_1_3 <$> seq 1 4) = 1
      ∧ length (filter (fun i => 0 < slot_fixes course_1_3 i) (seq 1 4)) = 1
      ∧ keys course' = keys course_1_3
      ∧ getitem course' (slot_name 1) = Ok (U8File (slot_patched course_1_3 1))
      ∧ getitem course' (slot_name 3) = getitem course_1_3 (slot_name 3).
Proof.
  assert (H : slots_in_range course_1_3).
  { apply (bool_decide_unpack _). vm_compute. exact I. }
  split; [exact H|].
  destruct (proj2 (fix_areas_totals course_1_3) H) as (course' & Hrun).
  destruct (proj1 (fix_areas_totals course_1_3) course' _ _ Hrun)
    as (_ & _ & _ & Hkeys & _ & Hslot & _).
  exists course'. split; [exact Hrun|].
  split; [reflexivity|]. split; [reflexivity|]. split; [exact Hkeys|].
  split.
  - exact (Hslot 1 (proj2 (elem_of_seq 1 4 1) (conj (le_n 1) (le_S _ _ (le_S _ _ (le_S _ _ (le_n 2))))))).
  - exact (Hslot 3 (proj2 (elem_of_seq 1 4 3) (conj (le_S _ _ (le_S _ _ (le_n 1))) (le_S _ _ (le_n 4))))).
Defined.

(** On [course_1_3] the totals are one fix in one area. *)
Example fix_areas_course_1_3 :
  ∃ course', fix_areas (U8Folder course_1_3) = Ok (course', 1, 1).
Proof. eexists. vm_compute. reflexivity. Qed.

(** ** What [scan_file] writes *)

Section Writes.
Context `{Codecs}.

Lemma scan_file_areas_result fp w content :
  disk w !! fp = Some (File content) →
  (scan_file_areas fp w).1 = areas_of_content content.
Proof.
  intros Hfp. rewrite scan_file_areas_spec, Hfp.
  unfold areas_of_content, container_of.
  destruct (sniff (take 4 content)) as [[]|e]; reflexivity.
Qed.

Lemma fixes_found_content fp w :
  fixes_found fp w ↔
  ∃ content c u8 tf taf,
    disk w !! fp = Some (File content)
    ∧ areas_of_content content = Ok (Some (c, u8, tf, taf)) ∧ 0 < tf.
Proof.
  unfold fixes_found. split.
  - intros (c & u8 & tf & taf & w1 & Hrun & Htf).
    destruct (disk w !! fp) as [[content| |]|] eqn:Hfp.
    + exists content, c, u8, tf, taf. split; [done|]. split; [|done].
      rewrite <- (scan_file_areas_result fp w content Hfp). by rewrite Hrun.
    + rewrite scan_file_areas_spec, Hfp in Hrun. done.
    + rewrite scan_file_areas_spec, Hfp in Hrun. done.
    + rewrite scan_file_areas_spec, Hfp in Hrun. done.
  - intros (content & c & u8 & tf & taf & Hfp & Hareas & Htf).
    pose proof (scan_file_areas_result fp w content Hfp) as Hres.
    destruct (scan_file_areas fp w) as [r w1]. cbn in Hres. subst r.
    exists c, u8, tf, taf, w1. by rewrite Hareas.
Qed.

Lemma wrote_not_no_write fp data w w' : wrote fp data w w' → ¬ no_write w w'.
Proof. intros [_ Hw] [_ Hn]. rewrite Hw in Hn. done. Qed.

(** Either fixes were found and the only write is the encoded container in
    [fp], or none were and nothing is written. *)
Lemma scan_file_cases fp w :
  (fixes_found fp w ∧ ∃ data, wrote fp data w (scan_file fp w).2)
  ∨ (¬ fixes_found fp w ∧ no_write w (scan_file fp w).2).
Proof.
  rewrite fixes_found_content, scan_file_spec.
  destruct (disk w !! fp) as [[content| |]|] eqn:Hfp; cycle 1.
  { right. split; [|by apply no_write_same_disk].
    by intros (content0 & c & u8 & tf & taf & ? & _). }
  { right. split; [|by apply no_write_same_disk].
    by intros (content0 & c & u8 & tf & taf & ? & _). }
  { right. split; [|by apply no_write_same_disk].
    by intros (content0 & c & u8 & tf & taf & ? & _). }
  assert (Hno : (∀ c u8 tf taf,
             areas_of_content content = Ok (Some (c, u8, tf, taf)) → ¬ 0 < tf) →
           ¬ ∃ content0 c u8 tf taf, Some (File content) = Some (File content0)
               ∧ areas_of_content content0 = Ok (Some (c, u8, tf, taf)) ∧ 0 < tf).
  { intros Hn (content0 & c & u8 & tf & taf & [= <-] & Ha & Htf). by eapply Hn. }
  assert (Hearly : ∀ r, areas_of_content content = r →
            (∀ x, r ≠ Ok (Some x)) →
            ∀ c u8 tf taf,
              areas_of_content content = Ok (Some (c, u8, tf, taf)) → ¬ 0 < tf).
  { intros r Hr Hx c u8 tf taf Ha _. rewrite Ha in Hr. by eapply Hx. }
  pose proof (eq_refl (areas_of_content content)) as Ha.
  unfold areas_of_content at 2, container_of in Ha.
  destruct (sniff (take 4 content)) as [s|e] eqn:Hs; cycle 1.
  { right. split; [|by apply no_write_same_disk].
    apply Hno. by eapply Hearly. }
  destruct s; cbn [mbind result_bind] in Ha;
    try (right; split; [apply Hno; by eapply Hearly | by apply no_write_same_disk]);
    clear Ha;
    (destruct (areas_of_content content) as [[[[[c u8] tf] taf]|]|e] eqn:Ha;
     [destruct (decide (0 < tf)) as [Htf|Htf]| |]);
    try (right; split; [apply Hno; by eapply Hearly | by apply no_write_same_disk]);
    try (right; split; [apply Hno; by intros ???? [= -> -> -> ->]
                       | by apply no_write_same_disk]);
    (left; split; [by exists content, c, u8, tf, taf|];
     exists (encode c u8); cbn [snd]; split; [done|]; by rewrite new_events_app).
Qed.

Lemma not_fixes_found_content fp w content :
  disk w !! fp = Some (File content) →
  (∀ c u8 tf taf, areas_of_content content = Ok (Some (c, u8, tf, taf)) → tf = 0) →
  ¬ fixes_found fp w.
Proof.
  intros Hfp Hz. rewrite fixes_found_content.
  intros (content0 & c & u8 & tf & taf & Hfp0 & Ha & Htf).
  rewrite Hfp in Hfp0. simplify_eq. apply Hz in Ha. lia.
Qed.

Lemma no_write_iff fp w : no_write w (scan_file fp w).2 ↔ ¬ fixes_found fp w.
Proof.
  destruct (scan_file_cases fp w) as [[Hf (data & Hw)]|[Hf Hn]].
  - split; [|done]. intros Hn. by apply wrote_not_no_write in Hw.
  - done.
Qed.

(** On a course whose slots are in range and hold no record to fix, the
    totals are zero. *)
Lemma fix_areas_clean course :
  slots_in_range course → (∀ i, i ∈ seq 1 4 → slot_fixes course i = 0) →
  ∃ course', fix_areas (U8Folder course) = Ok (course', 0, 0).
Proof.
  intros Hin Hz. unfold fix_areas.
  rewrite (fix_areas_loop course (seq 1 4) slot_names_NoDup Hin course 0 0) by done.
  eexists. f_equal. rewrite !pair_equal_spec. split; [split; [done|]|].
  - cbn. rewrite !Hz by (apply elem_of_seq; lia). done.
  - rewrite filter_none; [done|]. intros i Hi. rewrite Hz by done. lia.
Qed.

(** C3: [scan_file] writes to the file exactly when the loop over the areas
    ends with [total_fixes > 0], and then it writes that file only; in every
    other case the disk is as it was and the trace holds no write. So it is
    for a file whose first bytes make it unsupported or unrecognized, for a
    container whose keys are not exactly [course], and for a target none of
    whose records has a flag that is not zero. *)
Theorem scan_file_writes_iff_fixes fp w :
  let w' := (scan_file fp w).2 in
  ((∃ data, wrote fp data w w') ↔ fixes_found fp w)
  ∧ (no_write w w' ↔ ¬ fixes_found fp w)
  ∧ (∀ content, disk w !! fp = Some (File content) →
       (sniff (take 4 content) = Ok ProbablyLH
        ∨ sniff (take 4 content) = Ok NotALevel → no_write w w')
       ∧ (∀ c u8, container_of content = Ok (Some (c, u8)) →
                  keys u8 ≠ ["course"%string] → no_write w w')
       ∧ (∀ c u8 course,
            container_of content = Ok (Some (c, u8)) →
            keys u8 = ["course"%string] →
            getitem u8 "course" = Ok (U8Folder course) →
            slots_in_range course →
            (∀ i, i ∈ seq 1 4 → slot_fixes course i = 0) →
            no_write w w')).
Proof.
  intros w'. subst w'. split; [|split; [apply no_write_iff|]].
  - destruct (scan_file_cases fp w) as [[Hf Hw]|[Hf Hn]]; [done|].
    split; [|done]. intros (data & Hw). by apply wrote_not_no_write in Hw.
  - intros content Hfp. split; [|split].
    + intros Hs. apply no_write_iff, (not_fixes_found_content fp w content Hfp).
      intros c u8 tf taf. unfold areas_of_content, container_of.
      by destruct Hs as [-> | ->].
    + intros c u8 Hc Hk. apply no_write_iff, (not_fixes_found_content fp w content Hfp).
      intros c' u8' tf taf. unfold areas_of_content. rewrite Hc.
      cbn [mbind result_bind]. unfold areas_of_container. by rewrite decide_True.
    + intros c u8 course Hc Hk Hg Hin Hz.
      apply no_write_iff, (not_fixes_found_content fp w content Hfp).
      intros c' u8' tf taf. unfold areas_of_content. rewrite Hc.
      cbn [mbind result_bind]. unfold areas_of_container.
      rewrite decide_False by (by intros ?). rewrite Hg. cbn [mbind result_bind].
      destruct (fix_areas_clean course Hin Hz) as (course' & ->).
      cbn [mbind result_bind]. by intros [= _ _ <- _].
Qed.

End Writes.

(** ** The first four bytes *)

Lemma sniff_first_byte b0 b1 b2 b3 :
  [b0; b1; b2; b3] ≠ u8_magic →
  sniff [b0; b1; b2; b3] =
  Ok (if decide (b0 = x11) then LZ11
      else if decide (Byte.to_nat b0 / 16 = 4) then ProbablyLH
      else NotALevel).
Proof.
  intros Hm. unfold sniff. rewrite decide_False by done.
  destruct b0; vm_compute; reflexivity.
Qed.

(** C5: on four leading bytes, the result is the uncompressed container
    exactly for the magic [U 0xAA 8 -]; otherwise the proprietary compression
    exactly when byte 0 is 0x11; otherwise unsupported exactly when the high
    nibble of byte 0 is 4; otherwise unrecognized. In the last two cases
    [scan_file] returns having read the four bytes only, and the disk is as
    it was. *)
Theorem sniff_classifies b0 b1 b2 b3 :
  sniff [b0; b1; b2; b3] =
    Ok (if decide ([b0; b1; b2; b3] = [x55; xaa; x38; x2d]) then Uncompressed
        else if decide (b0 = x11) then LZ11
        else if decide (Byte.to_nat b0 / 16 = 4) then ProbablyLH
        else NotALevel)
  ∧ ∀ (codecs : Codecs) fp w content,
      disk w !! fp = Some (File content) →
      take 4 content = [b0; b1; b2; b3] →
      sniff [b0; b1; b2; b3] = Ok ProbablyLH
      ∨ sniff [b0; b1; b2; b3] = Ok NotALevel →
      scan_file fp w = (Ok tt, World (disk w) (trace w ++ [EvRead4 fp])).
Proof.
  split.
  - destruct (decide ([b0; b1; b2; b3] = [x55; xaa; x38; x2d])) as [E|E].
    + by rewrite E.
    + by apply sniff_first_byte.
  - intros codecs fp w content Hfp Ht Hs.
    rewrite scan_file_spec, Hfp, Ht. by destruct Hs as [-> | ->].
Qed.

(** A file that begins with 0x41 is of the unsupported kind. *)
Example sniff_0x41 b1 b2 b3 : sniff [x41; b1; b2; b3] = Ok ProbablyLH.
Proof. rewrite sniff_first_byte by discriminate. reflexivity. Qed.

(** ** The shape of the disk

    The walk lists directories and asks for the kind of an entry; neither
    depends on what the files hold, and [scan_file] only changes that. *)

Lemma shape_lookup d d' fp :
  shape d = shape d' →
  match d !! fp, d' !! fp with
  | Some (File _), Some (File _) | Some Dir, Some Dir
  | Some Other, Some Other | None, None => True
  | _, _ => False
  end.
Proof.
  intros Hs. assert (Hl : shape d !! fp = shape d' !! fp) by (by rewrite Hs).
  unfold shape in Hl. rewrite !lookup_fmap in Hl.
  destruct (d !! fp) as [[]|], (d' !! fp) as [[]|]; done.
Qed.

Lemma shape_is_dir_in d d' fp : shape d = shape d' → is_dir_in d fp = is_dir_in d' fp.
Proof.
  intros Hs. pose proof (shape_lookup d d' fp Hs) as Hl. unfold is_dir_in.
  destruct (d !! fp) as [[]|], (d' !! fp) as [[]|]; done.
Qed.

Lemma shape_is_file_in d d' fp : shape d = shape d' → is_file_in d fp = is_file_in d' fp.
Proof.
  intros Hs. pose proof (shape_lookup d d' fp Hs) as Hl. unfold is_file_in.
  destruct (d !! fp) as [[]|], (d' !! fp) as [[]|]; done.
Qed.

Lemma shape_Dir d d' fp : shape d = shape d' → d !! fp = Some Dir → d' !! fp = Some Dir.
Proof.
  intros Hs Hd. pose proof (shape_lookup d d' fp Hs) as Hl. rewrite Hd in Hl.
  destruct (d' !! fp) as [[]|]; done.
Qed.

Lemma shape_children d d' fp : shape d = shape d' → children fp d = children fp d'.
Proof.
  intros Hs. unfold children. f_equal. f_equal.
  assert (Hd : dom (shape d) = dom (shape d')) by (by rewrite Hs).
  unfold shape in Hd. by rewrite !dom_fmap_L in Hd.
Qed.

Lemma shape_insert_file d fp content data :
  d !! fp = Some (File content) → shape (<[fp := File data]> d) = shape d.
Proof.
  intros Hfp. unfold shape. rewrite fmap_insert. apply insert_id.
  by rewrite lookup_fmap, Hfp.
Qed.

Lemma shape_level_files depth : ∀ d d' fp recursive,
  shape d = shape d' → level_files depth d fp recursive = level_files depth d' fp recursive.
Proof.
  induction depth as [|depth IH]; intros d d' fp recursive Hs; [done|].
  cbn [level_files]. rewrite (shape_children d d' fp Hs). f_equal.
  - apply filter_ext. intros c. by rewrite (shape_is_dir_in d d' c Hs).
  - destruct recursive; [|done]. apply flat_map_ext. intros c.
    rewrite (shape_is_dir_in d d' c Hs). destruct (is_dir_in d' c); [|done].
    by apply IH.
Qed.

Lemma elem_of_children d fp c :
  c ∈ sorted (children fp d) → is_Some (d !! c) ∧ length c = S (length fp).
Proof.
  unfold sorted. rewrite merge_sort_Permutation. unfold children.
  rewrite list_elem_of_In, filter_In, <- list_elem_of_In.
  rewrite elem_of_elements, elem_of_dom. intros [Hd Hc]. split; [done|].
  unfold is_child in Hc. apply bool_decide_eq_true in Hc. by destruct Hc.
Qed.

Lemma elem_of_List_filter {A} (q : A → bool) (l : list A) x :
  x ∈ List.filter q l ↔ x ∈ l ∧ q x = true.
Proof. by rewrite !list_elem_of_In, filter_In. Qed.

Lemma is_child_snoc fp p : is_child fp p = true ↔ ∃ nm, p = fp ++ [nm].
Proof.
  unfold is_child. rewrite bool_decide_eq_true. split.
  - intros [Hlen Htake]. rewrite <- (take_drop (length fp) p), Htake.
    assert (Hd : length (drop (length fp) p) = 1) by (rewrite length_drop; lia).
    destruct (drop (length fp) p) as [|nm [|]]; try done. by exists nm.
  - intros (nm & ->). rewrite length_app. cbn. split; [lia|].
    by rewrite take_app_length.
Qed.

Lemma elem_of_sorted_children d fp c :
  c ∈ sorted (children fp d) ↔ is_Some (d !! c) ∧ ∃ nm, c = fp ++ [nm].
Proof.
  unfold sorted. rewrite merge_sort_Permutation. unfold children.
  by rewrite elem_of_List_filter, elem_of_elements, elem_of_dom, is_child_snoc.
Qed.

(** ** The walk *)

Lemma IO_bind_Ok {A B} (m : IO A) (f : A → IO B) w a w' :
  m w = (Ok a, w') → (m ≫= f) w = f a w'.
Proof. intros Hm. unfold mbind, IO_bind. by rewrite Hm. Qed.

Lemma scanned_app t1 t2 : scanned (t1 ++ t2) = scanned t1 ++ scanned t2.
Proof. unfold scanned. apply omap_app. Qed.

Lemma writes_of_app t1 t2 : writes_of (t1 ++ t2) = writes_of t1 ++ writes_of t2.
Proof. unfold writes_of. apply omap_app. Qed.

Lemma flat_map_filter {A} (p : A → bool) (l : list A) :
  flat_map (fun x => if p x then [x] else []) l = List.filter p l.
Proof.
  induction l as [|x l IH]; [done|]. cbn. rewrite IH. by destruct (p x).
Qed.

Lemma is_file_not_dir d fp : is_file_in d fp = true → is_dir_in d fp = false.
Proof. unfold is_file_in, is_dir_in. by destruct (d !! fp) as [[]|]. Qed.

Lemma iterdir_Dir fp w :
  disk w !! fp = Some Dir → iterdir fp w = (Ok (children fp (disk w)), w).
Proof. intros Hd. unfold iterdir. by rewrite Hd. Qed.

Lemma is_dir_spec fp w : is_dir fp w = (Ok (is_dir_in (disk w) fp), w).
Proof. reflexivity. Qed.

Lemma is_file_spec fp w : is_file fp w = (Ok (is_file_in (disk w) fp), w).
Proof. reflexivity. Qed.

(** ** The parts of a walk *)

Lemma walk_run_ok_impl d0 plan (ok ok' : Prop) m :
  (ok' → ok) → walk_run d0 plan ok m → walk_run d0 plan ok' m.
Proof.
  intros Himpl Hm w Hw.
  destruct (Hm w Hw) as (r & w' & t & Hrun & Hs & Ht & Hp & Hall & Hok & Hd & Hwr).
  exists r, w', t. repeat (split; [done|]). split; [auto|done].
Qed.

Lemma walk_run_ret d0 : walk_run d0 [] True (mret tt).
Proof.
  intros w Hw. exists (Ok tt), w, []. rewrite app_nil_r.
  split; [done|]. split; [done|]. split; [done|]. split; [done|].
  split; [done|]. split; [done|]. split; [done|].
  intros p Hp. by apply elem_of_nil in Hp.
Qed.

(** A part that raises at once, the world being as it was. *)
Lemma walk_run_raise d0 plan (m : IO unit) :
  (∀ w, shape (disk w) = shape d0 → ∃ e, m w = (Raise e, w)) →
  walk_run d0 plan False m.
Proof.
  intros Hm w Hw. destruct (Hm w Hw) as (e & Hrun).
  exists (Raise e), w, []. rewrite app_nil_r.
  split; [done|]. split; [done|]. split; [done|]. split; [apply prefix_nil|].
  split; [done|]. split; [done|]. split; [done|].
  intros p Hp. by apply elem_of_nil in Hp.
Qed.

(** One part after another: the second runs when the first has returned. *)
Lemma walk_run_seq d0 p1 p2 (ok1 ok2 : Prop) (m1 m2 : IO unit) :
  walk_run d0 p1 ok1 m1 → walk_run d0 p2 ok2 m2 →
  walk_run d0 (p1 ++ p2) (ok1 ∧ ok2) (_ ← m1; m2).
Proof.
  intros H1 H2 w Hw.
  destruct (H1 w Hw) as (r1 & w1 & t1 & Hrun1 & Hs1 & Ht1 & Hp1 & Hall1 & Hok1 & Hd1 & Hw1).
  destruct r1 as [[]|e].
  - destruct (H2 w1 Hs1)
      as (r2 & w2 & t2 & Hrun2 & Hs2 & Ht2 & Hp2 & Hall2 & Hok2 & Hd2 & Hw2).
    exists r2, w2, (t1 ++ t2).
    split; [by rewrite (IO_bind_Ok _ _ _ _ _ Hrun1)|].
    split; [done|]. split; [by rewrite Ht2, Ht1, app_assoc|].
    rewrite scanned_app, writes_of_app, (Hall1 eq_refl).
    split; [by apply prefix_app|].
    split; [intros Hr; by rewrite (Hall2 Hr)|].
    split; [intros [_ Hok]; by apply Hok2|]. split.
    + intros p Hp. rewrite elem_of_app in Hp.
      rewrite Hd2, Hd1; [done | |]; intros Hin; apply Hp; auto.
    + intros p Hp. rewrite elem_of_app in Hp |- *.
      destruct Hp as [Hp|Hp].
      * apply Hw1 in Hp as [Hp Hf]. rewrite (Hall1 eq_refl) in Hp. auto.
      * apply Hw2 in Hp as [Hp Hf]. auto.
  - exists (Raise e), w1, t1.
    split; [unfold mbind, IO_bind; by rewrite Hrun1|].
    split; [done|]. split; [done|]. split; [by apply prefix_app_r|].
    split; [done|]. split; [intros [Hok _]; by apply Hok1|]. split; [done|].
    intros p Hp. apply Hw1 in Hp as [Hp Hf]. done.
Qed.

(** A loop of the walk: the turns one after another, up to the first that
    raises. *)
Lemma for_io_run d0 (body : Path → IO unit) (f : Path → list Path)
    (ok : Path → Prop) cs :
  (∀ c, c ∈ cs → walk_run d0 (f c) (ok c) (body c)) →
  walk_run d0 (flat_map f cs) (∀ c, c ∈ cs → ok c) (for_io cs body).
Proof.
  induction cs as [|c cs IH]; intros Hbody.
  - eapply walk_run_ok_impl; [|apply walk_run_ret]. done.
  - cbn [for_io flat_map].
    eapply walk_run_ok_impl; [|apply walk_run_seq; [apply Hbody; left | apply IH]].
    + intros Hok. split; [apply Hok; left|]. intros c' Hc'. apply Hok. by right.
    + intros c' Hc'. apply Hbody. by right.
Qed.

(** The listing of [fp]: the children, for a directory; an exception
    otherwise. *)
Lemma walk_run_iterdir d0 fp plan (ok : Prop) (k : list Path → IO unit) :
  (d0 !! fp = Some Dir → walk_run d0 plan ok (k (children fp d0))) →
  walk_run d0 plan (d0 !! fp = Some Dir ∧ ok) (cs ← iterdir fp; k cs).
Proof.
  intros Hk. destruct (decide (d0 !! fp = Some Dir)) as [Hdir|Hnot].
  - intros w Hw.
    assert (Hdirw : disk w !! fp = Some Dir) by (by eapply shape_Dir).
    rewrite (IO_bind_Ok _ _ _ _ _ (iterdir_Dir fp w Hdirw)).
    rewrite (shape_children _ _ fp Hw).
    destruct (Hk Hdir w Hw) as (r & w' & t & Hrun & Hs & Ht & Hp & Hall & Hok & Hrest).
    exists r, w', t. repeat (split; [done|]). split; [|done].
    intros [_ Hokk]. by apply Hok.
  - eapply walk_run_ok_impl; [|apply walk_run_raise].
    + by intros [Hdir _].
    + intros w Hw. pose proof (shape_lookup _ _ fp Hw) as Hl.
      unfold mbind, IO_bind, iterdir.
      destruct (disk w !! fp) as [[]|], (d0 !! fp) as [[]|]; try done; by eexists.
Qed.

Lemma walk_run_is_dir d0 c plan (ok : Prop) (k : bool → IO unit) :
  walk_run d0 plan ok (k (is_dir_in d0 c)) →
  walk_run d0 plan ok (d ← is_dir c; k d).
Proof.
  intros Hk w Hw. rewrite (IO_bind_Ok _ _ _ _ _ (is_dir_spec c w)).
  rewrite (shape_is_dir_in _ _ c Hw). by apply Hk.
Qed.

Lemma walk_run_is_file d0 c plan (ok : Prop) (k : bool → IO unit) :
  walk_run d0 plan ok (k (is_file_in d0 c)) →
  walk_run d0 plan ok (f ← is_file c; k f).
Proof.
  intros Hk w Hw. rewrite (IO_bind_Ok _ _ _ _ _ (is_file_spec c w)).
  rewrite (shape_is_file_in _ _ c Hw). by apply Hk.
Qed.

Section Walk.
Context `{Codecs}.

(** The wrapper returns normally whatever [scan_file] does; an exception is
    traded for two prints, the line with the path and the traceback. *)
Lemma scan_file_safe_spec fp w :
  scan_file_safe fp w =
  match scan_file fp w with
  | (Ok a, w1) => (Ok a, w1)
  | (Raise e, w1) =>
      (Ok tt, World (disk w1) (trace w1 ++ [EvPrint (error_line fp); EvPrintExc e]))
  end.
Proof.
  unfold scan_file_safe, try_except.
  destruct (scan_file fp w) as [[a|e] w1]; [done|].
  unfold mbind, IO_bind, print, print_exc, log. cbn [disk trace].
  by rewrite <- app_assoc.
Qed.

(** [scan_file] opens [fp] first, whatever [fp] is, and opens no other path.
    It keeps the shape of the disk, leaves every other path as it was, and
    writes nothing, or to [fp] alone, which is then a file. *)
Lemma scan_file_run fp w :
  ∃ r d' t, scan_file fp w = (r, World d' (trace w ++ EvRead4 fp :: t))
            ∧ shape d' = shape (disk w) ∧ scanned t = []
            ∧ (∀ p, p ≠ fp → d' !! p = disk w !! p)
            ∧ (writes_of t = [] ∧ d' = disk w
               ∨ writes_of t = [fp] ∧ is_file_in (disk w) fp = true).
Proof.
  rewrite scan_file_spec.
  assert (Hquiet : ∀ (r : result unit) t,
            scanned t = [] → writes_of t = [] →
            ∃ r' d' t', (r, World (disk w) (trace w ++ EvRead4 fp :: t))
                        = (r', World d' (trace w ++ EvRead4 fp :: t'))
                        ∧ shape d' = shape (disk w) ∧ scanned t' = []
                        ∧ (∀ p, p ≠ fp → d' !! p = disk w !! p)
                        ∧ (writes_of t' = [] ∧ d' = disk w
                           ∨ writes_of t' = [fp] ∧ is_file_in (disk w) fp = true)).
  { intros r t Hsc Hwr. exists r, (disk w), t. auto 10. }
  destruct (disk w !! fp) as [[content| |]|] eqn:Hfp;
    [|by apply (Hquiet _ [])..].
  destruct (sniff (take 4 content)) as [s|e]; [|by apply (Hquiet _ [])].
  destruct s;
    try (by apply (Hquiet _ []));
    (destruct (areas_of_content content) as [[[[[c u8] tf] taf]|]|e];
     [destruct (decide (0 < tf))| |]);
    try (by apply (Hquiet _ [EvReadBytes fp]));
    (eexists _, _, [EvReadBytes fp; _; _]; split; [done|];
     split; [by eapply shape_insert_file|]; split; [done|];
     split; [by intros p Hp; apply lookup_insert_ne|];
     right; split; [done|]; unfold is_file_in; by rewrite Hfp).
Qed.

(** The wrapper, as a part of a walk: one call of [scan_file], and a normal
    return. *)
Lemma scan_file_safe_run d0 fp : walk_run d0 [fp] True (scan_file_safe fp).
Proof.
  intros w Hw. rewrite scan_file_safe_spec.
  destruct (scan_file_run fp w) as (r & d' & t & -> & Hs & Hsc & Hd & Hwr).
  assert (Hgen : ∀ t2, scanned t2 = [] → writes_of t2 = [] →
            scanned (EvRead4 fp :: t ++ t2) = [fp]
            ∧ (∀ p, p ∉ writes_of (EvRead4 fp :: t ++ t2) → d' !! p = disk w !! p)
            ∧ (∀ p, p ∈ writes_of (EvRead4 fp :: t ++ t2) →
                    p ∈ [fp] ∧ is_file_in d0 p = true)).
  { intros t2 Hsc2 Hwr2.
    change (EvRead4 fp :: t ++ t2) with ([EvRead4 fp] ++ t ++ t2).
    rewrite !scanned_app, !writes_of_app, Hsc, Hsc2, Hwr2.
    change (scanned [EvRead4 fp]) with [fp].
    change (writes_of [EvRead4 fp]) with (@nil Path).
    rewrite !app_nil_l, !app_nil_r. split; [done|].
    destruct Hwr as [[-> ->]|[-> Hf]].
    - split; [done|]. intros p Hp. by apply elem_of_nil in Hp.
    - split.
      + intros p Hp. apply Hd. intros ->. apply Hp. left.
      + intros p Hp. split; [done|]. apply list_elem_of_singleton in Hp as ->.
        by rewrite <- (shape_is_file_in _ _ fp Hw). }
  destruct r as [[]|e].
  - destruct (Hgen [] eq_refl eq_refl) as (Hg1 & Hg2 & Hg3).
    rewrite app_nil_r in Hg1, Hg2, Hg3.
    exists (Ok tt), (World d' (trace w ++ EvRead4 fp :: t)), (EvRead4 fp :: t).
    split; [done|]. split; [by rewrite <- Hw|]. split; [done|].
    rewrite Hg1. split; [done|]. split; [done|]. split; [done|]. done.
  - destruct (Hgen [EvPrint (error_line fp); EvPrintExc e] eq_refl eq_refl)
      as (Hg1 & Hg2 & Hg3).
    eexists (Ok tt), _, (EvRead4 fp :: t ++ [EvPrint (error_line fp); EvPrintExc e]).
    split; [done|]. cbn [disk trace].
    split; [by rewrite <- Hw|]. split; [by rewrite <- app_assoc|].
    rewrite Hg1. split; [done|]. split; [done|]. split; [done|]. done.
Qed.

(** On anything but a directory [scan_folder] raises at once. *)
Lemma scan_folder_not_dir d0 depth fp recursive plan :
  d0 !! fp ≠ Some Dir → walk_run d0 plan False (scan_folder depth fp recursive).
Proof.
  intros Hnot. destruct depth as [|n].
  - apply walk_run_raise. intros w _. by eexists.
  - cbn [scan_folder].
    apply (walk_run_ok_impl d0 plan (d0 !! fp = Some Dir ∧ True)); [by intros []|].
    apply walk_run_iterdir. by intros Hdir.
Qed.

(** A child of a directory of a plain tree is a file, or a directory whose
    tree is plain, one level less deep. *)
Lemma plain_tree_child n d fp c :
  plain_tree (S n) d fp → c ∈ sorted (children fp d) →
  is_file_in d c = true
  ∨ (d !! c = Some Dir ∧ 1 ≤ n ∧ plain_tree n d c).
Proof.
  intros Hplain Hc. apply elem_of_sorted_children in Hc as [[e He] (nm & ->)].
  destruct e as [content| |].
  - left. unfold is_file_in. by rewrite He.
  - right. split; [done|].
    destruct (Hplain [nm]) as [Hdeep _]. specialize (Hdeep He). cbn in Hdeep.
    split; [lia|]. intros rest. rewrite <- app_assoc.
    destruct (Hplain ([nm] ++ rest)) as [Hd Ho]. split; [|done].
    intros Hdir. specialize (Hd Hdir). cbn in Hd. lia.
  - by destruct (Hplain [nm]) as [_ Ho].
Qed.

(** The walk, whatever the disk holds and however it ends: it keeps the
    shape of the disk; it calls [scan_file] on the paths of [level_files], in
    order, up to the point where it stops; it changes only files that it has
    scanned. It runs to its end on a directory when it is not recursive, and
    when it is, on a plain tree. *)
Lemma scan_folder_run depth : ∀ d0 fp recursive,
  walk_run d0 (level_files depth d0 fp recursive)
           (d0 !! fp = Some Dir ∧ 1 ≤ depth
            ∧ (recursive = true → plain_tree depth d0 fp))
           (scan_folder depth fp recursive).
Proof.
  induction depth as [|n IH]; intros d0 fp recursive.
  { eapply walk_run_ok_impl; [|apply walk_run_raise].
    - intros (_ & ? & _). lia.
    - intros w _. by eexists. }
  cbn [scan_folder level_files]. rewrite <- flat_map_filter.
  set (cs := sorted (children fp d0)).
  pose (ok2 := fun c => is_file_in d0 c = true
                        ∨ (d0 !! c = Some Dir ∧ 1 ≤ n ∧ plain_tree n d0 c)).
  apply (walk_run_ok_impl d0 _
           (d0 !! fp = Some Dir
            ∧ ((∀ c, c ∈ cs → True)
               ∧ (if recursive
                  then d0 !! fp = Some Dir ∧ ∀ c, c ∈ cs → ok2 c
                  else True)))).
  { (* when the walk runs to its end *)
    intros (Hdir & _ & Hplain). split; [done|]. split; [done|].
    destruct recursive; [|done]. split; [done|].
    intros c Hc. by apply (plain_tree_child n d0 fp c (Hplain eq_refl)). }
  apply walk_run_iterdir. intros Hdir. fold cs. apply walk_run_seq.
  - (* the files of the directory *)
    apply (for_io_run d0 _ _ (fun _ => True)).
    intros c Hc. apply walk_run_is_dir.
    destruct (is_dir_in d0 c); cbn [negb andb]; [apply walk_run_ret|].
    destruct (does_path_look_like_level c);
      [apply scan_file_safe_run | apply walk_run_ret].
  - (* the directories below *)
    destruct recursive; [|apply walk_run_ret].
    apply walk_run_iterdir. intros _. fold cs.
    apply (for_io_run d0 _ _ ok2).
    intros c Hc. apply walk_run_is_file. unfold ok2.
    destruct (is_file_in d0 c) eqn:Hf.
    + rewrite (is_file_not_dir _ _ Hf).
      eapply walk_run_ok_impl; [|apply walk_run_ret]. done.
    + destruct (is_dir_in d0 c) eqn:Hd.
      * eapply walk_run_ok_impl; [|apply IH].
        intros [?|(? & ? & ?)]; [done|]. done.
      * eapply walk_run_ok_impl; [|apply scan_folder_not_dir].
        -- intros [?|(Hc' & _)]; [done|].
           unfold is_dir_in in Hd. by rewrite Hc' in Hd.
        -- intros Hc'. unfold is_dir_in in Hd. by rewrite Hc' in Hd.
Qed.

(** The same, from the world the walk starts in. *)
Lemma scan_folder_spec depth fp recursive w :
  ∃ r w' t,
    scan_folder depth fp recursive w = (r, w')
    ∧ shape (disk w') = shape (disk w)
    ∧ trace w' = trace w ++ t
    ∧ scanned t `prefix_of` level_files depth (disk w) fp recursive
    ∧ (r = Ok tt → scanned t = level_files depth (disk w) fp recursive)
    ∧ (disk w !! fp = Some Dir → 1 ≤ depth →
       (recursive = true → plain_tree depth (disk w) fp) → r = Ok tt)
    ∧ (∀ p, p ∉ writes_of t → disk w' !! p = disk w !! p)
    ∧ (∀ p, p ∈ writes_of t → p ∈ scanned t ∧ is_file_in (disk w) p = true).
Proof.
  destruct (scan_folder_run depth (disk w) fp recursive w eq_refl)
    as (r & w' & t & Hrun & Hs & Ht & Hp & Hall & Hok & Hd & Hwr).
  exists r, w', t. repeat (split; [done|]). split; [|done].
  intros Hdir Hdepth Hplain. by apply Hok.
Qed.

(** A walk that runs to its end. *)
Lemma scan_folder_Ok depth fp recursive w :
  disk w !! fp = Some Dir → 1 ≤ depth →
  (recursive = true → plain_tree depth (disk w) fp) →
  ∃ w' t, scan_folder depth fp recursive w = (Ok tt, w')
          ∧ shape (disk w') = shape (disk w)
          ∧ trace w' = trace w ++ t
          ∧ scanned t = level_files depth (disk w) fp recursive.
Proof.
  intros Hdir Hdepth Hplain.
  destruct (scan_folder_spec depth fp recursive w)
    as (r & w' & t & Hrun & Hs & Ht & _ & Hall & Hok & _).
  specialize (Hok Hdir Hdepth Hplain). subst r.
  exists w', t. by rewrite Hall.
Qed.

End Walk.

(** ** The file-name filter *)

Lemma name_snoc dir n : name (dir ++ [n]) = n.
Proof. unfold name. apply last_last. Qed.

Lemma does_path_look_like_level_spec fp :
  does_path_look_like_level fp = true ↔
  lower (suffix fp) = ".arc"%string
  ∨ (2 ≤ length (suffixes fp)
     ∧ lower (from_end (suffixes fp) 2) = ".arc"%string
     ∧ lower (from_end (suffixes fp) 1) = ".lz"%string).
Proof.
  unfold does_path_look_like_level.
  destruct (String.eqb_spec (lower (suffix fp)) ".arc") as [E1|E1]; [by split; auto|].
  destruct (Nat.leb_spec 2 (length (suffixes fp))) as [L|L]; cbn [andb].
  - destruct (String.eqb_spec (lower (from_end (suffixes fp) 2)) ".arc") as [E2|E2];
      cbn [andb].
    + destruct (String.eqb_spec (lower (from_end (suffixes fp) 1)) ".lz") as [E3|E3].
      * split; auto.
      * split; [done|]. intros [?|(_ & _ & ?)]; done.
    + split; [done|]. intros [?|(_ & ? & _)]; done.
  - split; [done|]. intros [?|(? & _)]; [done|lia].
Qed.

(** The letters that [lower] sends to a given lower-case letter. *)
Lemma lower_ascii_inv c x :
  lower_ascii c = x →
  c = x ∨ (c = ascii_of_nat (nat_of_ascii x - 32)
           ∧ 97 ≤ nat_of_ascii x ≤ 122).
Proof.
  intros <-. destruct c as [[] [] [] [] [] [] [] []];
    vm_compute; first [by left | right; split; [reflexivity | lia]].
Qed.

Lemma lower_cons_inv s x t :
  lower s = String x t →
  ∃ c s', s = String c s' ∧ lower s' = t
          ∧ (c = x ∨ (c = ascii_of_nat (nat_of_ascii x - 32)
                      ∧ 97 ≤ nat_of_ascii x ≤ 122)).
Proof.
  destruct s as [|c s']; [done|]. cbn [lower]. intros [= Hc Ht].
  exists c, s'. split; [done|]. split; [done|]. by apply lower_ascii_inv.
Qed.

Lemma lower_nil_inv s : lower s = EmptyString → s = EmptyString.
Proof. by destruct s. Qed.

(** Peel the characters of a name whose [lower] is a given string. *)
Ltac lower_cases H :=
  repeat (let c := fresh "c" in let s := fresh "s" in let Hc := fresh "Hc" in
          apply lower_cons_inv in H as (c & s & -> & H & Hc);
          destruct Hc as [-> | [-> Hc]]; [|try (vm_compute in Hc; lia)]);
  apply lower_nil_inv in H as ->.

Lemma dot_names_rejected dir n :
  lower n = ".arc"%string ∨ lower n = ".arc.lz"%string →
  does_path_look_like_level (dir ++ [n]) = false.
Proof.
  unfold does_path_look_like_level, suffix, suffixes. rewrite name_snoc.
  intros [Hn | Hn]; lower_cases Hn; vm_compute; reflexivity.
Qed.

(** C10: a file whose whole name is [.arc] or [.arc.lz], in any mix of
    capitals, in any directory, is not taken for a level: pathlib reads a
    leading dot as the mark of a hidden file, not as the start of a suffix. *)
Theorem leading_dot_names_rejected dir n :
  lower n = ".arc"%string ∨ lower n = ".arc.lz"%string →
  does_path_look_like_level (dir ++ [n]) = false
  ∧ suffix (dir ++ [n]) ≠ n
  ∧ length (suffixes (dir ++ [n])) < 2.
Proof.
  intros Hn. split; [by apply dot_names_rejected|].
  unfold suffix, suffixes. rewrite name_snoc.
  destruct Hn as [Hn | Hn]; lower_cases Hn; (split; [discriminate | vm_compute; lia]).
Qed.

Lemma leading_dot_names_rejected_witness :
  (lower ".arc.lz" = ".arc"%string ∨ lower ".arc.lz" = ".arc.lz"%string)
  ∧ does_path_look_like_level (["dir"%string] ++ [".arc.lz"%string]) = false
  ∧ suffix (["dir"%string] ++ [".arc.lz"%string]) ≠ ".arc.lz"%string
  ∧ length (suffixes (["dir"%string] ++ [".arc.lz"%string])) < 2.
Proof.
  assert (H : lower ".arc.lz" = ".arc"%string ∨ lower ".arc.lz" = ".arc.lz"%string)
    by (right; reflexivity).
  split; [exact H|].
  exact (leading_dot_names_rejected ["dir"%string] ".arc.lz"%string H).
Defined.

(** A name with a second leading dot has [.arc] for its suffix and is taken. *)
Example two_dots_arc : does_path_look_like_level ["..arc"%string] = true.
Proof. reflexivity. Qed.

(** ** The scenario of the walk *)

Lemma scenario_disk_dirs ca cb cc cd p :
  scenario_disk ca cb cc cd !! p = Some Dir →
  p = ["dir"%string] ∨ p = ["dir"; "sub"]%string.
Proof.
  intros Hp. unfold scenario_disk in Hp.
  apply elem_of_list_to_map_2 in Hp.
  repeat (apply elem_of_cons in Hp as [Hp|Hp]; [simplify_eq; auto|]).
  by apply elem_of_nil in Hp.
Qed.

Lemma scenario_disk_plain ca cb cc cd depth :
  2 ≤ depth → plain_tree depth (scenario_disk ca cb cc cd) ["dir"%string].
Proof.
  intros Hdepth rest. split.
  - intros Hp. apply scenario_disk_dirs in Hp as [Hp|Hp];
      cbn in Hp; simplify_eq; cbn; lia.
  - intros Hp. unfold scenario_disk in Hp.
    apply elem_of_list_to_map_2 in Hp.
    repeat (apply elem_of_cons in Hp as [Hp|Hp]; [simplify_eq|]).
    by apply elem_of_nil in Hp.
Qed.

(** C7: the filter takes a path exactly when its last suffix is [.arc], or
    its last two suffixes are [.arc] and [.lz], capitals apart. In the
    directory of the scenario a walk that is not recursive scans [a.arc] and
    [b.ARC.LZ] and nothing else, and a recursive walk scans [sub/d.arc] after
    them, whatever the files hold and whatever the codecs do. *)
Theorem level_filter_and_walk :
  (∀ fp, does_path_look_like_level fp = true ↔
         lower (suffix fp) = ".arc"%string
         ∨ (2 ≤ length (suffixes fp)
            ∧ lower (from_end (suffixes fp) 2) = ".arc"%string
            ∧ lower (from_end (suffixes fp) 1) = ".lz"%string))
  ∧ ∀ (codecs : Codecs) ca cb cc cd t0 depth,
      2 ≤ depth →
      let w := World (scenario_disk ca cb cc cd) t0 in
      (∃ w', scan_folder depth ["dir"%string] false w = (Ok tt, w')
             ∧ scanned (new_events w w')
               = [["dir"; "a.arc"]; ["dir"; "b.ARC.LZ"]]%string)
      ∧ (∃ w', scan_folder depth ["dir"%string] true w = (Ok tt, w')
               ∧ scanned (new_events w w')
                 = [["dir"; "a.arc"]; ["dir"; "b.ARC.LZ"];
                    ["dir"; "sub"; "d.arc"]]%string).
Proof.
  split; [apply does_path_look_like_level_spec|].
  intros codecs ca cb cc cd t0 depth Hdepth w.
  split.
  - destruct (scan_folder_Ok depth ["dir"%string] false w)
      as (w' & t & Hrun & _ & Ht & Hsc); [done | lia | done |].
    exists w'. split; [done|]. unfold new_events. rewrite Ht, drop_app_length, Hsc.
    destruct depth as [|depth]; [lia|]. vm_compute. reflexivity.
  - destruct (scan_folder_Ok depth ["dir"%string] true w)
      as (w' & t & Hrun & _ & Ht & Hsc);
      [done | lia | by intros _; apply scenario_disk_plain |].
    exists w'. split; [done|]. unfold new_events. rewrite Ht, drop_app_length, Hsc.
    destruct depth as [|[|depth]]; [lia | lia |]. vm_compute. reflexivity.
Qed.

(** ** Failures: caught in a walk, not for a single file *)

Section Failures.
Context `{Codecs}.

Lemma main_file depth fp recursive w content :
  disk w !! fp = Some (File content) →
  main depth fp recursive w = scan_file fp (World (disk w) (trace w ++ [EvPrint banner])).
Proof.
  intros Hfp. unfold main, mbind, IO_bind, print, log, is_file. cbn [disk trace].
  by rewrite Hfp.
Qed.

(** A present slot on which the patcher raises makes [scan_file] raise after
    the two reads, with nothing written. *)
Lemma scan_file_bad_slot fp w content c u8 course i e0 :
  disk w !! fp = Some (File content) →
  container_of content = Ok (Some (c, u8)) →
  keys u8 = ["course"%string] →
  getitem u8 "course" = Ok (U8Folder course) →
  i ∈ seq 1 4 → slot_name i ∈ keys course → slot_result course i = Raise e0 →
  ∃ e, scan_file fp w =
       (Raise e, World (disk w) (trace w ++ [EvRead4 fp; EvReadBytes fp])).
Proof.
  intros Hfp Hc Hk Hg Hi Hik Hr.
  destruct (fix_areas_loop_raises course (seq 1 4) slot_names_NoDup) with
    (c := course) (tf := 0) (taf := 0) as (e & He); [by exists i, e0 | done | done |].
  assert (Ha : areas_of_content content = Raise e).
  { unfold areas_of_content. rewrite Hc. cbn [mbind result_bind].
    unfold areas_of_container. rewrite decide_False by (by intros ?).
    rewrite Hg. cbn [mbind result_bind fix_areas]. by rewrite He. }
  exists e. rewrite scan_file_spec, Hfp, Ha.
  unfold container_of in Hc.
  destruct (sniff (take 4 content)) as [[]|]; done.
Qed.

End Failures.

(** C8: the wrapper around [scan_file] returns normally; when [scan_file]
    raises, the wrapper prints the line that names the path,
    [ERROR while checking "<path>":], and the traceback. So a walk of a
    directory that is not recursive returns normally and calls [scan_file] on
    every candidate, whatever the entries are and whatever happens in each;
    so does a recursive walk over a tree of files and directories. [main] on
    the path of a file calls [scan_file] itself: what it raises, [main]
    raises. *)
Theorem walk_isolates_failures (codecs : Codecs) :
  (∀ fp w, ∃ w',
      scan_file_safe fp w = (Ok tt, w')
      ∧ ∀ e w1, scan_file fp w = (Raise e, w1) →
                w' = World (disk w1)
                           (trace w1 ++
                            [EvPrint ("ERROR while checking " +:+ dq
                                      +:+ str_of_path fp +:+ dq +:+ ":")%string;
                             EvPrintExc e]))
  ∧ (∀ depth fp recursive w,
       disk w !! fp = Some Dir →
       1 ≤ depth →
       (recursive = true → plain_tree depth (disk w) fp) →
       ∃ w', scan_folder depth fp recursive w = (Ok tt, w')
             ∧ scanned (new_events w w') = level_files depth (disk w) fp recursive)
  ∧ (∀ depth fp recursive w content e w1,
       disk w !! fp = Some (File content) →
       scan_file fp (World (disk w) (trace w ++ [EvPrint banner])) = (Raise e, w1) →
       main depth fp recursive w = (Raise e, w1)).
Proof.
  split; [|split].
  - intros fp w. rewrite scan_file_safe_spec.
    destruct (scan_file fp w) as [[[]|e] w1].
    + exists w1. split; [done|]. intros e w2 [=].
    + eexists. split; [done|]. by intros e' w2 [= <- <-].
  - intros depth fp recursive w Hdir Hdepth Hplain.
    destruct (scan_folder_Ok depth fp recursive w Hdir Hdepth Hplain)
      as (w' & t & Hrun & _ & Ht & Hsc).
    exists w'. split; [done|]. unfold new_events. by rewrite Ht, drop_app_length.
  - intros depth fp recursive w content e w1 Hfp Hrun.
    by rewrite (main_file depth fp recursive w content Hfp).
Qed.

(** In [broken_disk] the empty [a.arc] makes [scan_file] raise [IndexError].
    The walk prints it and goes on to fix [b.arc]. *)
Example walk_goes_on :
  ∃ d patched,
    scan_folder (H := toy_codecs) 1 ["dir"%string] false (World broken_disk []) =
    (Ok tt,
     World d [EvRead4 ["dir"; "a.arc"]%string;
              EvPrint (String.append "ERROR while checking "
                         (String "034"%char
                            (String.append "dir/a.arc" (String "034"%char ":"))));
              EvPrintExc IndexError;
              EvRead4 ["dir"; "b.arc"]%string; EvReadBytes ["dir"; "b.arc"]%string;
              EvPrint "Fixed 1 zone in 1 area in dir/b.arc";
              EvWriteBytes ["dir"; "b.arc"]%string patched]).
Proof. eexists _, _. vm_compute. reflexivity. Qed.

(** In [odd_disk] the entry [ghost.arc] is neither a file nor a directory.
    A walk that is not recursive calls [scan_file] on it, the open raises, the
    wrapper prints it, and the walk returns. *)
Example walk_catches_other :
  ∃ w', scan_folder (H := toy_codecs) 1 ["dir"%string] false (World odd_disk [])
        = (Ok tt, w')
        ∧ scanned (trace w')
          = [["dir"; "a.arc"]; ["dir"; "b.arc"]; ["dir"; "ghost.arc"]]%string
        ∧ drop 7 (trace w')
          = [EvRead4 ["dir"; "ghost.arc"]%string;
             EvPrint (String.append "ERROR while checking "
                        (String "034"%char
                           (String.append "dir/ghost.arc" (String "034"%char ":"))));
             EvPrintExc OSError].
Proof. eexists. split; [vm_compute; reflexivity|]. split; reflexivity. Qed.

(** A recursive walk of [odd_disk] scans the same files and then takes
    [ghost.arc], which is not a file, for a directory: the listing raises,
    outside the wrapper, and the exception leaves the walk and [main]. *)
Example recursive_walk_raises_on_other :
  ∃ w', scan_folder (H := toy_codecs) 2 ["dir"%string] true (World odd_disk [])
        = (Raise OSError, w')
        ∧ scanned (trace w')
          = [["dir"; "a.arc"]; ["dir"; "b.arc"]; ["dir"; "ghost.arc"]]%string
        ∧ (main (H := toy_codecs) 2 ["dir"%string] true (World odd_disk [])).1
          = Raise OSError.
Proof. eexists. split; [vm_compute; reflexivity|]. split; reflexivity. Qed.

(** In [named_disk] the directory [pack.arc] looks like a level. No walk
    calls [scan_file] on it; a recursive walk scans the file inside. *)
Example walk_skips_directory_named_like_level :
  (∃ w', scan_folder (H := toy_codecs) 2 ["dir"%string] false (World named_disk [])
         = (Ok tt, w') ∧ scanned (trace w') = [])
  ∧ (∃ w', scan_folder (H := toy_codecs) 2 ["dir"%string] true (World named_disk [])
           = (Ok tt, w')
           ∧ scanned (trace w') = [["dir"; "pack.arc"; "x.arc"]%string]).
Proof. split; eexists; (split; [vm_compute; reflexivity | reflexivity]). Qed.

(** [main] on the empty file alone ends with the exception. *)
Example main_single_file_raises :
  (main (H := toy_codecs) 1 ["dir"; "a.arc"]%string false (World broken_disk [])).1
  = Raise IndexError.
Proof. vm_compute. reflexivity. Qed.

(** C9: a slot shorter than 0x50 bytes, or whose header puts the flag of some
    record outside the buffer, makes the patcher raise [struct.error]:
    nothing is returned and nothing is clamped. In a file, such a slot makes
    [scan_file] raise; the wrapper prints the error and the file is not
    written. *)
Theorem fix_course_file_raises_outside data :
  (length data < 0x50
   ∨ ∃ i, i < record_count data ∧ length data < flag_pos data i + 2) →
  fix_course_file data = Raise struct_error
  ∧ ∀ (codecs : Codecs) fp w content c u8 course i,
      disk w !! fp = Some (File content) →
      container_of content = Ok (Some (c, u8)) →
      keys u8 = ["course"%string] →
      getitem u8 "course" = Ok (U8Folder course) →
      i ∈ seq 1 4 →
      getitem course (slot_name i) = Ok (U8File data) →
      ∃ e, scan_file fp w =
             (Raise e, World (disk w) (trace w ++ [EvRead4 fp; EvReadBytes fp]))
           ∧ scan_file_safe fp w =
             (Ok tt, World (disk w)
                       (trace w ++ [EvRead4 fp; EvReadBytes fp;
                                    EvPrint (error_line fp); EvPrintExc e])).
Proof.
  intros Hout.
  assert (Hraise : fix_course_file data = Raise struct_error).
  { apply fix_course_file_out_of_range. intros [Hhdr Hin].
    destruct Hout as [Hshort | (i & Hi & Hfar)]; [lia|].
    specialize (Hin i Hi). lia. }
  split; [done|].
  intros codecs fp w content c u8 course i Hfp Hc Hk Hg Hi Hslot.
  destruct (scan_file_bad_slot fp w content c u8 course i struct_error)
    as (e & Hrun); try done.
  - by apply getitem_Ok_in_keys in Hslot.
  - unfold slot_result. rewrite Hslot. cbn [mbind result_bind bytearray_of]. done.
  - exists e. split; [done|]. rewrite scan_file_safe_spec, Hrun. cbn [disk trace].
    by rewrite <- app_assoc.
Qed.

Lemma fix_course_file_raises_outside_witness :
  (length slot_outside < 0x50
   ∨ ∃ i, i < record_count slot_outside
          ∧ length slot_outside < flag_pos slot_outside i + 2)
  ∧ fix_course_file slot_outside = Raise struct_error.
Proof.
  assert (H : length slot_outside < 0x50
              ∨ ∃ i, i < record_count slot_outside
                     ∧ length slot_outside < flag_pos slot_outside i + 2).
  { right. exists 0. split; vm_compute; lia. }
  split; [exact H|].
  exact (proj1 (fix_course_file_raises_outside slot_outside H)).
Defined.

(** ** Running the pipeline twice *)

Lemma slot_bytes_patched_course course i :
  i ∈ seq 1 4 →
  slot_bytes (patched_course course) i =
  if decide (0 < slot_fixes course i) then Some (slot_patched course i)
  else slot_bytes course i.
Proof.
  intros Hi. unfold slot_bytes at 1, patched_course.
  rewrite getitem_patch_slots_slot by (apply slot_names_NoDup || done).
  by destruct (decide (0 < slot_fixes course i)).
Qed.

Lemma slot_fixes_pos_bytes course i :
  0 < slot_fixes course i → ∃ data, slot_bytes course i = Some data.
Proof.
  unfold slot_fixes. destruct (slot_bytes course i) as [data|]; [by exists data|].
  cbn. lia.
Qed.

(** Once patched, with the offsets kept, the course is in range and has no
    record to fix. *)
Lemma patched_course_clean course :
  slots_in_range course → offsets_kept course →
  slots_in_range (patched_course course)
  ∧ ∀ i, i ∈ seq 1 4 → slot_fixes (patched_course course) i = 0.
Proof.
  intros Hin Hkept.
  assert (Hagain : ∀ i data, i ∈ seq 1 4 → slot_bytes course i = Some data →
            fix_course_file (slot_patched course i) = Ok (slot_patched course i, 0)).
  { intros i data Hi Hb. pose proof (Hkept i data Hi Hb) as Hoff.
    pose proof (slots_in_range_bytes course i data Hin Hi Hb) as Hr.
    apply (fix_course_file_again data _ (slot_fixes course i)); [|done].
    unfold slot_patched, slot_fixes. rewrite Hb. cbn [from_option].
    by apply fix_course_file_in_range. }
  split.
  - intros i Hi Hk. unfold patched_course in Hk.
    rewrite keys_patch_slots in Hk by done.
    pose proof (slot_bytes_patched_course course i Hi) as Hb.
    unfold slot_bytes at 1 in Hb.
    destruct (decide (0 < slot_fixes course i)) as [Hp|Hp].
    + destruct (slot_fixes_pos_bytes course i Hp) as (data & Hdata).
      destruct (getitem (patched_course course) (slot_name i)) as [[d|]|];
        [|done|done].
      simplify_eq. exists (slot_patched course i). split; [done|].
      by eapply fix_course_file_Ok_in_range, Hagain.
    + destruct (Hin i Hi Hk) as (data & Hg & Hr). exists data. split; [|done].
      unfold slot_bytes in Hb. rewrite Hg in Hb.
      destruct (getitem (patched_course course) (slot_name i)) as [[d|]|];
        [|done|done].
      by simplify_eq.
  - intros i Hi. unfold slot_fixes at 1.
    rewrite slot_bytes_patched_course by done.
    destruct (decide (0 < slot_fixes course i)) as [Hp|Hp].
    + destruct (slot_fixes_pos_bytes course i Hp) as (data & Hdata).
      cbn [from_option].
      by destruct (fix_course_file_Ok_inv _ _ _ (Hagain i data Hi Hdata))
        as (_ & _ & <-).
    + fold (slot_fixes course i). lia.
Qed.

Section Twice.
Context `{Codecs}.

Lemma areas_of_container_in_range c u8 course :
  keys u8 = ["course"%string] →
  getitem u8 "course" = Ok (U8Folder course) →
  slots_in_range course →
  areas_of_container c u8 =
  Ok (Some (c, setitem u8 "course" (U8Folder (patched_course course)),
            sum_list (slot_fixes course <$> seq 1 4),
            length (filter (fun i => 0 < slot_fixes course i) (seq 1 4)))).
Proof.
  intros Hk Hg Hin. unfold areas_of_container.
  rewrite decide_False by (by intros ?). rewrite Hg. cbn [mbind result_bind].
  by rewrite fix_areas_in_range.
Qed.

(** A second run on what the first run has left, the codecs giving back the
    container they were given, finds nothing to fix and writes nothing. *)
Lemma scan_file_second_run fp w content c u8 course :
  disk w !! fp = Some (File content) →
  container_of content = Ok (Some (c, u8)) →
  keys u8 = ["course"%string] →
  getitem u8 "course" = Ok (U8Folder course) →
  slots_in_range course →
  offsets_kept course →
  (let u8' := setitem u8 "course" (U8Folder (patched_course course)) in
   container_of (encode c u8') = Ok (Some (c, u8'))) →
  let w1 := (scan_file fp w).2 in
  (scan_file fp w1).1 = Ok tt ∧ no_write w1 (scan_file fp w1).2.
Proof.
  intros Hfp Hc Hk Hg Hin Hkept Hround w1.
  set (u8' := setitem u8 "course" (U8Folder (patched_course course))) in *.
  destruct (patched_course_clean course Hin Hkept) as [Hin' Hz'].
  assert (Ha : areas_of_content content =
               Ok (Some (c, u8', sum_list (slot_fixes course <$> seq 1 4),
                         length (filter (fun i => 0 < slot_fixes course i) (seq 1 4))))).
  { unfold areas_of_content. rewrite Hc. cbn [mbind result_bind].
    by apply areas_of_container_in_range. }
  assert (Hs : sniff (take 4 content) = Ok Uncompressed
               ∨ sniff (take 4 content) = Ok LZ11).
  { unfold container_of in Hc. destruct (sniff (take 4 content)) as [[]|]; auto; done. }
  assert (Hclean : ∀ w0 content0,
            disk w0 !! fp = Some (File content0) →
            (∀ c0 u0 tf taf, areas_of_content content0 = Ok (Some (c0, u0, tf, taf)) →
                             tf = 0) →
            (∃ x, areas_of_content content0 = Ok x) →
            (scan_file fp w0).1 = Ok tt ∧ no_write w0 (scan_file fp w0).2).
  { intros w0 content0 Hfp0 Hz (x & Hx). split.
    - rewrite scan_file_spec, Hfp0.
      pose proof Hx as Hx'. unfold areas_of_content, container_of in Hx'.
      destruct (sniff (take 4 content0)) as [[]|]; [| | done | done | done];
        rewrite Hx; (destruct x as [[[[c0 u0] tf] taf]|]; [|done]);
        rewrite (Hz _ _ _ _ Hx); done.
    - apply no_write_iff. by eapply not_fixes_found_content. }
  destruct (decide (0 < sum_list (slot_fixes course <$> seq 1 4))) as [Hpos|Hzero].
  - (* the first run has written the encoded container *)
    assert (Hw1 : disk w1 !! fp = Some (File (encode c u8'))).
    { subst w1. rewrite scan_file_spec, Hfp, Ha. rewrite decide_True by done.
      destruct Hs as [-> | ->]; cbn [snd disk]; apply lookup_insert_eq. }
    assert (Ha1 : areas_of_content (encode c u8') = Ok (Some (c, setitem u8' "course"
                    (U8Folder (patched_course (patched_course course))), 0, 0))).
    { unfold areas_of_content. rewrite Hround. cbn [mbind result_bind].
      rewrite (areas_of_container_in_range c u8' (patched_course course)); [| | |done].
      - f_equal. f_equal. rewrite !pair_equal_spec. split; [split; [done|]|].
        + cbn. rewrite !Hz' by (apply elem_of_seq; lia). done.
        + rewrite filter_none; [done|]. intros i Hi. rewrite Hz' by done. lia.
      - unfold u8'. rewrite keys_setitem; [done|]. rewrite Hk. by left.
      - unfold u8'. apply getitem_setitem_eq. }
    apply (Hclean w1 (encode c u8') Hw1).
    + intros c0 u0 tf taf. rewrite Ha1. by intros [= _ _ <- _].
    + eexists. exact Ha1.
  - (* the first run has written nothing *)
    assert (Hw1 : disk w1 !! fp = Some (File content)).
    { subst w1. rewrite scan_file_spec, Hfp, Ha. rewrite decide_False by done.
      by destruct Hs as [-> | ->]. }
    apply (Hclean w1 content Hw1).
    + intros c0 u0 tf taf. rewrite Ha. intros [= _ _ <- _]. cbn in Hzero. lia.
    + eexists. exact Ha.
Qed.

End Twice.

(** In [slot_len_overlap] the flag of record 0 is the low half of the
    header's length. The first patch zeroes it, the patched bytes declare no
    record, and the second patch returns them as they are. *)
Example fix_course_file_twice_length_zeroed :
  ∃ out, fix_course_file slot_len_overlap = Ok (out, 1)
         ∧ header_len out ≠ header_len slot_len_overlap
         ∧ header_off out = header_off slot_len_overlap
         ∧ fix_course_file out = Ok (out, 0).
Proof.
  eexists. split; [vm_compute; reflexivity|].
  split; [vm_compute; lia|]. split; vm_compute; reflexivity.
Qed.

(** C4 (amended): when the first patch leaves the header's offset as it was,
    which it does whenever no flag that is not zero lies over the bytes 0x48
    to 0x4B of the offset, patching the patched bytes fixes nothing and
    returns the same bytes. So a second run of [scan_file] on the file the
    first run has left, for a target whose slots are in range and keep their
    offsets and with codecs that give back the container they encoded,
    returns having written nothing. *)
Theorem patch_twice_is_patch_once (codecs : Codecs) :
  (∀ data out n,
     fix_course_file data = Ok (out, n) →
     header_off out = header_off data →
     fix_course_file out = Ok (out, 0))
  ∧ (∀ data out n,
       fix_course_file data = Ok (out, n) →
       (∀ i, i < record_count data → be16_at data (flag_pos data i) ≠ 0 →
             flag_pos data i + 1 < 0x48 ∨ 0x4B < flag_pos data i) →
       header_off out = header_off data)
  ∧ (∀ fp w content c u8 course,
       disk w !! fp = Some (File content) →
       container_of content = Ok (Some (c, u8)) →
       keys u8 = ["course"%string] →
       getitem u8 "course" = Ok (U8Folder course) →
       slots_in_range course →
       offsets_kept course →
       (let u8' := setitem u8 "course" (U8Folder (patched_course course)) in
        container_of (encode c u8') = Ok (Some (c, u8'))) →
       let w1 := (scan_file fp w).2 in
       (scan_file fp w1).1 = Ok tt ∧ no_write w1 (scan_file fp w1).2).
Proof.
  split; [|split].
  - apply fix_course_file_again.
  - apply fix_course_file_offset_kept.
  - apply scan_file_second_run.
Qed.

Lemma patch_twice_is_patch_once_witness :
  let out := zero16 slot_len_overlap (0x44 + 10) in
  let fp := ["dir"; "b.arc"]%string in
  let w := World broken_disk [] in
  let w1 := (scan_file (H := toy_codecs) fp w).2 in
  (fix_course_file slot_len_overlap = Ok (out, 1)
   ∧ header_off out = header_off slot_len_overlap
   ∧ header_len out ≠ header_len slot_len_overlap
   ∧ fix_course_file out = Ok (out, 0))
  ∧ (disk w1 !! fp = Some (File (u8_magic ++ zero16 slot_two (0x50 + 10)))
     ∧ (scan_file (H := toy_codecs) fp w1).1 = Ok tt
     ∧ no_write w1 (scan_file (H := toy_codecs) fp w1).2).
Proof.
  intros out fp w w1.
  pose proof (patch_twice_is_patch_once toy_codecs) as (Hpatch & _ & Hfile).
  assert (H1 : fix_course_file slot_len_overlap = Ok (out, 1))
    by (vm_compute; reflexivity).
  assert (H2 : header_off out = header_off slot_len_overlap) by reflexivity.
  assert (H3 : header_len out ≠ header_len slot_len_overlap) by (vm_compute; lia).
  split; [exact (conj H1 (conj H2 (conj H3 (Hpatch slot_len_overlap out 1 H1 H2))))|].
  split; [vm_compute; reflexivity|].
  apply (Hfile fp w (u8_magic ++ slot_two) false
           [("course"%string, U8Folder [("course1.bin"%string, U8File slot_two)])]
           [("course1.bin"%string, U8File slot_two)]).
  - reflexivity.
  - reflexivity.
  - reflexivity.
  - reflexivity.
  - apply (bool_decide_unpack _). vm_compute. exact I.
  - intros i data Hi Hb. apply elem_of_seq in Hi.
    destruct i as [|[|[|[|[|i]]]]]; try lia; vm_compute in Hb; try discriminate.
    injection Hb as <-. reflexivity.
  - vm_compute. reflexivity.
Defined.

(** ** The theorems on the concrete world *)

Lemma scan_file_writes_iff_fixes_witness :
  let fp := ["dir"; "b.arc"]%string in
  let w := World broken_disk [] in
  fixes_found (H := toy_codecs) fp w
  ∧ ∃ data, wrote fp data w (scan_file (H := toy_codecs) fp w).2.
Proof.
  intros fp w.
  assert (Hf : fixes_found (H := toy_codecs) fp w).
  { eexists _, _, 1, _, _. split; [vm_compute; reflexivity | lia]. }
  split; [exact Hf|].
  exact (proj2 (proj1 (scan_file_writes_iff_fixes (H := toy_codecs) fp w)) Hf).
Defined.

Lemma sniff_classifies_witness :
  let fp := ["f.arc"%string] in
  let w := World {[ fp := File [x41; x00; x00; x00; x07] ]} [] in
  sniff [x41; x00; x00; x00] = Ok ProbablyLH
  ∧ scan_file (H := toy_codecs) fp w = (Ok tt, World (disk w) (trace w ++ [EvRead4 fp])).
Proof.
  intros fp w.
  pose proof (sniff_classifies x41 x00 x00 x00) as [Hs Hf].
  assert (Hs' : sniff [x41; x00; x00; x00] = Ok ProbablyLH) by exact Hs.
  split; [exact Hs'|].
  exact (Hf toy_codecs fp w [x41; x00; x00; x00; x07] eq_refl eq_refl (or_introl Hs')).
Defined.

Lemma level_filter_and_walk_witness :
  let w := World (scenario_disk [] [x11] [] [x41]) [] in
  ∃ w', scan_folder (H := toy_codecs) 2 ["dir"%string] true w = (Ok tt, w')
        ∧ scanned (new_events w w')
          = [["dir"; "a.arc"]; ["dir"; "b.ARC.LZ"]; ["dir"; "sub"; "d.arc"]]%string.
Proof.
  exact (proj2 (proj2 level_filter_and_walk toy_codecs [] [x11] [] [x41] [] 2 (le_n 2))).
Defined.

Lemma walk_isolates_failures_witness :
  let fp := ["dir"; "a.arc"]%string in
  let w := World broken_disk [] in
  scan_file (H := toy_codecs) fp w
    = (Raise IndexError, World broken_disk [EvRead4 fp])
  ∧ scan_file_safe (H := toy_codecs) fp w
    = (Ok tt,
       World broken_disk
         [EvRead4 fp;
          EvPrint (String.append "ERROR while checking "
                     (String "034"%char
                        (String.append "dir/a.arc" (String "034"%char ":"))));
          EvPrintExc IndexError])
  ∧ scan_file (H := toy_codecs) fp (World broken_disk [EvPrint banner])
    = (Raise IndexError, World broken_disk [EvPrint banner; EvRead4 fp])
  ∧ main (H := toy_codecs) 1 fp false w
    = (Raise IndexError, World broken_disk [EvPrint banner; EvRead4 fp])
  ∧ ∃ w', scan_folder (H := toy_codecs) 1 ["dir"%string] false (World odd_disk [])
          = (Ok tt, w')
          ∧ scanned (new_events (World odd_disk []) w')
            = [["dir"; "a.arc"]; ["dir"; "b.arc"]; ["dir"; "ghost.arc"]]%string.
Proof.
  intros fp w.
  pose proof (walk_isolates_failures toy_codecs) as (Hsafe & Hwalk & Hmain).
  assert (Hr0 : scan_file (H := toy_codecs) fp w
                = (Raise IndexError, World broken_disk [EvRead4 fp]))
    by (vm_compute; reflexivity).
  assert (Hraise : scan_file (H := toy_codecs) fp (World broken_disk [EvPrint banner])
                   = (Raise IndexError, World broken_disk [EvPrint banner; EvRead4 fp]))
    by (vm_compute; reflexivity).
  split; [exact Hr0|]. split; [|split; [exact Hraise|split]].
  - destruct (Hsafe fp w) as (w' & Hrun & Hlog).
    exact (eq_trans Hrun (f_equal (pair (Ok tt)) (Hlog IndexError _ Hr0))).
  - exact (Hmain 1 fp false w [] IndexError _ eq_refl Hraise).
  - destruct (Hwalk 1 ["dir"%string] false (World odd_disk []) eq_refl (le_n 1))
      as (w' & Hrun & Hsc); [discriminate|].
    exists w'. split; [exact Hrun|].
    eapply eq_trans; [exact Hsc | vm_compute; reflexivity].
Defined.

(** * Further properties of the code *)

(** ** The patcher: what it changes and what it counts *)

(** X1: a byte that the patch has changed is zero now, is one of the two
    bytes of the flag of a record whose flag was not zero, and lies inside
    the array that the header declares. *)
Theorem fix_course_file_changes_inside_array data out n p :
  fix_course_file data = Ok (out, n) →
  out !! p ≠ data !! p →
  out !! p = Some x00
  ∧ (∃ i, i < record_count data
          ∧ be16_at data (flag_pos data i) ≠ 0
          ∧ (p = flag_pos data i ∨ p = flag_pos data i + 1))
  ∧ header_off data + 10 ≤ p < header_off data + header_len data.
Proof.
  intros Hfix Hp.
  destruct (fix_course_file_Ok_effect _ _ _ Hfix) as (_ & _ & Hframe).
  apply fix_course_file_Ok_inv in Hfix as ([Hhdr Hin] & -> & _).
  destruct (decide (Exists (fun i => p = flag_pos data i ∨ p = flag_pos data i + 1)
                           (dirty_records data))) as [Hex|Hno].
  - apply Exists_exists in Hex as (i & Hi & Hpi).
    pose proof Hi as Hi'. apply elem_of_dirty_records in Hi' as [Hlt Hne].
    split; [|split].
    + apply (lookup_zero_flags_in _ _ _ i); [done | by apply Hin | done].
    + by exists i.
    + assert (24 * record_count data ≤ header_len data).
      { unfold record_count. apply Nat.Div0.mul_div_le. }
      unfold flag_pos in Hpi. lia.
  - exfalso. apply Hp, Hframe. intros i Hi Hne.
    rewrite <- Forall_Exists_neg, Forall_forall in Hno.
    specialize (Hno i). rewrite elem_of_dirty_records in Hno.
    specialize (Hno (conj Hi Hne)). lia.
Qed.

Lemma fix_course_file_changes_inside_array_witness :
  let out := zero16 slot_two (0x50 + 10) in
  fix_course_file slot_two = Ok (out, 1)
  ∧ out !! (0x50 + 11) ≠ slot_two !! (0x50 + 11)
  ∧ out !! (0x50 + 11) = Some x00
  ∧ header_off slot_two + 10 ≤ 0x50 + 11 < header_off slot_two + header_len slot_two.
Proof.
  intros out.
  assert (H1 : fix_course_file slot_two = Ok (out, 1)) by (vm_compute; reflexivity).
  assert (H2 : out !! (0x50 + 11) ≠ slot_two !! (0x50 + 11)) by discriminate.
  destruct (fix_course_file_changes_inside_array slot_two out 1 (0x50 + 11) H1 H2)
    as (H3 & _ & H4).
  exact (conj H1 (conj H2 (conj H3 H4))).
Defined.

(** X2: the fix count is zero exactly when the patch returns the bytes it was
    given, and it never exceeds the number of records. *)
Theorem fix_course_file_count_zero_iff data out n :
  fix_course_file data = Ok (out, n) →
  (n = 0 ↔ out = data) ∧ n ≤ record_count data.
Proof.
  intros Hfix.
  destruct (fix_course_file_Ok_effect _ _ _ Hfix) as (_ & Hzero & _).
  apply fix_course_file_Ok_inv in Hfix as (_ & -> & ->).
  split; [split|].
  - intros Hn. apply length_zero_iff_nil in Hn. by rewrite Hn.
  - intros Hout.
    destruct (dirty_records data) as [|i rest] eqn:Hd; [done|].
    assert (Hi : i ∈ dirty_records data) by (rewrite Hd; left).
    apply elem_of_dirty_records in Hi as [Hlt Hne].
    specialize (Hzero i Hlt). rewrite Hout in Hzero. done.
  - unfold dirty_records. etrans; [apply length_filter|]. by rewrite length_seq.
Qed.

Lemma fix_course_file_count_zero_iff_witness :
  fix_course_file slot_two = Ok (zero16 slot_two (0x50 + 10), 1)
  ∧ (1 = 0 ↔ zero16 slot_two (0x50 + 10) = slot_two)
  ∧ 1 ≤ record_count slot_two.
Proof.
  assert (H1 : fix_course_file slot_two = Ok (zero16 slot_two (0x50 + 10), 1))
    by (vm_compute; reflexivity).
  exact (conj H1 (fix_course_file_count_zero_iff slot_two _ 1 H1)).
Defined.

(** X3: when the first flag of the array starts after the header, that is at
    0x50 or later, patching the patched bytes fixes nothing and returns them
    as they are. *)
Theorem fix_course_file_twice_after_header data out n :
  fix_course_file data = Ok (out, n) →
  0x50 ≤ header_off data + 10 →
  fix_course_file out = Ok (out, 0).
Proof.
  intros Hfix Hoff.
  destruct (fix_course_file_header_kept data out n Hfix) as [H1 H2].
  - intros i Hi _. right. unfold flag_pos. simpl in Hoff. lia.
  - by apply (fix_course_file_again data out n).
Qed.

Lemma fix_course_file_twice_after_header_witness :
  let out := zero16 slot_two (0x50 + 10) in
  fix_course_file slot_two = Ok (out, 1)
  ∧ 0x50 ≤ header_off slot_two + 10
  ∧ fix_course_file out = Ok (out, 0).
Proof.
  intros out.
  assert (H1 : fix_course_file slot_two = Ok (out, 1)) by (vm_compute; reflexivity).
  assert (H2 : 0x50 ≤ header_off slot_two + 10) by (vm_compute; lia).
  exact (conj H1 (conj H2 (fix_course_file_twice_after_header slot_two out 1 H1 H2))).
Defined.

(** X4: whatever the patch does, and also when it raises half way through
    the records, every object that was in the store holds what it held: the
    zeroing goes to the copy. When the patch raises on the contents it
    raises the same exception on the object. *)
Theorem Store_fix_course_file_keeps_objects (h : gmap positive bytes) l data :
  h !! l = Some data →
  (∀ l0 v, h !! l0 = Some v → (Store.fix_course_file l h).2 !! l0 = Some v)
  ∧ (∀ e, fix_course_file data = Raise e →
          (Store.fix_course_file l h).1 = Raise e).
Proof.
  intros Hl. destruct (Store_fix_course_file_spec h l data Hl) as (d0 & -> & _).
  cbn [fst snd]. split.
  - intros l0 v Hv. rewrite lookup_insert_ne; [done|].
    intros E. pose proof (is_fresh (dom h)) as Hf. rewrite E in Hf.
    apply Hf, elem_of_dom. by exists v.
  - intros e ->. done.
Qed.

Lemma Store_fix_course_file_keeps_objects_witness :
  let h : gmap positive bytes := {[ 1%positive := slot_half ]} in
  h !! 1%positive = Some slot_half
  ∧ be16_at slot_half (flag_pos slot_half 0) ≠ 0
  ∧ fix_course_file slot_half = Raise struct_error
  ∧ (Store.fix_course_file 1%positive h).2 !! 1%positive = Some slot_half
  ∧ (Store.fix_course_file 1%positive h).1 = Raise struct_error.
Proof.
  intros h.
  assert (H1 : h !! 1%positive = Some slot_half) by reflexivity.
  assert (H2 : fix_course_file slot_half = Raise struct_error)
    by (vm_compute; reflexivity).
  destruct (Store_fix_course_file_keeps_objects h 1%positive slot_half H1)
    as [Hkeep Hraise].
  split; [exact H1|]. split; [vm_compute; lia|].
  exact (conj H2 (conj (Hkeep _ _ H1) (Hraise _ H2))).
Defined.

(** ** The loop over the areas: nothing to fix, and the totals *)

Lemma patched_course_nothing course :
  (∀ i, i ∈ seq 1 4 → slot_fixes course i = 0) → patched_course course = course.
Proof.
  unfold patched_course. generalize (seq 1 4) as ixs.
  induction ixs as [|i ixs IH]; intros Hz; [done|].
  cbn [foldl]. unfold patch_slot at 2.
  rewrite decide_False by (rewrite Hz by left; lia).
  apply IH. intros j Hj. apply Hz. by right.
Qed.

Lemma sum_list_zeros (f : nat → nat) (l : list nat) :
  (∀ i, i ∈ l → f i = 0) → sum_list (f <$> l) = 0.
Proof.
  induction l as [|i l IH]; intros Hz; [done|].
  rewrite fmap_cons.
  change (sum_list (f i :: (f <$> l))) with (f i + sum_list (f <$> l)).
  rewrite (Hz i) by left. rewrite IH; [done|]. intros j Hj. apply Hz. by right.
Qed.

(** X5: on a course whose present slots are in range and hold no record to
    fix, and so on a course that has none of the four slots, the loop
    returns the dict as it is, with both totals zero. *)
Theorem fix_areas_nothing_to_fix course :
  slots_in_range course →
  (∀ i, i ∈ seq 1 4 → slot_fixes course i = 0) →
  fix_areas (U8Folder course) = Ok (course, 0, 0).
Proof.
  intros Hin Hz. rewrite fix_areas_in_range by done.
  rewrite patched_course_nothing by done. rewrite sum_list_zeros by done.
  rewrite filter_none; [done|]. intros i Hi. rewrite Hz by done. lia.
Qed.

Lemma fix_areas_nothing_to_fix_witness :
  slots_in_range course_no_slot
  ∧ (∀ i, i ∈ seq 1 4 → slot_fixes course_no_slot i = 0)
  ∧ fix_areas (U8Folder course_no_slot) = Ok (course_no_slot, 0, 0).
Proof.
  assert (H1 : slots_in_range course_no_slot).
  { apply (bool_decide_unpack _). vm_compute. exact I. }
  assert (H2 : ∀ i, i ∈ seq 1 4 → slot_fixes course_no_slot i = 0).
  { intros i Hi. apply elem_of_seq in Hi.
    destruct i as [|[|[|[|[|i]]]]]; try lia; reflexivity. }
  exact (conj H1 (conj H2 (fix_areas_nothing_to_fix course_no_slot H1 H2))).
Defined.

Lemma count_pos_le_sum (f : nat → nat) (l : list nat) :
  length (filter (fun i => 0 < f i) l) ≤ sum_list (f <$> l)
  ∧ (sum_list (f <$> l) = 0 → ∀ i, i ∈ l → f i = 0).
Proof.
  induction l as [|i l [IH1 IH2]]; [split; [done | by intros _ i Hi%elem_of_nil]|].
  rewrite filter_cons, fmap_cons.
  change (sum_list (f i :: (f <$> l))) with (f i + sum_list (f <$> l)). split.
  - destruct (decide (0 < f i)); cbn [length]; lia.
  - intros Hs j Hj. apply elem_of_cons in Hj as [->|Hj]; [lia|].
    apply IH2; [lia | done].
Qed.

(** X6: when the loop over the areas ends, [total_areas_fixed] is at most 4
    and at most [total_fixes], the two are zero together, and with no fix
    the dict is the one the loop was given. *)
Theorem fix_areas_totals_bounds course course' tf taf :
  fix_areas (U8Folder course) = Ok (course', tf, taf) →
  taf ≤ 4 ∧ taf ≤ tf ∧ (tf = 0 ↔ taf = 0) ∧ (tf = 0 → course' = course).
Proof.
  intros Hrun. pose proof (fix_areas_Ok_in_range course _ Hrun) as Hin.
  rewrite (fix_areas_in_range course Hin) in Hrun.
  assert (course' = patched_course course
          ∧ tf = sum_list (slot_fixes course <$> seq 1 4)
          ∧ taf = length (filter (fun i => 0 < slot_fixes course i) (seq 1 4)))
    as (-> & -> & ->) by (by injection Hrun).
  destruct (count_pos_le_sum (slot_fixes course) (seq 1 4)) as [Hle Hzero].
  split; [|split; [done|split]].
  - etrans; [apply length_filter|]. by rewrite length_seq.
  - split.
    + intros Hs. rewrite filter_none; [done|]. intros i Hi.
      rewrite (Hzero Hs i Hi). lia.
    + intros Hc. apply length_zero_iff_nil in Hc. apply sum_list_zeros.
      intros i Hi. destruct (decide (0 < slot_fixes course i)) as [Hp|Hp]; [|lia].
      exfalso. eapply filter_nil_not_elem_of; [exact Hc | exact Hp | exact Hi].
  - intros Hs. apply patched_course_nothing. by apply Hzero.
Qed.

Lemma fix_areas_totals_bounds_witness :
  ∃ course',
    fix_areas (U8Folder course_1_3) = Ok (course', 1, 1)
    ∧ 1 ≤ 4 ∧ 1 ≤ 1 ∧ (1 = 0 ↔ 1 = 0) ∧ (1 = 0 → course' = course_1_3).
Proof.
  eexists.
  assert (H1 : fix_areas (U8Folder course_1_3) = Ok (patched_course course_1_3, 1, 1))
    by (vm_compute; reflexivity).
  exact (conj H1 (fix_areas_totals_bounds course_1_3 _ 1 1 H1)).
Defined.

(** ** [scan_file]: exceptions, short files, and what is written *)

Section ScanFile.
Context `{Codecs}.

(** X7: when [scan_file] raises, it has written nothing: the disk is as it
    was and the trace holds no write. *)
Theorem scan_file_raise_no_write fp w e :
  (scan_file fp w).1 = Raise e → no_write w (scan_file fp w).2.
Proof.
  intros Hraise. destruct (scan_file_cases fp w) as [[Hf _]|[_ Hn]]; [|done].
  exfalso. apply fixes_found_content in Hf
    as (content & c & u8 & tf & taf & Hfp & Ha & Htf).
  rewrite scan_file_spec, Hfp, Ha in Hraise. rewrite decide_True in Hraise by done.
  pose proof Ha as Ha'. unfold areas_of_content, container_of in Ha'.
  destruct (sniff (take 4 content)) as [[]|]; done.
Qed.

(** X8: an exception of the first bytes or of a decoder is the exception of
    [scan_file]; the file has been read, in full unless it is empty, and
    nothing else has happened. *)
Theorem scan_file_decode_failure fp w content e :
  disk w !! fp = Some (File content) →
  container_of content = Raise e →
  scan_file fp w =
  (Raise e,
   World (disk w)
         (trace w ++ if decide (content = []) then [EvRead4 fp]
                     else [EvRead4 fp; EvReadBytes fp])).
Proof.
  intros Hfp Hc. rewrite scan_file_spec, Hfp.
  assert (Ha : areas_of_content content = Raise e).
  { unfold areas_of_content. by rewrite Hc. }
  unfold container_of in Hc. rewrite Ha.
  destruct (sniff (take 4 content)) as [s|e'] eqn:Hs.
  - assert (content ≠ []) by (intros ->; done).
    rewrite decide_False by done. destruct s; done.
  - cbn [mbind result_bind] in Hc. simplify_eq.
    unfold sniff in Hs. destruct (decide (take 4 content = u8_magic)); [done|].
    destruct content as [|b0 rest]; [done|]. cbn [take] in Hs.
    by repeat case_decide.
Qed.

(** X10: on a target whose slots are in range, with a record to fix, the run
    is two reads, the summary line and one write, and the file then holds
    the container with the course as patched: compressed again when the file
    had the compression marker, and only then. *)
Theorem scan_file_writes_patched_container fp w content c u8 course :
  disk w !! fp = Some (File content) →
  container_of content = Ok (Some (c, u8)) →
  keys u8 = ["course"%string] →
  getitem u8 "course" = Ok (U8Folder course) →
  slots_in_range course →
  0 < sum_list (slot_fixes course <$> seq 1 4) →
  let u8' := setitem u8 "course" (U8Folder (patched_course course)) in
  let data := if c then Compress11LZS (u8_save u8') else u8_save u8' in
  scan_file fp w =
  (Ok tt,
   World (<[fp := File data]> (disk w))
         (trace w ++
          [EvRead4 fp; EvReadBytes fp;
           EvPrint (summary_line
                      (sum_list (slot_fixes course <$> seq 1 4))
                      (length (filter (fun i => 0 < slot_fixes course i) (seq 1 4)))
                      fp);
           EvWriteBytes fp data]))
  ∧ (c = true ↔ sniff (take 4 content) = Ok LZ11).
Proof.
  intros Hfp Hc Hk Hg Hin Hpos u8' data.
  assert (Ha : areas_of_content content =
               Ok (Some (c, u8', sum_list (slot_fixes course <$> seq 1 4),
                         length (filter (fun i => 0 < slot_fixes course i) (seq 1 4))))).
  { unfold areas_of_content. rewrite Hc. cbn [mbind result_bind].
    by apply areas_of_container_in_range. }
  rewrite scan_file_spec, Hfp, Ha. rewrite decide_True by done.
  unfold container_of in Hc.
  destruct (sniff (take 4 content)) as [[]|]; cbn [mbind result_bind] in Hc;
    try done.
  - destruct (u8_load content); cbn [mbind result_bind] in Hc; [|done].
    simplify_eq. split; [done|]. split; done.
  - destruct (Decompress11LZS content) as [d|]; cbn [mbind result_bind] in Hc; [|done].
    destruct (u8_load d); cbn [mbind result_bind] in Hc; [|done].
    simplify_eq. split; [done|]. split; done.
Qed.

End ScanFile.

(** X9: fewer than four leading bytes are never the magic of a container:
    an empty file raises [IndexError] at [first_4[0]], and one to three
    bytes are classified by the first byte alone. *)
Theorem sniff_short first_4 :
  length first_4 < 4 →
  sniff first_4 =
  match first_4 with
  | [] => Raise IndexError
  | b0 :: _ =>
      Ok (if decide (b0 = x11) then LZ11
          else if decide (Byte.to_nat b0 / 16 = 4) then ProbablyLH
          else NotALevel)
  end.
Proof.
  intros Hlen. unfold sniff. rewrite decide_False.
  - destruct first_4 as [|b0 rest]; [done|]. destruct b0; vm_compute; reflexivity.
  - intros ->. cbn in Hlen. lia.
Qed.

Lemma sniff_short_witness :
  length [x11] < 4 ∧ sniff [x11] = Ok LZ11.
Proof.
  assert (H : length [x11] < 4) by (cbn; lia).
  exact (conj H (sniff_short [x11] H)).
Defined.

Lemma scan_file_raise_no_write_witness :
  let fp := ["dir"; "a.arc"]%string in
  let w := World broken_disk [] in
  (scan_file (H := toy_codecs) fp w).1 = Raise IndexError
  ∧ no_write w (scan_file (H := toy_codecs) fp w).2.
Proof.
  intros fp w.
  assert (H1 : (scan_file (H := toy_codecs) fp w).1 = Raise IndexError)
    by (vm_compute; reflexivity).
  exact (conj H1 (scan_file_raise_no_write (H := toy_codecs) fp w IndexError H1)).
Defined.

Lemma scan_file_decode_failure_witness :
  let fp := ["dir"; "m.arc.lz"]%string in
  let w := World marker_disk [] in
  disk w !! fp = Some (File [x11])
  ∧ container_of (H := strict_codecs) [x11] = Raise CodecError
  ∧ scan_file (H := strict_codecs) fp w =
    (Raise CodecError, World marker_disk [EvRead4 fp; EvReadBytes fp]).
Proof.
  intros fp w.
  assert (H1 : disk w !! fp = Some (File [x11])) by reflexivity.
  assert (H2 : container_of (H := strict_codecs) [x11] = Raise CodecError)
    by reflexivity.
  exact (conj H1 (conj H2
           (scan_file_decode_failure (H := strict_codecs) fp w [x11] CodecError H1 H2))).
Defined.

Lemma scan_file_writes_patched_container_witness :
  let fp := ["dir"; "b.arc"]%string in
  let w := World broken_disk [] in
  let course := [("course1.bin"%string, U8File slot_two)] in
  slots_in_range course
  ∧ 0 < sum_list (slot_fixes course <$> seq 1 4)
  ∧ scan_file (H := toy_codecs) fp w =
    (Ok tt,
     World (<[fp := File (u8_magic ++ zero16 slot_two (0x50 + 10))]> broken_disk)
           [EvRead4 fp; EvReadBytes fp;
            EvPrint "Fixed 1 zone in 1 area in dir/b.arc";
            EvWriteBytes fp (u8_magic ++ zero16 slot_two (0x50 + 10))]).
Proof.
  intros fp w course.
  assert (H1 : slots_in_range course).
  { apply (bool_decide_unpack _). vm_compute. exact I. }
  assert (H2 : 0 < sum_list (slot_fixes course <$> seq 1 4)) by (vm_compute; lia).
  split; [exact H1|]. split; [exact H2|].
  exact (proj1 (scan_file_writes_patched_container (H := toy_codecs) fp w
                  (u8_magic ++ slot_two) false
                  [("course"%string, U8Folder course)] course
                  eq_refl eq_refl eq_refl eq_refl H1 H2)).
Defined.

(** ** The file-name filter: capitals, and the shape of the names it takes *)

Lemma is_dot_lower_ascii c : is_dot (lower_ascii c) = is_dot c.
Proof. destruct c as [[] [] [] [] [] [] [] []]; reflexivity. Qed.

Lemma lower_ascii_idem c : lower_ascii (lower_ascii c) = lower_ascii c.
Proof. destruct c as [[] [] [] [] [] [] [] []]; reflexivity. Qed.

Lemma lower_idem s : lower (lower s) = lower s.
Proof. induction s as [|c s IH]; [done|]. cbn. by rewrite lower_ascii_idem, IH. Qed.

Lemma length_lower s : String.length (lower s) = String.length s.
Proof. induction s as [|c s IH]; [done|]. cbn. by rewrite IH. Qed.

Lemma rfind_dot_lower s : rfind_dot (lower s) = rfind_dot s.
Proof.
  induction s as [|c s IH]; [done|]. cbn. by rewrite IH, is_dot_lower_ascii.
Qed.

Lemma str_drop_lower i : ∀ s, str_drop i (lower s) = lower (str_drop i s).
Proof. induction i as [|i IH]; intros [|c s]; cbn; done. Qed.

Lemma endswith_dot_lower s : endswith_dot (lower s) = endswith_dot s.
Proof.
  induction s as [|c s IH]; [done|]. cbn [lower endswith_dot].
  destruct s as [|c' s]; [apply is_dot_lower_ascii | apply IH].
Qed.

Lemma lstrip_dot_lower s : lstrip_dot (lower s) = lower (lstrip_dot s).
Proof.
  induction s as [|c s IH]; [done|]. cbn. rewrite is_dot_lower_ascii.
  by destruct (is_dot c).
Qed.

Lemma split_dot_lower s : split_dot (lower s) = lower <$> split_dot s.
Proof.
  induction s as [|c s IH]; [done|]. cbn [lower split_dot].
  rewrite is_dot_lower_ascii, IH. destruct (is_dot c); [done|].
  by destruct (split_dot s).
Qed.

Lemma suffix_lower dir dir' n : suffix (dir ++ [lower n]) = lower (suffix (dir' ++ [n])).
Proof.
  unfold suffix. rewrite !name_snoc, rfind_dot_lower, length_lower.
  destruct (rfind_dot n) as [i|]; [|done].
  destruct (decide (0 < i < String.length n - 1)); [apply str_drop_lower | done].
Qed.

Lemma suffixes_lower dir dir' n :
  suffixes (dir ++ [lower n]) = lower <$> suffixes (dir' ++ [n]).
Proof.
  unfold suffixes. rewrite !name_snoc, endswith_dot_lower.
  destruct (endswith_dot n); [done|].
  rewrite lstrip_dot_lower, split_dot_lower.
  destruct (split_dot (lstrip_dot n)) as [|p0 rest]; [done|]. cbn [fmap list_fmap tail].
  induction rest as [|x rest IH]; [done|]. cbn. by rewrite <- IH.
Qed.

Lemma from_end_lower l k : from_end (lower <$> l) k = lower (from_end l k).
Proof.
  unfold from_end. rewrite length_fmap, list_lookup_fmap.
  by destruct (l !! (length l - k)).
Qed.

(** X11: the filter does not see capitals, nor the directories above the
    file: a name and its lower-case form are taken or left together,
    wherever they are. *)
Theorem does_path_look_like_level_lower dir dir' n :
  does_path_look_like_level (dir ++ [lower n]) =
  does_path_look_like_level (dir' ++ [n]).
Proof.
  unfold does_path_look_like_level.
  rewrite (suffix_lower dir dir'), (suffixes_lower dir dir').
  by rewrite length_fmap, !from_end_lower, !lower_idem.
Qed.

#[local] Arguments String.append : simpl nomatch.

Lemma str_app_nil_r s : s +:+ EmptyString = s.
Proof. induction s as [|c s IH]; [done|]. simpl. by rewrite IH. Qed.

Lemma str_app_assoc s t u : (s +:+ t) +:+ u = s +:+ (t +:+ u).
Proof. induction s as [|c s IH]; [done|]. simpl. by rewrite IH. Qed.

Lemma str_length_app s t : String.length (s +:+ t) = String.length s + String.length t.
Proof. induction s as [|c s IH]; [done|]. simpl. by rewrite IH. Qed.

Lemma lower_app s t : lower (s +:+ t) = lower s +:+ lower t.
Proof. induction s as [|c s IH]; [done|]. simpl. by rewrite IH. Qed.

Lemma is_dot_true c : is_dot c = true → c = "."%char.
Proof. unfold is_dot. apply Ascii.eqb_eq. Qed.

Lemma rfind_dot_None_cons c s :
  rfind_dot (String c s) = None → is_dot c = false ∧ rfind_dot s = None.
Proof. cbn. destruct (rfind_dot s); [done|]. by destruct (is_dot c). Qed.

Lemma rfind_dot_app_dot s t :
  rfind_dot t = None → rfind_dot (s +:+ String "."%char t) = Some (String.length s).
Proof.
  intros Ht. induction s as [|c s IH]; cbn.
  - by rewrite Ht.
  - cbn in IH. by rewrite IH.
Qed.

Lemma rfind_dot_Some s : ∀ i,
  rfind_dot s = Some i →
  ∃ pre t, s = pre +:+ String "."%char t ∧ String.length pre = i ∧ rfind_dot t = None.
Proof.
  induction s as [|c s IH]; intros i Hi; [done|]. cbn in Hi.
  destruct (rfind_dot s) as [j|] eqn:Hj.
  - destruct (IH j eq_refl) as (pre & t & -> & Hlen & Ht). simplify_eq.
    by exists (String c pre), t.
  - destruct (is_dot c) eqn:Hc; [|done]. apply is_dot_true in Hc as ->.
    simplify_eq. by exists EmptyString, s.
Qed.

Lemma str_drop_app s t : str_drop (String.length s) (s +:+ t) = t.
Proof. induction s as [|c s IH]; [by destruct t|]. done. Qed.

(** The suffix of a name that ends with a dot and a dotless, non-empty
    tail, after a non-empty stem. *)
Lemma suffix_app_ext fp stem t :
  name fp = stem +:+ String "."%char t →
  stem ≠ EmptyString → t ≠ EmptyString → rfind_dot t = None →
  suffix fp = String "."%char t.
Proof.
  intros Hn Hstem Ht Hdot. unfold suffix.
  rewrite Hn, rfind_dot_app_dot by done. rewrite str_length_app.
  rewrite decide_True; [apply str_drop_app|].
  destruct stem; [done|]. destruct t; [done|]. cbn. lia.
Qed.

Lemma suffix_inv fp e :
  suffix fp = e → e ≠ EmptyString →
  ∃ stem t, name fp = stem +:+ e ∧ stem ≠ EmptyString
            ∧ e = String "."%char t ∧ rfind_dot t = None.
Proof.
  unfold suffix. intros He Hne.
  destruct (rfind_dot (name fp)) as [i|] eqn:Hi; [|by subst].
  destruct (decide (0 < i < String.length (name fp) - 1)) as [Hlt|]; [|by subst].
  destruct (rfind_dot_Some _ _ Hi) as (pre & t & Hn & Hlen & Ht).
  rewrite Hn in He. rewrite <- Hlen, str_drop_app in He.
  exists pre, t. rewrite He in Hn. split; [done|]. split; [|done].
  intros ->. cbn in Hlen. lia.
Qed.

Lemma split_dot_nonempty s : split_dot s ≠ [].
Proof.
  destruct s as [|c s]; [done|]. cbn. destruct (is_dot c); [done|].
  by destruct (split_dot s).
Qed.

Lemma split_dot_app_dot s t :
  split_dot (s +:+ String "."%char t) = split_dot s ++ split_dot t.
Proof.
  induction s as [|c s IH]; [done|]. cbn [String.append split_dot].
  rewrite IH. destruct (is_dot c); [done|].
  pose proof (split_dot_nonempty s). by destruct (split_dot s).
Qed.

Lemma split_dot_no_dot t : rfind_dot t = None → split_dot t = [t].
Proof.
  induction t as [|c t IH]; [done|]. intros [Hc Ht]%rfind_dot_None_cons.
  cbn. by rewrite Hc, IH.
Qed.

(** ['.'.join(s.split('.'))] is [s]. *)
Lemma concat_split_dot s : String.concat "." (split_dot s) = s.
Proof.
  induction s as [|c s IH]; [done|]. cbn [split_dot].
  pose proof (split_dot_nonempty s) as Hne.
  destruct (is_dot c) eqn:Hc.
  - apply is_dot_true in Hc as ->.
    destruct (split_dot s) as [|h t]; [done|]. cbn in *. by rewrite IH.
  - destruct (split_dot s) as [|h [|y t]]; [done| |]; cbn in *; by rewrite <- IH.
Qed.

Lemma concat_dot_app l1 l2 :
  l1 ≠ [] → l2 ≠ [] →
  String.concat "." (l1 ++ l2)
  = String.concat "." l1 +:+ String "."%char (String.concat "." l2).
Proof.
  intros H1 H2. induction l1 as [|x l1 IH]; [done|].
  destruct l1 as [|y l1].
  - destruct l2 as [|z l2]; [done|]. done.
  - change (String.concat "." ((x :: y :: l1) ++ l2))
      with (x +:+ "." +:+ String.concat "." ((y :: l1) ++ l2)).
    rewrite IH by done.
    change (String.concat "." (x :: y :: l1))
      with (x +:+ "." +:+ String.concat "." (y :: l1)).
    by rewrite !str_app_assoc.
Qed.

Lemma lstrip_dot_decomp s :
  ∃ dots, s = dots +:+ lstrip_dot s ∧ lstrip_dot dots = EmptyString.
Proof.
  induction s as [|c s (dots & Hs & Hd)]; [by exists EmptyString|]. cbn.
  destruct (is_dot c) eqn:Hc.
  - exists (String c dots). cbn. rewrite Hc. by rewrite <- Hs.
  - by exists EmptyString.
Qed.

Lemma lstrip_dot_app_dots dots y :
  lstrip_dot dots = EmptyString → lstrip_dot (dots +:+ y) = lstrip_dot y.
Proof.
  induction dots as [|c d IH]; [done|]. cbn.
  destruct (is_dot c); [apply IH | done].
Qed.

Lemma lstrip_dot_head s c r : lstrip_dot s = String c r → is_dot c = false.
Proof.
  induction s as [|c' s IH]; [done|]. cbn.
  destruct (is_dot c') eqn:Hc; [apply IH|]. by intros [= <- _].
Qed.

Lemma lstrip_dot_app_ne s t :
  lstrip_dot s ≠ EmptyString → lstrip_dot (s +:+ t) = lstrip_dot s +:+ t.
Proof.
  induction s as [|c s IH]; [done|]. cbn.
  destruct (is_dot c); [apply IH | done].
Qed.

Lemma endswith_dot_app s t :
  t ≠ EmptyString → endswith_dot (s +:+ t) = endswith_dot t.
Proof.
  intros Ht. induction s as [|c s IH]; [done|]. cbn [String.append endswith_dot].
  destruct (s +:+ t) eqn:E; [|done]. by destruct s, t.
Qed.

Lemma from_end_snoc2 l u v :
  from_end (l ++ [u; v]) 2 = u ∧ from_end (l ++ [u; v]) 1 = v.
Proof.
  unfold from_end. rewrite length_app. cbn [length].
  split.
  - replace (length l + 2 - 2) with (length l + 0) by lia.
    by rewrite lookup_app_r, Nat.add_0_r, Nat.sub_diag by lia.
  - replace (length l + 2 - 1) with (length l + 1) by lia.
    rewrite lookup_app_r by lia. by replace (length l + 1 - length l) with 1 by lia.
Qed.

Lemma list_last_two {A} (l : list A) :
  2 ≤ length l → ∃ mid u v, l = mid ++ [u; v].
Proof.
  intros Hl. destruct (rev l) as [|v [|u r]] eqn:Hr.
  - apply (f_equal length) in Hr. rewrite length_rev in Hr. cbn in Hr. lia.
  - apply (f_equal length) in Hr. rewrite length_rev in Hr. cbn in Hr. lia.
  - exists (rev r), u, v. rewrite <- (rev_involutive l), Hr. cbn.
    by rewrite <- !app_assoc.
Qed.

(** A string whose [lower] is [.arc.lz] is a dot, three letters, a dot and
    two letters. *)
Lemma lower_arc_lz_inv ext :
  lower ext = ".arc.lz"%string →
  ∃ a z, ext = String "."%char (a +:+ String "."%char z)
         ∧ lower a = "arc"%string ∧ lower z = "lz"%string
         ∧ rfind_dot a = None ∧ rfind_dot z = None.
Proof.
  intros Hext. lower_cases Hext;
    (eexists (String _ (String _ (String _ EmptyString))),
             (String _ (String _ EmptyString));
     repeat split; reflexivity).
Qed.

Lemma lower_arc_inv ext :
  lower ext = ".arc"%string →
  ∃ t, ext = String "."%char t ∧ t ≠ EmptyString ∧ rfind_dot t = None.
Proof.
  intros Hext. lower_cases Hext;
    (eexists; split; [reflexivity|]; split; [discriminate | reflexivity]).
Qed.

(** The last suffix is [.arc], capitals apart, exactly for a name made of a
    non-empty stem and such an ending. *)
Lemma suffix_arc_shape fp :
  lower (suffix fp) = ".arc"%string ↔
  ∃ stem ext, name fp = stem +:+ ext ∧ stem ≠ EmptyString
              ∧ lower ext = ".arc"%string.
Proof.
  split.
  - intros Hs. destruct (suffix_inv fp (suffix fp) eq_refl) as (stem & t & Hn & Hst & _).
    { intros E. by rewrite E in Hs. }
    by exists stem, (suffix fp).
  - intros (stem & ext & Hn & Hst & Hext).
    destruct (lower_arc_inv ext Hext) as (t & -> & Ht & Hdot).
    by rewrite (suffix_app_ext fp stem t).
Qed.

(** The last two suffixes are [.arc] and [.lz], capitals apart, exactly for
    a name made of a stem that is not all dots and such an ending. *)
Lemma suffixes_arc_lz_shape fp :
  (2 ≤ length (suffixes fp)
   ∧ lower (from_end (suffixes fp) 2) = ".arc"%string
   ∧ lower (from_end (suffixes fp) 1) = ".lz"%string) ↔
  ∃ stem ext, name fp = stem +:+ ext ∧ lstrip_dot stem ≠ EmptyString
              ∧ lower ext = ".arc.lz"%string.
Proof.
  split.
  - intros (Hlen & H2 & H1). unfold suffixes in *.
    destruct (endswith_dot (name fp)); [cbn in Hlen; lia|].
    pose proof (concat_split_dot (lstrip_dot (name fp))) as Hjoin.
    destruct (split_dot (lstrip_dot (name fp))) as [|p0 rest] eqn:Hsplit;
      [cbn in Hlen; lia|].
    cbn [tail] in *. rewrite length_map in Hlen.
    destruct (list_last_two rest Hlen) as (mid & a & z & ->).
    rewrite map_app in H2, H1. cbn [map] in H2, H1.
    destruct (from_end_snoc2 (map (String "."%char) mid)
                (String "."%char a) (String "."%char z)) as [E2 E1].
    rewrite E2 in H2. rewrite E1 in H1. clear E2 E1.
    change (p0 :: mid ++ [a; z]) with ((p0 :: mid) ++ [a; z]) in Hjoin.
    rewrite concat_dot_app in Hjoin by done.
    change (String.concat "." [a; z]) with (a +:+ String "."%char z) in Hjoin.
    set (y := String.concat "." (p0 :: mid)) in *.
    set (ext := String "."%char (a +:+ String "."%char z)) in *.
    destruct (lstrip_dot_decomp (name fp)) as (dots & Hname & Hdots).
    exists (dots +:+ y), ext. split; [|split].
    + rewrite str_app_assoc, Hjoin. exact Hname.
    + rewrite lstrip_dot_app_dots by done.
      destruct y as [|c r] eqn:Hy.
      * exfalso. cbn in Hjoin. symmetry in Hjoin.
        by apply lstrip_dot_head in Hjoin.
      * cbn in Hjoin. symmetry in Hjoin. apply lstrip_dot_head in Hjoin.
        cbn. by rewrite Hjoin.
    + unfold ext. cbn [lower] in *. injection H2 as H2. injection H1 as H1.
      rewrite lower_app. cbn [lower]. by rewrite H2, H1.
  - intros (stem & ext & Hn & Hst & Hext).
    destruct (lower_arc_lz_inv ext Hext) as (a & z & -> & Ha & Hz & Hda & Hdz).
    unfold suffixes. rewrite Hn.
    rewrite endswith_dot_app by done.
    assert (Hend : endswith_dot (String "."%char (a +:+ String "."%char z)) = false).
    { change (String "."%char (a +:+ String "."%char z))
        with (("." +:+ a) +:+ String "."%char z).
      rewrite endswith_dot_app by done.
      destruct z as [|z1 [|z2 [|]]]; try done. cbn in Hz.
      injection Hz as _ Hz2. cbn.
      destruct (is_dot z2) eqn:Hd; [|done].
      apply is_dot_true in Hd as ->. done. }
    rewrite Hend, lstrip_dot_app_ne by done.
    change (lstrip_dot stem +:+ String "."%char (a +:+ String "."%char z))
      with (lstrip_dot stem +:+ String "."%char (a +:+ String "."%char z)).
    rewrite split_dot_app_dot, split_dot_app_dot.
    rewrite (split_dot_no_dot a), (split_dot_no_dot z) by done.
    pose proof (split_dot_nonempty (lstrip_dot stem)) as Hne.
    destruct (split_dot (lstrip_dot stem)) as [|p0 rest]; [done|].
    cbn [app tail]. rewrite map_app. cbn [map].
    destruct (from_end_snoc2 (map (String "."%char) rest)
                (String "."%char a) (String "."%char z)) as [-> ->].
    rewrite length_app, length_map. cbn [length lower].
    rewrite Ha, Hz. split; [lia|]. done.
Qed.

(** X12: the filter takes exactly the names made of a non-empty stem and an
    ending [.arc], or of a stem that is not made of dots only and an ending
    [.arc.lz], in any mix of capitals. *)
Theorem does_path_look_like_level_shape fp :
  does_path_look_like_level fp = true ↔
  ∃ stem ext,
    name fp = stem +:+ ext
    ∧ ((stem ≠ EmptyString ∧ lower ext = ".arc"%string)
       ∨ (lstrip_dot stem ≠ EmptyString ∧ lower ext = ".arc.lz"%string)).
Proof.
  rewrite does_path_look_like_level_spec, suffix_arc_shape, suffixes_arc_lz_shape.
  split.
  - intros [(stem & ext & Hn & H1 & H2) | (stem & ext & Hn & H1 & H2)];
      exists stem, ext; auto.
  - intros (stem & ext & Hn & [[H1 H2] | [H1 H2]]); [left | right];
      by exists stem, ext.
Qed.

(** ** The walk: the paths it scans *)

Lemma NoDup_List_filter {A} (q : A → bool) (l : list A) :
  NoDup l → NoDup (List.filter q l).
Proof.
  induction 1 as [|x l Hx Hl IH]; [constructor|]. cbn.
  destruct (q x); [|done]. constructor; [|done].
  rewrite elem_of_List_filter. by intros [? _].
Qed.

Lemma NoDup_sorted_children d fp : NoDup (sorted (children fp d)).
Proof.
  unfold sorted. rewrite merge_sort_Permutation. unfold children.
  apply NoDup_List_filter, NoDup_elements.
Qed.

Lemma elem_of_flat_map {A B} (g : A → list B) (l : list A) y :
  y ∈ flat_map g l ↔ ∃ x, x ∈ l ∧ y ∈ g x.
Proof.
  rewrite list_elem_of_In, in_flat_map. setoid_rewrite list_elem_of_In. done.
Qed.

Lemma is_dir_in_true d fp : is_dir_in d fp = true ↔ d !! fp = Some Dir.
Proof.
  unfold is_dir_in. split; [|by intros ->].
  by destruct (d !! fp) as [[]|].
Qed.

Lemma is_dir_in_false d fp : is_dir_in d fp = false ↔ d !! fp ≠ Some Dir.
Proof.
  unfold is_dir_in. destruct (d !! fp) as [[]|]; split; done.
Qed.

(** The paths a walk is to scan, one by one: entries that look like levels
    and are not directories, reached from [fp] through directories, within
    [depth] steps. *)
Lemma elem_of_level_files depth : ∀ d fp recursive p,
  p ∈ level_files depth d fp recursive ↔
  does_path_look_like_level p = true
  ∧ ∃ rest, p = fp ++ rest ∧ 0 < length rest ≤ depth
            ∧ (recursive = false → length rest = 1)
            ∧ is_Some (d !! p) ∧ d !! p ≠ Some Dir
            ∧ ∀ k, 0 < k < length rest → d !! (fp ++ take k rest) = Some Dir.
Proof.
  induction depth as [|n IH]; intros d fp recursive p.
  { cbn. split; [by intros ?%elem_of_nil|]. intros (_ & rest & _ & ? & _). lia. }
  cbn [level_files]. rewrite elem_of_app. split.
  - intros [Hown | Hsub].
    + apply elem_of_List_filter in Hown as [Hc Hq].
      apply elem_of_sorted_children in Hc as [Hin (nm & ->)].
      apply andb_true_iff in Hq as [Hnd Hlook]. apply negb_true_iff in Hnd.
      split; [done|]. exists [nm]. cbn [length].
      split; [done|]. split; [lia|]. split; [done|]. split; [done|].
      split; [by apply is_dir_in_false|]. intros k Hk. lia.
    + destruct recursive; [|by apply elem_of_nil in Hsub].
      apply elem_of_flat_map in Hsub as (c & Hc & Hp).
      apply elem_of_sorted_children in Hc as [Hin (nm & ->)].
      destruct (is_dir_in d (fp ++ [nm])) eqn:Hf; [|by apply elem_of_nil in Hp].
      apply IH in Hp as (Hlook & rest & -> & Hlen & _ & Hsome & Hnd & Hdirs).
      split; [done|]. exists (nm :: rest). cbn [length].
      split; [by rewrite <- app_assoc|]. split; [lia|]. split; [done|].
      split; [done|]. split; [done|].
      intros k Hk. destruct k as [|[|k]]; [lia| |].
      * cbn. by apply is_dir_in_true.
      * specialize (Hdirs (S k)). cbn [take] in *.
        rewrite <- app_assoc in Hdirs. apply Hdirs. lia.
  - intros (Hlook & rest & -> & Hlen & Hrec & Hsome & Hnd & Hdirs).
    destruct rest as [|nm rest]; [cbn in Hlen; lia|].
    destruct rest as [|nm' rest].
    + left. apply elem_of_List_filter. split.
      * apply elem_of_sorted_children. split; [done | by exists nm].
      * apply is_dir_in_false in Hnd. by rewrite Hnd, Hlook.
    + right. destruct recursive; [|specialize (Hrec eq_refl); cbn in Hrec; lia].
      assert (Hc : d !! (fp ++ [nm]) = Some Dir).
      { apply (Hdirs 1). cbn [length]. lia. }
      apply elem_of_flat_map. exists (fp ++ [nm]). split.
      * apply elem_of_sorted_children. split; [by exists Dir | by exists nm].
      * rewrite (proj2 (is_dir_in_true _ _) Hc). apply IH. split; [done|].
        exists (nm' :: rest). cbn [length] in *.
        split; [by rewrite <- app_assoc|]. split; [lia|]. split; [done|].
        split; [done|]. split; [done|].
        intros k Hk. specialize (Hdirs (S k)). cbn [take] in Hdirs.
        rewrite <- app_assoc. apply Hdirs. lia.
Qed.

Lemma NoDup_flat_map {A B} (g : A → list B) (l : list A) :
  NoDup l →
  (∀ x, x ∈ l → NoDup (g x)) →
  (∀ x x' y, x ∈ l → x' ∈ l → y ∈ g x → y ∈ g x' → x = x') →
  NoDup (flat_map g l).
Proof.
  induction 1 as [|x l Hx Hl IH]; intros Hg Hdisj; [constructor|].
  cbn [flat_map]. apply NoDup_app. split; [apply Hg; left|]. split.
  - intros y Hy Hy'. apply elem_of_flat_map in Hy' as (x' & Hx' & Hy').
    assert (x = x') as <- by (eapply Hdisj; [left | by right | done | done]).
    done.
  - apply IH; [intros x' Hx'; apply Hg; by right|].
    intros x1 x2 y H1 H2. apply Hdisj; by right.
Qed.

Lemma NoDup_level_files depth : ∀ d fp recursive,
  NoDup (level_files depth d fp recursive).
Proof.
  induction depth as [|n IH]; intros d fp recursive; [constructor|].
  cbn [level_files]. apply NoDup_app. split; [|split].
  - apply NoDup_List_filter, NoDup_sorted_children.
  - intros p Hown Hsub. destruct recursive; [|by apply elem_of_nil in Hsub].
    apply elem_of_List_filter in Hown as [Hc _].
    apply elem_of_sorted_children in Hc as [_ (nm & ->)].
    apply elem_of_flat_map in Hsub as (c & Hc & Hp).
    apply elem_of_sorted_children in Hc as [_ (nm' & ->)].
    destruct (is_dir_in d (fp ++ [nm'])); [|by apply elem_of_nil in Hp].
    apply elem_of_level_files in Hp as (_ & rest & Heq & Hlen & _).
    apply (f_equal length) in Heq. rewrite !length_app in Heq. cbn in Heq. lia.
  - destruct recursive; [|constructor].
    apply NoDup_flat_map; [apply NoDup_sorted_children | |].
    + intros c _. destruct (is_dir_in d c); [apply IH | constructor].
    + intros c c' p Hc Hc' Hp Hp'.
      apply elem_of_sorted_children in Hc as [_ (nm & ->)].
      apply elem_of_sorted_children in Hc' as [_ (nm' & ->)].
      destruct (is_dir_in d (fp ++ [nm])); [|by apply elem_of_nil in Hp].
      destruct (is_dir_in d (fp ++ [nm'])); [|by apply elem_of_nil in Hp'].
      apply elem_of_level_files in Hp as (_ & rest & -> & _).
      apply elem_of_level_files in Hp' as (_ & rest' & Heq & _).
      rewrite <- !app_assoc in Heq. apply app_inv_head in Heq.
      by injection Heq as ->.
Qed.

(** A path of [level_files] looks like a level and is reached. *)
Lemma level_files_reached depth d fp recursive p :
  p ∈ level_files depth d fp recursive →
  does_path_look_like_level p = true ∧ walk_reaches d fp recursive p.
Proof.
  rewrite elem_of_level_files.
  intros (Hlook & rest & -> & Hlen & Hrec & Hsome & Hnd & Hdirs).
  split; [done|]. exists rest. split; [done|].
  split; [intros ->; cbn in Hlen; lia|]. done.
Qed.

(** A path that looks like a level and is reached is one of [level_files],
    when [depth] is enough for the directories on the way. *)
Lemma reached_level_files depth d fp recursive p :
  1 ≤ depth →
  (recursive = true → plain_tree depth d fp) →
  does_path_look_like_level p = true → walk_reaches d fp recursive p →
  p ∈ level_files depth d fp recursive.
Proof.
  intros Hdepth Hplain Hlook (rest & -> & Hne & Hrec & Hsome & Hnd & Hdirs).
  apply elem_of_level_files. split; [done|]. exists rest. split; [done|].
  assert (0 < length rest) by (destruct rest; [done | cbn; lia]).
  split; [|done]. split; [done|].
  destruct recursive; [|rewrite Hrec by done; lia].
  destruct (decide (length rest = 1)) as [->|Hlong]; [lia|].
  specialize (Hdirs (length rest - 1)).
  destruct (Hplain eq_refl (take (length rest - 1) rest)) as [Hdeep _].
  specialize (Hdeep (Hdirs ltac:(lia))). rewrite length_take in Hdeep. lia.
Qed.

(** X13: however a walk ends and whatever the disk holds, it creates and
    removes nothing, it writes only to files that look like levels and that
    it reaches, and every path it has not written to holds what it held. *)
Theorem scan_folder_touches_only_levels (codecs : Codecs) depth fp recursive w :
  let w' := (scan_folder depth fp recursive w).2 in
  shape (disk w') = shape (disk w)
  ∧ (∀ p, p ∈ writes_of (new_events w w') →
          does_path_look_like_level p = true
          ∧ walk_reaches (disk w) fp recursive p
          ∧ ∃ content, disk w !! p = Some (File content))
  ∧ (∀ p, p ∉ writes_of (new_events w w') → disk w' !! p = disk w !! p)
  ∧ (∀ p, ¬ (does_path_look_like_level p = true
             ∧ walk_reaches (disk w) fp recursive p) →
          disk w' !! p = disk w !! p).
Proof.
  destruct (scan_folder_spec depth fp recursive w)
    as (r & w' & t & Hrun & Hs & Ht & Hp & _ & _ & Hd & Hwr).
  rewrite Hrun. cbn [snd]. unfold new_events. rewrite Ht, drop_app_length.
  assert (Hwrites : ∀ p, p ∈ writes_of t →
            does_path_look_like_level p = true
            ∧ walk_reaches (disk w) fp recursive p
            ∧ ∃ content, disk w !! p = Some (File content)).
  { intros p Hin. apply Hwr in Hin as [Hsc Hf].
    pose proof (elem_of_prefix _ _ _ Hsc Hp) as Hlf.
    apply level_files_reached in Hlf as [Hlook Hreach].
    split; [done|]. split; [done|].
    unfold is_file_in in Hf. destruct (disk w !! p) as [[content| |]|]; try done.
    by exists content. }
  split; [done|]. split; [done|]. split; [done|].
  intros p Hnot. apply Hd. intros Hin. apply Hnot.
  by destruct (Hwrites p Hin) as (? & ? & _).
Qed.

(** X14: however a walk ends and whatever the disk holds, it calls
    [scan_file] at most once on a path, and only on entries that look like
    levels, are not directories, and that it reaches. A walk of a directory
    that is not recursive, or that goes over a tree of files and directories,
    returns and has called [scan_file] on every such entry. *)
Theorem scan_folder_scans_each_level_once (codecs : Codecs) depth fp recursive w :
  let run := scan_folder depth fp recursive w in
  NoDup (scanned (new_events w run.2))
  ∧ (∀ p, p ∈ scanned (new_events w run.2) →
          does_path_look_like_level p = true
          ∧ walk_reaches (disk w) fp recursive p)
  ∧ (disk w !! fp = Some Dir →
     1 ≤ depth →
     (recursive = true → plain_tree depth (disk w) fp) →
     run.1 = Ok tt
     ∧ ∀ p, does_path_look_like_level p = true
            ∧ walk_reaches (disk w) fp recursive p →
            p ∈ scanned (new_events w run.2)).
Proof.
  destruct (scan_folder_spec depth fp recursive w)
    as (r & w' & t & Hrun & Hs & Ht & Hp & Hall & Hok & _).
  rewrite Hrun. cbn [fst snd]. unfold new_events. rewrite Ht, drop_app_length.
  split; [|split].
  - destruct Hp as (k & Hk).
    pose proof (NoDup_level_files depth (disk w) fp recursive) as Hnd.
    rewrite Hk in Hnd. by apply NoDup_app in Hnd as [Hnd _].
  - intros p Hin. apply (level_files_reached depth).
    by apply (elem_of_prefix _ _ _ Hin).
  - intros Hdir Hdepth Hplain. specialize (Hok Hdir Hdepth Hplain).
    split; [done|]. intros p [Hlook Hreach]. rewrite (Hall Hok).
    by apply reached_level_files.
Qed.

Lemma scan_folder_touches_only_levels_witness :
  let w := World (scenario_disk (u8_magic ++ slot_two) [x11] [] [x41]) [] in
  let w' := (scan_folder (H := toy_codecs) 2 ["dir"%string] true w).2 in
  shape (disk w') = shape (disk w)
  ∧ disk w' !! ["dir"; "c.txt"]%string = disk w !! ["dir"; "c.txt"]%string
  ∧ writes_of (new_events w w') = [["dir"; "a.arc"]%string].
Proof.
  intros w w'.
  destruct (scan_folder_touches_only_levels toy_codecs 2 ["dir"%string] true w)
    as (Hs & _ & _ & Hd).
  split; [exact Hs|]. split.
  - apply Hd. intros [Hlook _]. discriminate Hlook.
  - vm_compute. reflexivity.
Defined.

Lemma scan_folder_scans_each_level_once_witness :
  let w := World odd_disk [] in
  let run := scan_folder (H := toy_codecs) 2 ["dir"%string] false w in
  disk w !! ["dir"%string] = Some Dir
  ∧ run.1 = Ok tt
  ∧ NoDup (scanned (new_events w run.2))
  ∧ (["dir"; "ghost.arc"]%string ∈ scanned (new_events w run.2))
  ∧ (["dir"; "loose"]%string ∉ scanned (new_events w run.2)).
Proof.
  intros w run.
  assert (Hdir : disk w !! ["dir"%string] = Some Dir) by reflexivity.
  split; [exact Hdir|].
  destruct (scan_folder_scans_each_level_once toy_codecs 2 ["dir"%string] false w)
    as (Hnd & Honly & Hall).
  destruct (Hall Hdir) as [Hok Hevery]; [lia | discriminate |].
  split; [exact Hok|]. split; [exact Hnd|]. split.
  - apply Hevery. split; [reflexivity|].
    exists ["ghost.arc"%string]. split; [reflexivity|]. split; [discriminate|].
    split; [reflexivity|]. split; [by eexists|]. split; [discriminate|].
    intros k Hk. cbn in Hk. lia.
  - intros Hin. apply Honly in Hin as [Hlook _]. discriminate Hlook.
Defined.

(** ** [main]: a path that is not a file *)

(** X15: on a path that does not exist, or that is neither a file nor a
    directory, [main] prints the banner and the line that says that the path
    does not exist, opens nothing, writes nothing and returns. On a
    directory [main] prints the banner and does what the walk does, an
    exception of the walk included. It returns, with the disk in its shape
    and the candidates of the walk scanned, when the walk is not recursive
    or goes over a tree of files and directories. *)
Theorem main_missing_or_directory (codecs : Codecs) depth path recursive w :
  (disk w !! path = None ∨ disk w !! path = Some Other →
   main depth path recursive w =
   (Ok tt,
    World (disk w)
          (trace w ++
           [EvPrint banner;
            EvPrint ("Error: " +:+ dq +:+ str_of_path path +:+ dq
                     +:+ " does not exist.")%string])))
  ∧ (disk w !! path = Some Dir →
     main depth path recursive w =
     scan_folder depth path recursive
                 (World (disk w) (trace w ++ [EvPrint banner])))
  ∧ (disk w !! path = Some Dir →
     1 ≤ depth →
     (recursive = true → plain_tree depth (disk w) path) →
     ∃ w' t, main depth path recursive w = (Ok tt, w')
             ∧ shape (disk w') = shape (disk w)
             ∧ trace w' = trace w ++ EvPrint banner :: t
             ∧ scanned t = level_files depth (disk w) path recursive).
Proof.
  assert (Hmain : disk w !! path = Some Dir →
            main depth path recursive w =
            scan_folder depth path recursive
                        (World (disk w) (trace w ++ [EvPrint banner]))).
  { intros Hdir. unfold main, mbind, IO_bind, print, log, is_file, is_dir.
    cbn [disk trace]. rewrite Hdir. cbn [disk trace]. by rewrite Hdir. }
  split; [|split].
  - intros [Hnone|Hother]; unfold main, mbind, IO_bind, print, log, is_file, is_dir.
    + cbn [disk trace]. rewrite Hnone. cbn [disk trace]. rewrite Hnone.
      cbn [disk trace]. by rewrite <- app_assoc.
    + cbn [disk trace]. rewrite Hother. cbn [disk trace]. rewrite Hother.
      cbn [disk trace]. by rewrite <- app_assoc.
  - exact Hmain.
  - intros Hdir Hdepth Hplain. rewrite (Hmain Hdir).
    set (w0 := World (disk w) (trace w ++ [EvPrint banner])).
    destruct (scan_folder_Ok depth path recursive w0 Hdir Hdepth Hplain)
      as (w' & t & Hrun & Hs & Ht & Hsc).
    exists w', t. split; [done|]. split; [done|]. split; [|done].
    rewrite Ht. cbn [w0 trace]. by rewrite <- app_assoc.
Qed.

Lemma main_missing_or_directory_witness :
  let w := World odd_disk [] in
  (disk w !! ["dir"; "loose"]%string = Some Other
   ∧ main (H := toy_codecs) 1 ["dir"; "loose"]%string false w =
     (Ok tt, World odd_disk
               [EvPrint banner;
                EvPrint (String.append "Error: "
                           (String "034"%char
                              (String.append "dir/loose"
                                 (String "034"%char " does not exist."))))]))
  ∧ (disk w !! ["dir"%string] = Some Dir
     ∧ ∃ w' t, main (H := toy_codecs) 1 ["dir"%string] false w = (Ok tt, w')
               ∧ shape (disk w') = shape (disk w)
               ∧ trace w' = trace w ++ EvPrint banner :: t
               ∧ scanned t = level_files 1 (disk w) ["dir"%string] false).
Proof.
  intros w.
  pose proof (main_missing_or_directory toy_codecs 1 ["dir"; "loose"]%string false w)
    as [Hmissing _].
  pose proof (main_missing_or_directory toy_codecs 1 ["dir"%string] false w)
    as (_ & _ & Hwalk).
  split.
  - exact (conj eq_refl (Hmissing (or_intror eq_refl))).
  - split; [reflexivity|]. apply Hwalk; [reflexivity | lia | discriminate].
Defined.

(** ** The walk: the order of the scans *)

Lemma ascii_compare_lt_trans a b c :
  Ascii.compare a b = Lt → Ascii.compare b c = Lt → Ascii.compare a c = Lt.
Proof.
  unfold Ascii.compare. rewrite !N.compare_lt_iff. apply N.lt_trans.
Qed.

Lemma string_compare_lt_trans a : ∀ b c,
  String.compare a b = Lt → String.compare b c = Lt → String.compare a c = Lt.
Proof.
  induction a as [|x a IH]; intros [|y b] [|z c]; cbn; try done.
  destruct (Ascii.compare x y) eqn:Exy; [| |done].
  - apply Ascii.compare_eq_iff in Exy as ->.
    destruct (Ascii.compare y z); [apply IH|done..].
  - destruct (Ascii.compare y z) eqn:Eyz; [| |done].
    + apply Ascii.compare_eq_iff in Eyz as <-. by rewrite Exy.
    + by rewrite (ascii_compare_lt_trans x y z).
Qed.

#[local] Instance path_leb_total : Total (fun p q => Is_true (path_leb p q)).
Proof.
  intros p. induction p as [|a p IH]; intros [|b q]; cbn; auto.
  rewrite (String.compare_antisym b a).
  destruct (String.compare a b); cbn; auto.
Qed.

#[local] Instance path_leb_trans : Transitive (fun p q => Is_true (path_leb p q)).
Proof.
  intros p. induction p as [|a p IH]; intros [|b q] [|c r]; cbn; try done.
  destruct (String.compare a b) eqn:Eab; [| |done].
  - apply String.compare_eq_iff in Eab as ->.
    destruct (String.compare b c); [apply IH|done..].
  - destruct (String.compare b c) eqn:Ebc; [| |done].
    + apply String.compare_eq_iff in Ebc as <-. by rewrite Eab.
    + by rewrite (string_compare_lt_trans a b c).
Qed.

Lemma StronglySorted_List_filter {A} (R : relation A) (q : A → bool) l :
  StronglySorted R l → StronglySorted R (List.filter q l).
Proof.
  induction 1 as [|x l Hl IH Hx]; [constructor|]. cbn.
  destruct (q x); [|done]. constructor; [done|].
  apply Forall_forall. intros y [Hy _]%elem_of_List_filter.
  by eapply Forall_forall in Hx.
Qed.

(** The two parts of [level_files]: the candidates of the directory itself,
    in ascending order, and paths that lie deeper. *)
Lemma level_files_parts n d fp recursive :
  let own := List.filter
               (fun c => negb (is_dir_in d c) && does_path_look_like_level c)
               (sorted (children fp d)) in
  ∃ below, level_files (S n) d fp recursive = own ++ below
           ∧ StronglySorted (fun p q => Is_true (path_leb p q)) own
           ∧ (∀ p, p ∈ own → is_child fp p = true)
           ∧ (∀ p, p ∈ below → S (length fp) < length p)
           ∧ (recursive = false → below = []).
Proof.
  intros own. cbn [level_files]. eexists. split; [done|]. split; [|split; [|split]].
  - apply StronglySorted_List_filter. unfold sorted.
    apply StronglySorted_merge_sort; apply _.
  - intros p [Hc _]%elem_of_List_filter.
    apply elem_of_sorted_children in Hc as [_ Hnm]. by apply is_child_snoc.
  - intros p Hp. destruct recursive; [|by apply elem_of_nil in Hp].
    apply elem_of_flat_map in Hp as (c & Hc & Hp).
    apply elem_of_sorted_children in Hc as [_ (nm & ->)].
    destruct (is_dir_in d (fp ++ [nm])); [|by apply elem_of_nil in Hp].
    apply elem_of_level_files in Hp as (_ & rest & -> & Hlen & _).
    rewrite !length_app. cbn. lia.
  - by intros ->.
Qed.

(** X16: however a walk ends, the paths it has scanned are first candidates
    of the directory itself, in ascending order of their paths, and then
    paths that lie deeper; a walk that is not recursive scans no deeper
    path. When a deeper path was scanned, or the walk has returned, every
    candidate of the directory itself was scanned before. *)
Theorem scan_folder_scans_in_order (codecs : Codecs) depth fp recursive w :
  let run := scan_folder depth fp recursive w in
  ∃ own below,
    scanned (new_events w run.2) = own ++ below
    ∧ StronglySorted (fun p q => Is_true (path_leb p q)) own
    ∧ (∀ p, p ∈ own → is_child fp p = true)
    ∧ (∀ p, p ∈ below → S (length fp) < length p)
    ∧ (recursive = false → below = [])
    ∧ (below ≠ [] ∨ run.1 = Ok tt →
       own = List.filter
               (fun c => negb (is_dir_in (disk w) c) && does_path_look_like_level c)
               (sorted (children fp (disk w)))).
Proof.
  destruct (scan_folder_spec depth fp recursive w)
    as (r & w' & t & Hrun & Hs & Ht & Hp & Hall & _).
  cbv zeta. rewrite Hrun. cbn [fst snd]. unfold new_events.
  rewrite Ht, drop_app_length.
  destruct depth as [|n].
  { apply prefix_nil_inv in Hp. rewrite Hp. exists [], [].
    split; [done|]. split; [constructor|].
    split; [by intros p ?%elem_of_nil|]. split; [by intros p ?%elem_of_nil|].
    split; [done|]. intros [?|Hr]; [done|]. subst r. by cbn in Hrun. }
  destruct (level_files_parts n (disk w) fp recursive)
    as (lbelow & Hlf & Hsorted & Hown & Hbelow & Hrec).
  rewrite Hlf in Hp, Hall. destruct Hp as (k & Hk).
  symmetry in Hk. apply app_eq_app in Hk as (l & [[Hl1 Hl2]|[Hl1 Hl2]]).
  - (* all the candidates of the directory, then deeper paths *)
    eexists _, l. split; [exact Hl1|]. split; [done|]. split; [done|].
    split; [intros p Hp; apply Hbelow; rewrite Hl2; apply elem_of_app; by left|].
    split; [|done]. intros Hr. specialize (Hrec Hr). rewrite Hrec in Hl2.
    symmetry in Hl2. by apply app_eq_nil in Hl2 as [-> _].
  - (* the scans stop among the candidates of the directory *)
    exists (scanned t), []. rewrite app_nil_r. split; [done|].
    rewrite Hl1 in Hsorted, Hown, Hall |- *.
    split; [by apply StronglySorted_app_1_l in Hsorted|].
    split; [intros p Hp; apply Hown, elem_of_app; by left|].
    split; [by intros p ?%elem_of_nil|]. split; [done|].
    intros [?|Hr]; [done|]. specialize (Hall Hr).
    apply (f_equal length) in Hall. rewrite !length_app in Hall.
    assert (l = []) as -> by (apply length_zero_iff_nil; lia).
    by rewrite app_nil_r.
Qed.

Lemma scan_folder_scans_in_order_witness :
  let w := World odd_disk [] in
  let run := scan_folder (H := toy_codecs) 2 ["dir"%string] true w in
  run.1 = Raise OSError
  ∧ scanned (new_events w run.2)
    = [["dir"; "a.arc"]; ["dir"; "b.arc"]; ["dir"; "ghost.arc"]]%string
  ∧ ∃ own below,
      scanned (new_events w run.2) = own ++ below
      ∧ StronglySorted (fun p q => Is_true (path_leb p q)) own
      ∧ (∀ p, p ∈ own → is_child ["dir"%string] p = true)
      ∧ (∀ p, p ∈ below → 2 < length p).
Proof.
  intros w run.
  split; [vm_compute; reflexivity|]. split; [vm_compute; reflexivity|].
  destruct (scan_folder_scans_in_order toy_codecs 2 ["dir"%string] true w)
    as (own & below & Hsc & Hso & Hown & Hbelow & _).
  exists own, below.
  exact (conj Hsc (conj Hso (conj Hown Hbelow))).
Defined.
